(** * RWYEngine: relationship graph construction, layout and viewer

    A shallow embedding of [graph.py], [database.py] and the layout and
    interaction logic of [graph_viewer.py], with the handlers of the
    relationship editor ([relationship_ui.py]) and of the main window
    ([main.py]) and the search dictionary of [search.py].

    Python dictionaries iterate in insertion order and that order decides
    the breadth-first traversal and the layout, so the dictionaries whose
    iteration order is observed ([G._node], [G._succ], [layers], [pos],
    [node_items]) are association lists with dictionary update; attribute
    dictionaries and sets, which are only looked up, are [gmap] and [gset].
    Coordinates are exact rationals standing for the doubles of the code;
    the curve of an edge is also given on the doubles themselves ([Double]),
    with the condition under which the two agree. *)

From Stdlib Require Import Floats.PrimFloat Floats.SpecFloat Floats.FloatOps.
From Stdlib Require Import ZArith QArith Qabs Qminmax Qround Lqa DecimalString Sorting.Sorted.
From stdpp Require Import base list strings gmap sets.

Open Scope Z_scope.

(** ** Insertion-ordered dictionaries *)

Module OD.
Section defs.
Context {K V : Type} `{EqDecision K}.

(** [d.keys()], in insertion order. *)
Definition keys (d : list (K * V)) : list K := d.*1.

(** [d.get(k)] *)
Fixpoint get (k : K) (d : list (K * V)) : option V :=
  match d with
  | [] => None
  | (k', v) :: d' => if decide (k = k') then Some v else get k d'
  end.

(** [k in d] *)
Definition mem (k : K) (d : list (K * V)) : bool := bool_decide (k ∈ keys d).

(** [d[k] = v]: an existing key keeps its place, a new key goes last. *)
Fixpoint set (k : K) (v : V) (d : list (K * V)) : list (K * V) :=
  match d with
  | [] => [(k, v)]
  | (k', v') :: d' =>
      if decide (k = k') then (k, v) :: d' else (k', v') :: set k v d'
  end.
End defs.
End OD.

(** ** Python values used by the builder *)

(** [str(n)] for an [int]. *)
Definition py_str (n : Z) : string := NilZero.string_of_int (Z.to_int n).

(** [x or d] for a text column: [None] (SQL NULL) and the empty string are
    falsy. *)
Definition py_or (x : option string) (d : string) : string :=
  match x with
  | None => d
  | Some s => if decide (s = EmptyString) then d else s
  end.

(** ** Rows handed over by the record store ([sqlite3.Row]) *)

Record EntryRow := {
  e_id : Z;
  e_title : option string;
  e_description : option string;
  e_category : option string;
  e_tags : option string;
  e_synonyms : option string
}.

Record RelRow := {
  r_id : Z;
  r_entry_a : Z;
  r_entry_b : Z;
  r_type : option string
}.

(** ** The directed graph ([networkx.DiGraph]) *)

(** An attribute dictionary ([label], [category]). *)
Abbreviation attrs := (gmap string string).

(** [g_node], [g_succ] and [g_pred] are the dictionaries [_node], [_succ]
    (also called [_adj]) and [_pred] of the networkx object. *)
Record DiGraph := {
  g_node : list (Z * attrs);
  g_succ : list (Z * list (Z * attrs));
  g_pred : list (Z * list (Z * attrs))
}.

Definition empty_digraph : DiGraph := {| g_node := []; g_succ := []; g_pred := [] |}.

(** [G.nodes], in iteration order. *)
Definition nodes (G : DiGraph) : list Z := OD.keys (g_node G).

(** [G.edges(data=True)]: for every node in order, its successors in order. *)
Definition edges (G : DiGraph) : list (Z * Z * attrs) :=
  '(u, nbrs) ← g_succ G; '(v, d) ← nbrs; [(u, v, d)].

(** [G[u][v]], when the edge exists. *)
Definition edge_attr (G : DiGraph) (u v : Z) : option attrs :=
  OD.get u (g_succ G) ≫= OD.get v.

(** The block [if n not in self._succ: ...] of [add_node] and [add_edge]. *)
Definition ensure_node (G : DiGraph) (n : Z) : DiGraph :=
  if OD.mem n (g_succ G) then G
  else {| g_node := OD.set n ∅ (g_node G);
          g_succ := OD.set n [] (g_succ G);
          g_pred := OD.set n [] (g_pred G) |}.

(** [G.add_node(n, **attr)]: a new node gets [attr], a known one has its
    attributes updated. *)
Definition add_node (G : DiGraph) (n : Z) (attr : attrs) : DiGraph :=
  let G1 := ensure_node G n in
  {| g_node := OD.set n (attr ∪ default ∅ (OD.get n (g_node G1))) (g_node G1);
     g_succ := g_succ G1;
     g_pred := g_pred G1 |}.

(** [G.add_edge(u, v, **attr)]: missing endpoints are created, the data
    dictionary of an edge that is already there is updated and kept. *)
Definition add_edge (G : DiGraph) (u v : Z) (attr : attrs) : DiGraph :=
  let G2 := ensure_node (ensure_node G u) v in
  let datadict := attr ∪ default ∅ (edge_attr G2 u v) in
  {| g_node := g_node G2;
     g_succ := OD.set u (OD.set v datadict (default [] (OD.get u (g_succ G2)))) (g_succ G2);
     g_pred := OD.set v (OD.set u datadict (default [] (OD.get v (g_pred G2)))) (g_pred G2) |}.

(** ** [graph.py]: [build_graph] *)

Definition entry_attrs (e : EntryRow) : attrs :=
  let title := py_or (e_title e) ("ID " +:+ py_str (e_id e)) in
  let category := py_or (e_category e) "default" in
  {[ "label"%string := title; "category"%string := category ]}.

Definition rel_attrs (r : RelRow) : attrs :=
  let rel_type := py_or (r_type r) "relationship" in
  {[ "label"%string := rel_type ]}.

Definition add_entry_node (G : DiGraph) (e : EntryRow) : DiGraph :=
  add_node G (e_id e) (entry_attrs e).

Definition add_rel_edge (G : DiGraph) (r : RelRow) : DiGraph :=
  let a := r_entry_a r in
  let b := r_entry_b r in
  if OD.mem a (g_node G) && OD.mem b (g_node G)
  then add_edge G a b (rel_attrs r)
  else G.

Definition build_graph (entries : list EntryRow) (relationships : list RelRow) : DiGraph :=
  let G := fold_left add_entry_node entries empty_digraph in
  fold_left add_rel_edge relationships G.

(** Rows for the examples: an entry with a title and a category, a
    relationship with a type. *)
Definition mkE (i : Z) (title category : string) : EntryRow :=
  {| e_id := i; e_title := Some title; e_description := None;
     e_category := Some category; e_tags := None; e_synonyms := None |}.
Definition mkR (i a b : Z) (ty : string) : RelRow :=
  {| r_id := i; r_entry_a := a; r_entry_b := b; r_type := Some ty |}.

(** ** [database.py]: the record store

    The two tables as row lists in rowid order, with the AUTOINCREMENT
    counters. Every method commits, so a method is a function on stores. *)

Module Database.

Record Store := {
  entries : list EntryRow;
  relationships : list RelRow;
  next_entry_id : Z;
  next_rel_id : Z
}.

Definition create_tables : Store :=
  {| entries := []; relationships := []; next_entry_id := 1; next_rel_id := 1 |}.

Definition add_entry (s : Store) (title description category tags synonyms : string)
  : Store * Z :=
  let i := next_entry_id s in
  ({| entries := entries s ++
        [{| e_id := i; e_title := Some title; e_description := Some description;
            e_category := Some category; e_tags := Some tags;
            e_synonyms := Some synonyms |}];
      relationships := relationships s;
      next_entry_id := i + 1;
      next_rel_id := next_rel_id s |}, i).

Definition add_relationship (s : Store) (entry_a entry_b : Z) (rel_type : string)
  : Store * Z :=
  let i := next_rel_id s in
  ({| entries := entries s;
      relationships := relationships s ++
        [{| r_id := i; r_entry_a := entry_a; r_entry_b := entry_b;
            r_type := Some rel_type |}];
      next_entry_id := next_entry_id s;
      next_rel_id := i + 1 |}, i).

(** [SELECT * FROM relationships WHERE entry_a = ? OR entry_b = ?] *)
Definition references (entry_id : Z) (r : RelRow) : Prop :=
  r_entry_a r = entry_id ∨ r_entry_b r = entry_id.

Definition get_relationships_for_entry (s : Store) (entry_id : Z) : list RelRow :=
  filter (references entry_id) (relationships s).

Definition get_all_entries (s : Store) : list EntryRow := entries s.
Definition get_all_relationships (s : Store) : list RelRow := relationships s.

(** [DELETE FROM entries WHERE id = ?] *)
Definition delete_entry (s : Store) (entry_id : Z) : Store :=
  {| entries := filter (λ e, e_id e ≠ entry_id) (entries s);
     relationships := relationships s;
     next_entry_id := next_entry_id s;
     next_rel_id := next_rel_id s |}.

(** [DELETE FROM relationships WHERE entry_a = ? OR entry_b = ?], then
    [DELETE FROM entries WHERE id = ?]. *)
Definition delete_entry_and_relationships (s : Store) (entry_id : Z) : Store :=
  let rels := filter (λ r, ¬ references entry_id r) (relationships s) in
  {| entries := filter (λ e, e_id e ≠ entry_id) (entries s);
     relationships := rels;
     next_entry_id := next_entry_id s;
     next_rel_id := next_rel_id s |}.

Definition delete_relationship (s : Store) (rel_id : Z) : Store :=
  {| entries := entries s;
     relationships := filter (λ r, r_id r ≠ rel_id) (relationships s);
     next_entry_id := next_entry_id s;
     next_rel_id := next_rel_id s |}.

(** [SELECT * FROM entries WHERE id = ?], [fetchone]: the first row with
    that id, [None] when there is none. *)
Definition get_entry (s : Store) (entry_id : Z) : option EntryRow :=
  head (filter (λ e, e_id e = entry_id) (entries s)).

(** [UPDATE entries SET title = ?, ... WHERE id = ?] *)
Definition update_entry (s : Store) (entry_id : Z)
    (title description category tags synonyms : string) : Store :=
  {| entries :=
       (λ e, if decide (e_id e = entry_id)
             then {| e_id := e_id e; e_title := Some title;
                     e_description := Some description; e_category := Some category;
                     e_tags := Some tags; e_synonyms := Some synonyms |}
             else e) <$> entries s;
     relationships := relationships s;
     next_entry_id := next_entry_id s;
     next_rel_id := next_rel_id s |}.

(** A call of one of the writing methods. *)
Inductive call :=
| AddEntry (title description category tags synonyms : string)
| UpdateEntry (entry_id : Z) (title description category tags synonyms : string)
| DeleteEntry (entry_id : Z)
| DeleteEntryAndRelationships (entry_id : Z)
| AddRelationship (entry_a entry_b : Z) (rel_type : string)
| DeleteRelationship (rel_id : Z).

Definition perform (s : Store) (c : call) : Store :=
  match c with
  | AddEntry t d c g y => (add_entry s t d c g y).1
  | UpdateEntry i t d c g y => update_entry s i t d c g y
  | DeleteEntry i => delete_entry s i
  | DeleteEntryAndRelationships i => delete_entry_and_relationships s i
  | AddRelationship a b t => (add_relationship s a b t).1
  | DeleteRelationship i => delete_relationship s i
  end.

End Database.

(** ** The undirected copy ([networkx.Graph], [DiGraph.to_undirected]) *)

Record Graph := {
  u_node : list (Z * attrs);
  u_adj : list (Z * list (Z * attrs))
}.

Definition empty_graph : Graph := {| u_node := []; u_adj := [] |}.

(** The block [if n not in self._node: ...]. *)
Definition u_ensure_node (U : Graph) (n : Z) : Graph :=
  if OD.mem n (u_node U) then U
  else {| u_node := OD.set n ∅ (u_node U); u_adj := OD.set n [] (u_adj U) |}.

(** One step of [Graph.add_nodes_from] on a pair [(n, ndict)]. *)
Definition u_add_node (U : Graph) (nd : Z * attrs) : Graph :=
  let U1 := u_ensure_node U nd.1 in
  {| u_node := OD.set nd.1 (nd.2 ∪ default ∅ (OD.get nd.1 (u_node U1))) (u_node U1);
     u_adj := u_adj U1 |}.

(** One step of [Graph.add_edges_from] on a triple [(u, v, dd)]: the same
    data dictionary is stored under [adj[u][v]] and [adj[v][u]]. *)
Definition u_add_edge (U : Graph) (e : Z * Z * attrs) : Graph :=
  let '(u, v, dd) := e in
  let U2 := u_ensure_node (u_ensure_node U u) v in
  let datadict := dd ∪ default ∅ (OD.get u (u_adj U2) ≫= OD.get v) in
  let adj1 := OD.set u (OD.set v datadict (default [] (OD.get u (u_adj U2)))) (u_adj U2) in
  let adj2 := OD.set v (OD.set u datadict (default [] (OD.get v adj1))) adj1 in
  {| u_node := u_node U2; u_adj := adj2 |}.

(** [G.to_undirected()]: the nodes in order, then every directed edge in
    the order of [G.edges]. *)
Definition to_undirected (G : DiGraph) : Graph :=
  let U := fold_left u_add_node (g_node G) empty_graph in
  fold_left u_add_edge (edges G) U.

(** ** Results of code that can raise *)

Inductive exn :=
| NetworkXError (n : Z)   (* "The node n is not in the graph." *)
| KeyError (n : Z).

(** [Unfinished] is the loop bound of the model running out; the theorems
    below show that it never does. *)
Inductive outcome (A : Type) :=
| Done (a : A)
| Raised (e : exn)
| Unfinished.
Arguments Done {A} a.
Arguments Raised {A} e.
Arguments Unfinished {A}.

(** [UG.neighbors(n)] *)
Definition neighbors (U : Graph) (n : Z) : outcome (list Z) :=
  match OD.get n (u_adj U) with
  | Some nbrs => Done (OD.keys nbrs)
  | None => Raised (NetworkXError n)
  end.

(** [UG.degree(n)]: a self-loop counts twice. Only called on nodes of the
    graph; the lookup of a missing node is given 0 here. *)
Definition degree (U : Graph) (n : Z) : Z :=
  match OD.get n (u_adj U) with
  | Some nbrs => Z.of_nat (length nbrs) + (if decide (n ∈ OD.keys nbrs) then 1 else 0)
  | None => 0
  end.

(** [G.successors(n)], [G.predecessors(n)] *)
Definition successors (G : DiGraph) (n : Z) : outcome (list Z) :=
  match OD.get n (g_succ G) with
  | Some nbrs => Done (OD.keys nbrs)
  | None => Raised (NetworkXError n)
  end.

Definition predecessors (G : DiGraph) (n : Z) : outcome (list Z) :=
  match OD.get n (g_pred G) with
  | Some nbrs => Done (OD.keys nbrs)
  | None => Raised (NetworkXError n)
  end.

(** ** [graph_viewer.py]: [compute_tree_layout] *)

(** [layers.setdefault(depth, []).append(node)] *)
Definition layers_append (depth node : Z) (layers : list (Z * list Z)) : list (Z * list Z) :=
  OD.set depth (default [] (OD.get depth layers) ++ [node]) layers.

(** The [for neighbor in UG.neighbors(node)] loop. *)
Definition visit_step (depth : Z) (st : gset Z * list (Z * Z)) (neighbor : Z)
  : gset Z * list (Z * Z) :=
  let '(visited, queue) := st in
  if decide (neighbor ∈ visited) then (visited, queue)
  else ({[neighbor]} ∪ visited, queue ++ [(neighbor, depth + 1)]).

(** The [while queue] loop; [fuel] bounds the number of iterations. *)
Fixpoint bfs_loop (fuel : nat) (U : Graph) (queue : list (Z * Z)) (visited : gset Z)
    (layers : list (Z * list Z)) : outcome (list (Z * list Z) * gset Z) :=
  match queue with
  | [] => Done (layers, visited)
  | (node, depth) :: queue =>
      match fuel with
      | O => Unfinished
      | S fuel =>
          let layers := layers_append depth node layers in
          match neighbors U node with
          | Done nbrs =>
              let '(visited, queue) := fold_left (visit_step depth) nbrs (visited, queue) in
              bfs_loop fuel U queue visited layers
          | Raised e => Raised e
          | Unfinished => Unfinished
          end
      end
  end.

(** [max(layers.keys()) if layers else 0] *)
Definition max_depth_of (layers : list (Z * list Z)) : Z :=
  match OD.keys layers with
  | [] => 0
  | d :: ds => fold_left Z.max ds d
  end.

(** The [for node in self.G.nodes: if node not in visited] loop. *)
Definition unreached_step (visited : gset Z) (st : Z * list (Z * list Z)) (node : Z)
  : Z * list (Z * list Z) :=
  let '(max_depth, layers) := st in
  if decide (node ∈ visited) then (max_depth, layers)
  else (max_depth + 1, layers_append (max_depth + 1) node layers).

(** [l.sort(key=key, reverse=True)]: the sort is stable, also when
    reversed, so the result is that of a stable insertion sort on descending
    keys. *)
Fixpoint insert_desc (key : Z → Z) (x : Z) (l : list Z) : list Z :=
  match l with
  | [] => [x]
  | y :: l' => if decide (key y ≤ key x) then x :: y :: l' else y :: insert_desc key x l'
  end.

Definition sort_desc (key : Z → Z) (l : list Z) : list Z :=
  foldr (insert_desc key) [] l.

Definition vertical_gap : Z := 170.
Definition horizontal_gap : Z := 150.

(** A position [(x, y)]. *)
Abbreviation point := (Q * Q)%type.

(** The body of [for depth, nodes in layers.items()]. *)
Definition place_row (pos : list (Z * point)) (row : Z * list Z) : list (Z * point) :=
  let '(depth, nodes) := row in
  let count := Z.of_nat (length nodes) in
  let total_width := (count - 1) * horizontal_gap in
  let start_x := (inject_Z (- total_width) / 2)%Q in
  fold_left (λ pos '(i, node),
      let x := (start_x + inject_Z (Z.of_nat i * horizontal_gap))%Q in
      let y := inject_Z (depth * vertical_gap) in
      OD.set node (x, y) pos)
    (imap pair nodes) pos.

(** The traversal from the root: the layers and the visited set when the
    queue is empty. Every pass of the loop takes a node off the queue and no
    node is put on the queue twice, so the passes are bounded by the number
    of nodes of [UG]. *)
Definition bfs_layers (G : DiGraph) (root_id : Z) : outcome (list (Z * list Z) * gset Z) :=
  let UG := to_undirected G in
  bfs_loop (S (length (u_adj UG))) UG [(root_id, 0)] {[root_id]} [].

(** The layers with the unreached nodes added: discovery order within a
    layer, before the sort. *)
Definition tree_layers (G : DiGraph) (root_id : Z) : outcome (list (Z * list Z) * gset Z) :=
  match bfs_layers G root_id with
  | Done (layers, visited) =>
      let max_depth := max_depth_of layers in
      Done ((fold_left (unreached_step visited) (nodes G) (max_depth, layers)).2, visited)
  | Raised e => Raised e
  | Unfinished => Unfinished
  end.

Definition compute_tree_layout (G : DiGraph) (root_id : Z) : outcome (list (Z * point)) :=
  let UG := to_undirected G in
  match tree_layers G root_id with
  | Done (layers, _) =>
      let layers := (λ '(depth, nodes), (depth, sort_desc (degree UG) nodes)) <$> layers in
      Done (fold_left place_row layers [])
  | Raised e => Raised e
  | Unfinished => Unfinished
  end.

(** ** Qt geometry: rectangles with rational coordinates *)

Record QRectF := { rx : Q; ry : Q; rw : Q; rh : Q }.

(** [QRectF()] *)
Definition null_rect : QRectF := {| rx := 0; ry := 0; rw := 0; rh := 0 |}.

Definition isNull (r : QRectF) : bool := Qeq_bool (rw r) 0 && Qeq_bool (rh r) 0.

(** [a | b]: a null rectangle is neutral. *)
Definition united (a b : QRectF) : QRectF :=
  if isNull a then b
  else if isNull b then a
  else
    let left := Qmin (rx a) (rx b) in
    let top := Qmin (ry a) (ry b) in
    let right := Qmax (rx a + rw a) (rx b + rw b) in
    let bottom := Qmax (ry a + rh a) (ry b + rh b) in
    {| rx := left; ry := top; rw := right - left; rh := bottom - top |}%Q.

Definition translated (r : QRectF) (p : point) : QRectF :=
  {| rx := rx r + p.1; ry := ry r + p.2; rw := rw r; rh := rh r |}%Q.

Definition adjusted (r : QRectF) (dx1 dy1 dx2 dy2 : Q) : QRectF :=
  {| rx := rx r + dx1; ry := ry r + dy1;
     rw := rw r + dx2 - dx1; rh := rh r + dy2 - dy1 |}%Q.

(** [int(x)] of a float: towards zero. *)
Definition py_int (x : Q) : Z := if Qle_bool 0 x then Qfloor x else Qceiling x.

(** ** [CurvedEdgeItem.update_path]: the geometry of an edge

    From the two centres and the size [lb_w], [lb_h] of the label's
    bounding rectangle: the path (start, control point, end) and the
    position of the label. *)

Definition manhattanLength (p : point) : Q := (Qabs p.1 + Qabs p.2)%Q.

Definition curvature : Q := 40.

Definition chord_mid (p1 p2 : point) : point :=
  (((p1.1 + p2.1) / 2)%Q, ((p1.2 + p2.2) / 2)%Q).

Definition control_point (p1 p2 : point) : point :=
  let mid := chord_mid p1 p2 in
  let vec := ((p2.1 - p1.1)%Q, (p2.2 - p1.2)%Q) in
  let perp := ((- vec.2)%Q, vec.1) in
  let perp :=
    if Qlt_le_dec 0 (manhattanLength perp)
    then ((perp.1 / manhattanLength perp)%Q, (perp.2 / manhattanLength perp)%Q)
    else perp in
  ((mid.1 + perp.1 * curvature)%Q, (mid.2 + perp.2 * curvature)%Q).

(** The point of the curve at parameter [t]. *)
Definition bezier (p1 ctrl p2 : point) (t : Q) : point :=
  (((1 - t) ^ 2 * p1.1 + 2 * (1 - t) * t * ctrl.1 + t ^ 2 * p2.1)%Q,
   ((1 - t) ^ 2 * p1.2 + 2 * (1 - t) * t * ctrl.2 + t ^ 2 * p2.2)%Q).

Record EdgeGeometry := {
  path_start : point;     (* path.moveTo(p1) *)
  path_ctrl : point;      (* path.quadTo(ctrl, p2) *)
  path_end : point;
  label_pos : point       (* label_item.setPos(...) *)
}.

Definition edge_geometry (p1 p2 : point) (lb_w lb_h : Q) : EdgeGeometry :=
  let ctrl := control_point p1 p2 in
  let t := (1 # 2)%Q in
  let m := bezier p1 ctrl p2 t in
  {| path_start := p1; path_ctrl := ctrl; path_end := p2;
     label_pos := ((m.1 - lb_w / 2)%Q, (m.2 - lb_h / 2)%Q) |}.

(** ** [CurvedEdgeItem.update_path] in the doubles of the code

    The same computation on binary64 numbers, operation by operation as
    [QPointF] and Python carry it out: [(p1 + p2) / 2], [p2 - p1],
    [perp /= perp.manhattanLength()], [mid + perp * curvature], and the
    three products and two sums of the label's anchor. *)

Module Double.

Abbreviation fpoint := (float * float)%type.

(** [QPointF.manhattanLength]: [qAbs(x) + qAbs(y)] *)
Definition manhattanLength (p : fpoint) : float := (abs p.1 + abs p.2)%float.

Definition curvature : float := 40%float.

Definition control_point (p1 p2 : fpoint) : fpoint :=
  let mid := (((p1.1 + p2.1) / 2)%float, ((p1.2 + p2.2) / 2)%float) in
  let vec := ((p2.1 - p1.1)%float, (p2.2 - p1.2)%float) in
  let perp := ((- vec.2)%float, vec.1) in
  let perp :=
    if (0 <? manhattanLength perp)%float
    then ((perp.1 / manhattanLength perp)%float, (perp.2 / manhattanLength perp)%float)
    else perp in
  ((mid.1 + perp.1 * curvature)%float, (mid.2 + perp.2 * curvature)%float).

(** [(1 - t) ** 2 * a + 2 * (1 - t) * t * ctrl + t ** 2 * b] with [t = 0.5];
    the square of a double is written as its product with itself. *)
Definition curve_mid (a ctrl b : float) : float :=
  let t := 0.5%float in
  ((1 - t) * (1 - t) * a + 2 * (1 - t) * t * ctrl + t * t * b)%float.

Record EdgeGeometry := {
  path_start : fpoint;
  path_ctrl : fpoint;
  path_end : fpoint;
  label_pos : fpoint
}.

Definition edge_geometry (p1 p2 : fpoint) (lb_w lb_h : float) : EdgeGeometry :=
  let ctrl := control_point p1 p2 in
  let mid_x := curve_mid p1.1 ctrl.1 p2.1 in
  let mid_y := curve_mid p1.2 ctrl.2 p2.2 in
  {| path_start := p1; path_ctrl := ctrl; path_end := p2;
     label_pos := ((mid_x - lb_w / 2)%float, (mid_y - lb_h / 2)%float) |}.

(** The number that a double is, when it is finite. *)
Definition SF2Q (x : spec_float) : option Q :=
  match x with
  | S754_zero _ => Some 0%Q
  | S754_finite s m e =>
      Some ((if s then -1 else 1) * inject_Z (Z.pos m) * Qpower 2 e)%Q
  | S754_infinity _ => None
  | S754_nan => None
  end.

Definition to_Q (x : float) : option Q := SF2Q (Prim2SF x).

Definition num (x : float) : Q := default 0%Q (to_Q x).

Definition nums (p : fpoint) : point := (num p.1, num p.2).

(** The double [x] is finite and is the number [q]. *)
Definition is_q (x : float) (q : Q) : bool :=
  match to_Q x with
  | Some q' => Qeq_bool q' q
  | None => false
  end.

(** The doubles that [update_path] computes one after the other for two
    distinct centres, each with the exact result of the same operation on
    the exact values of its operands. *)
Definition steps (p1 p2 : fpoint) (lb_w lb_h : float) : list (float * Q) :=
  let '(x1, y1) := nums p1 in
  let '(x2, y2) := nums p2 in
  let '(w, h) := (num lb_w, num lb_h) in
  (* the doubles *)
  let sx := (p1.1 + p2.1)%float in
  let sy := (p1.2 + p2.2)%float in
  let mx := (sx / 2)%float in
  let my := (sy / 2)%float in
  let vx := (p2.1 - p1.1)%float in
  let vy := (p2.2 - p1.2)%float in
  let px := (- vy)%float in
  let len := (abs px + abs vx)%float in
  let ux := (px / len)%float in
  let uy := (vx / len)%float in
  let ctrl := control_point p1 p2 in
  let t := 0.5%float in
  let bx1 := ((1 - t) * (1 - t) * p1.1)%float in
  let bx2 := (2 * (1 - t) * t * ctrl.1)%float in
  let bx3 := (t * t * p2.1)%float in
  let by1 := ((1 - t) * (1 - t) * p1.2)%float in
  let by2 := (2 * (1 - t) * t * ctrl.2)%float in
  let by3 := (t * t * p2.2)%float in
  let g := edge_geometry p1 p2 lb_w lb_h in
  (* the exact values *)
  let qmx := ((x1 + x2) / 2)%Q in
  let qmy := ((y1 + y2) / 2)%Q in
  let qvx := (x2 - x1)%Q in
  let qvy := (y2 - y1)%Q in
  let qlen := (Qabs (- qvy) + Qabs qvx)%Q in
  let qux := (- qvy / qlen)%Q in
  let quy := (qvx / qlen)%Q in
  let qcx := (qmx + qux * 40)%Q in
  let qcy := (qmy + quy * 40)%Q in
  let qbx := ((1 # 4) * x1 + (1 # 2) * qcx + (1 # 4) * x2)%Q in
  let qby := ((1 # 4) * y1 + (1 # 2) * qcy + (1 # 4) * y2)%Q in
  [ (p1.1, x1); (p1.2, y1); (p2.1, x2); (p2.2, y2); (lb_w, w); (lb_h, h);
    (sx, (x1 + x2)%Q); (sy, (y1 + y2)%Q); (mx, qmx); (my, qmy);
    (vx, qvx); (vy, qvy); (px, (- qvy)%Q);
    (abs px, Qabs (- qvy)); (abs vx, Qabs qvx); (len, qlen);
    (ux, qux); (uy, quy);
    ((ux * curvature)%float, (qux * 40)%Q); ((uy * curvature)%float, (quy * 40)%Q);
    (ctrl.1, qcx); (ctrl.2, qcy);
    (((1 - t) * (1 - t))%float, 1 # 4); ((2 * (1 - t) * t)%float, 1 # 2);
    ((t * t)%float, 1 # 4);
    (bx1, ((1 # 4) * x1)%Q); (bx2, ((1 # 2) * qcx)%Q); (bx3, ((1 # 4) * x2)%Q);
    ((bx1 + bx2)%float, ((1 # 4) * x1 + (1 # 2) * qcx)%Q);
    (curve_mid p1.1 ctrl.1 p2.1, qbx);
    (by1, ((1 # 4) * y1)%Q); (by2, ((1 # 2) * qcy)%Q); (by3, ((1 # 4) * y2)%Q);
    ((by1 + by2)%float, ((1 # 4) * y1 + (1 # 2) * qcy)%Q);
    (curve_mid p1.2 ctrl.2 p2.2, qby);
    ((lb_w / 2)%float, (w / 2)%Q); ((lb_h / 2)%float, (h / 2)%Q);
    ((label_pos g).1, (qbx - w / 2)%Q); ((label_pos g).2, (qby - h / 2)%Q) ].

(** No operation of [update_path] on these centres and this label size
    rounds, overflows or gives a NaN. *)
Definition no_rounding (p1 p2 : fpoint) (lb_w lb_h : float) : bool :=
  forallb (λ s, is_q s.1 s.2) (steps p1 p2 lb_w lb_h).

(** The two centres are different points. *)
Definition distinct (p1 p2 : fpoint) : bool :=
  negb (Qeq_bool (num p1.1) (num p2.1) && Qeq_bool (num p1.2) (num p2.2)).

End Double.

(** ** [GraphViewer]: the state of the window *)

Inductive layout_kind := Tree | Force.

Record NodeItem := {
  node_id : Z;
  n_pos : point;          (* scenePos(), the centre *)
  radius : Q;
  fill_color : string;
  n_label : string;
  n_opacity : Q
}.

(** The two node items of an edge item are the objects of [node_items]; the
    edge keeps their ids here and reads them through that dictionary. *)
Record CurvedEdgeItem := {
  src_id : Z;
  dst_id : Z;
  label_text : string;
  geometry : EdgeGeometry;
  e_opacity : Q;
  label_opacity : Q
}.

Record Viewer := {
  vG : DiGraph;
  root_id : option Z;
  current_layout : layout_kind;
  positions : list (Z * point);
  node_items : list (Z * NodeItem);
  edge_items : list CurvedEdgeItem;
  view_fit : option QRectF;   (* the rectangle last given to fitInView *)
  rng : nat;                  (* draws made from the random generator *)
  clicked : list Z            (* calls of entry_callback, latest first *)
}.

(** The machine around the window: the files on disk (an exported image
    is kept as its pixel size) and the number of file dialogs shown. *)
Record Desktop := {
  viewer : Viewer;
  files : gmap string (Z * Z);
  dialogs : nat
}.

(** What the libraries supply: the spring layout of networkx for the
    [k]-th draw of the random generator, the bounding rectangle of a text
    in a font ([QFontMetricsF.boundingRect]), and that of a painted curve
    ([QGraphicsPathItem.boundingRect]). *)
Record Toolkit := {
  spring_layout : DiGraph → nat → list (Z * point);
  text_rect : string → QRectF;
  path_rect : EdgeGeometry → QRectF
}.

Section viewer.
Context (tk : Toolkit).

(** [OutlineTextItem.boundingRect] *)
Definition outline_rect (text : string) : QRectF := adjusted (text_rect tk text) (-4) (-4) 4 4.

Definition force_positions (G : DiGraph) (k : nat) : list (Z * point) :=
  let scale := 320%Q in
  (λ '(n, (x, y)), (n, ((x * scale)%Q, (y * scale)%Q))) <$> spring_layout tk G k.

Definition compute_force_layout (v : Viewer) : list (Z * point) * nat :=
  (force_positions (vG v) (rng v), S (rng v)).

(** [self.root_id is not None and self.root_id in self.G.nodes] *)
Definition root_valid (G : DiGraph) (root : option Z) : bool :=
  match root with
  | Some r => OD.mem r (g_node G)
  | None => false
  end.

(** [G.degree(node)] of the directed graph: in-degree plus out-degree. *)
Definition di_degree (G : DiGraph) (n : Z) : Z :=
  Z.of_nat (length (default [] (OD.get n (g_succ G))))
  + Z.of_nat (length (default [] (OD.get n (g_pred G)))).

Definition color_map (category : string) : string :=
  if decide (category = "Character"%string) then "#66AAFF"
  else if decide (category = "Location"%string) then "#88CC66"
  else if decide (category = "Item"%string) then "#FFCC66"
  else if decide (category = "Event"%string) then "#CC66FF"
  else "#AAAAAA".

Definition item_center (items : list (Z * NodeItem)) (n : Z) : point :=
  default (0%Q, 0%Q) (n_pos <$> OD.get n items).

Definition label_size (text : string) : Q * Q :=
  (rw (outline_rect text), rh (outline_rect text)).

(** [edge.update_path()] *)
Definition update_path (items : list (Z * NodeItem)) (e : CurvedEdgeItem) : CurvedEdgeItem :=
  let p1 := item_center items (src_id e) in
  let p2 := item_center items (dst_id e) in
  let lb := label_size (label_text e) in
  {| src_id := src_id e; dst_id := dst_id e; label_text := label_text e;
     geometry := edge_geometry p1 p2 lb.1 lb.2;
     e_opacity := e_opacity e; label_opacity := label_opacity e |}.

Definition update_all_edges (v : Viewer) : Viewer :=
  {| vG := vG v; root_id := root_id v; current_layout := current_layout v;
     positions := positions v; node_items := node_items v;
     edge_items := update_path (node_items v) <$> edge_items v;
     view_fit := view_fit v; rng := rng v; clicked := clicked v |}.

(** The node loop of [draw_graph]. *)
Definition draw_node (G : DiGraph) (pos : list (Z * point))
    (items : list (Z * NodeItem)) (nd : Z * attrs) : list (Z * NodeItem) :=
  let '(node, data) := nd in
  let base_radius := 22%Q in
  let mult := 4%Q in
  let degree := di_degree G node in
  let radius := (base_radius + mult * inject_Z (Z.min degree 8))%Q in
  let label := default (py_str node) (data !! "label"%string) in
  let category := default "default"%string (data !! "category"%string) in
  let center := default (0%Q, 0%Q) (OD.get node pos) in
  OD.set node
    {| node_id := node; n_pos := center; radius := radius;
       fill_color := color_map category; n_label := label; n_opacity := 1 |}
    items.

(** The edge loop of [draw_graph]: one item for the first edge seen between
    two nodes, whatever its direction. *)
Definition draw_edge (items : list (Z * NodeItem))
    (st : gset (Z * Z) * list CurvedEdgeItem) (e : Z * Z * attrs)
  : gset (Z * Z) * list CurvedEdgeItem :=
  let '(seen_pairs, edge_items) := st in
  let '(src, dst, data) := e in
  let key := (Z.min src dst, Z.max src dst) in
  if decide (key ∈ seen_pairs) then st
  else
    let seen_pairs := {[key]} ∪ seen_pairs in
    if negb (OD.mem src items) || negb (OD.mem dst items) then (seen_pairs, edge_items)
    else
      let label := default EmptyString (data !! "label"%string) in
      let edge_item :=
        update_path items
          {| src_id := src; dst_id := dst; label_text := label;
             geometry := edge_geometry (0%Q, 0%Q) (0%Q, 0%Q) 0 0;
             e_opacity := 1; label_opacity := 1 |} in
      (seen_pairs, edge_items ++ [edge_item]).

Definition draw_graph (v : Viewer) : Viewer :=
  let items := fold_left (draw_node (vG v) (positions v)) (g_node (vG v)) [] in
  let edges := (fold_left (draw_edge items) (edges (vG v)) (∅, [])).2 in
  {| vG := vG v; root_id := root_id v; current_layout := current_layout v;
     positions := positions v; node_items := items; edge_items := edges;
     view_fit := view_fit v; rng := rng v; clicked := clicked v |}.

(** The rectangles of the scene's items, in scene coordinates: a node and
    its label, an edge and its label. *)
Definition node_rects (it : NodeItem) : list QRectF :=
  let r := radius it in
  let rect := {| rx := - r; ry := - r; rw := r * 2; rh := r * 2 |}%Q in
  let lb := outline_rect (n_label it) in
  let label := translated lb ((- rw lb / 2)%Q, (- rh lb / 2)%Q) in
  [translated (united rect label) (n_pos it); translated label (n_pos it)].

Definition edge_rects (e : CurvedEdgeItem) : list QRectF :=
  let margin := 12%Q in
  [adjusted (path_rect tk (geometry e)) (- margin) (- margin) margin margin;
   translated (outline_rect (label_text e)) (label_pos (geometry e))].

(** [self.scene.itemsBoundingRect()] *)
Definition itemsBoundingRect (v : Viewer) : QRectF :=
  fold_left united
    (((node_items v).*2 ≫= node_rects) ++ (edge_items v ≫= edge_rects)) null_rect.

Definition fit_to_view (v : Viewer) : Viewer :=
  let rect := itemsBoundingRect v in
  if isNull rect then v
  else {| vG := vG v; root_id := root_id v; current_layout := current_layout v;
          positions := positions v; node_items := node_items v;
          edge_items := edge_items v; view_fit := Some rect;
          rng := rng v; clicked := clicked v |}.

Definition setPos (p : point) (it : NodeItem) : NodeItem :=
  {| node_id := node_id it; n_pos := p; radius := radius it;
     fill_color := fill_color it; n_label := n_label it; n_opacity := n_opacity it |}.

(** [apply_positions]: every [setPos] calls [on_node_moved], which
    recomputes all edges from the centres of that moment; the edges at the
    end are those computed from the final centres. *)
Definition apply_positions (v : Viewer) : Viewer :=
  let items :=
    fold_left (λ items '(node, pos),
        match OD.get node items with
        | Some it => OD.set node (setPos pos it) items
        | None => items
        end)
      (positions v) (node_items v) in
  update_all_edges
    {| vG := vG v; root_id := root_id v; current_layout := current_layout v;
       positions := positions v; node_items := items; edge_items := edge_items v;
       view_fit := view_fit v; rng := rng v; clicked := clicked v |}.

Definition with_layout (v : Viewer) (kind : layout_kind) (pos : list (Z * point)) (r : nat)
  : Viewer :=
  {| vG := vG v; root_id := root_id v; current_layout := kind;
     positions := pos; node_items := node_items v; edge_items := edge_items v;
     view_fit := view_fit v; rng := r; clicked := clicked v |}.

Definition apply_tree_layout (v : Viewer) : outcome Viewer :=
  if root_valid (vG v) (root_id v) then
    match compute_tree_layout (vG v) (default 0 (root_id v)) with
    | Done pos => Done (fit_to_view (apply_positions (with_layout v Tree pos (rng v))))
    | Raised e => Raised e
    | Unfinished => Unfinished
    end
  else Done v.

Definition apply_force_layout (v : Viewer) : Viewer :=
  let '(pos, r) := compute_force_layout v in
  fit_to_view (apply_positions (with_layout v Force pos r)).

(** [GraphViewer.__init__] *)
Definition viewer_init (G : DiGraph) (root : option Z) (seed : nat) : outcome Viewer :=
  let v0 := {| vG := G; root_id := root; current_layout := Force; positions := [];
               node_items := []; edge_items := []; view_fit := None;
               rng := seed; clicked := [] |} in
  let laid :=
    if root_valid G root then
      match compute_tree_layout G (default 0 root) with
      | Done pos => Done (with_layout v0 Tree pos seed)
      | Raised e => Raised e
      | Unfinished => Unfinished
      end
    else
      let '(pos, r) := compute_force_layout v0 in
      Done (with_layout v0 Force pos r) in
  match laid with
  | Done v => Done (fit_to_view (draw_graph v))
  | Raised e => Raised e
  | Unfinished => Unfinished
  end.

Definition setOpacity (o : Q) (it : NodeItem) : NodeItem :=
  {| node_id := node_id it; n_pos := n_pos it; radius := radius it;
     fill_color := fill_color it; n_label := n_label it; n_opacity := o |}.

Definition highlight_edge (neighbors : gset Z) (e : CurvedEdgeItem) : CurvedEdgeItem :=
  let highlight := bool_decide (src_id e ∈ neighbors) && bool_decide (dst_id e ∈ neighbors) in
  {| src_id := src_id e; dst_id := dst_id e; label_text := label_text e;
     geometry := geometry e;
     e_opacity := if highlight then 1 else 0.2%Q;
     label_opacity := if highlight then 1 else 0.2%Q |}.

Definition highlight_neighbors (v : Viewer) (n : Z) : outcome Viewer :=
  match successors (vG v) n with
  | Done succ =>
      match predecessors (vG v) n with
      | Done pred =>
          let neighbors : gset Z := {[n]} ∪ (list_to_set succ ∪ list_to_set pred) in
          Done
            {| vG := vG v; root_id := root_id v; current_layout := current_layout v;
               positions := positions v;
               node_items :=
                 (λ '(m, it),
                    (m, setOpacity (if decide (m ∈ neighbors) then 1 else 0.25%Q) it))
                 <$> node_items v;
               edge_items := highlight_edge neighbors <$> edge_items v;
               view_fit := view_fit v; rng := rng v; clicked := clicked v |}
      | Raised e => Raised e
      | Unfinished => Unfinished
      end
  | Raised e => Raised e
  | Unfinished => Unfinished
  end.

Definition on_node_clicked (v : Viewer) (n : Z) : outcome Viewer :=
  match highlight_neighbors v n with
  | Done v' =>
      Done {| vG := vG v'; root_id := root_id v'; current_layout := current_layout v';
              positions := positions v'; node_items := node_items v';
              edge_items := edge_items v'; view_fit := view_fit v';
              rng := rng v'; clicked := n :: clicked v' |}
  | Raised e => Raised e
  | Unfinished => Unfinished
  end.

(** A drag of node [n] to [p]: [setPos], then [on_node_moved]. *)
Definition drag_node (v : Viewer) (n : Z) (p : point) : Viewer :=
  match OD.get n (node_items v) with
  | Some it =>
      update_all_edges
        {| vG := vG v; root_id := root_id v; current_layout := current_layout v;
           positions := positions v; node_items := OD.set n (setPos p it) (node_items v);
           edge_items := edge_items v; view_fit := view_fit v;
           rng := rng v; clicked := clicked v |}
  | None => v
  end.

(** [export_png]; [file_name] is what the file dialog returns, the empty
    string when it is cancelled. *)
Definition export_png (d : Desktop) (file_name : string) : Desktop :=
  let rect := itemsBoundingRect (viewer d) in
  if isNull rect then d
  else
    let shown := S (dialogs d) in
    if decide (file_name = EmptyString)
    then {| viewer := viewer d; files := files d; dialogs := shown |}
    else
      let img := (py_int (rw rect) * 2, py_int (rh rect) * 2) in
      {| viewer := viewer d; files := <[file_name := img]> (files d); dialogs := shown |}.

(** What the user can do with the window. A click or a drag reaches the
    window through a node item, so it names a node that has one. *)
Inductive action :=
| TreeButton
| ForceButton
| FitButton
| ExportButton (file_name : string)
| Click (n : Z)
| Drag (n : Z) (p : point).

Definition on_viewer (d : Desktop) (r : outcome Viewer) : outcome Desktop :=
  match r with
  | Done v => Done {| viewer := v; files := files d; dialogs := dialogs d |}
  | Raised e => Raised e
  | Unfinished => Unfinished
  end.

Definition step (d : Desktop) (a : action) : outcome Desktop :=
  match a with
  | TreeButton => on_viewer d (apply_tree_layout (viewer d))
  | ForceButton => on_viewer d (Done (apply_force_layout (viewer d)))
  | FitButton => on_viewer d (Done (fit_to_view (viewer d)))
  | ExportButton file_name => Done (export_png d file_name)
  | Click n =>
      if OD.mem n (node_items (viewer d)) then on_viewer d (on_node_clicked (viewer d) n)
      else Done d
  | Drag n p => on_viewer d (Done (drag_node (viewer d) n p))
  end.

Fixpoint run (d : Desktop) (acts : list action) : outcome Desktop :=
  match acts with
  | [] => Done d
  | a :: acts =>
      match step d a with
      | Done d' => run d' acts
      | Raised e => Raised e
      | Unfinished => Unfinished
      end
  end.

End viewer.

(** ** Concrete graphs and windows used as examples *)

(** A toolkit to run the window on: every node at the origin in the spring
    layout, eight units of width per character of a text, the box of the
    three points of a curve. *)
Definition plain_toolkit : Toolkit :=
  {| spring_layout := λ G _, (λ n, (n, (0%Q, 0%Q))) <$> nodes G;
     text_rect := λ s,
       {| rx := 0; ry := -10; rw := inject_Z (8 * Z.of_nat (String.length s)); rh := 12 |};
     path_rect := λ g,
       let xs := [(path_start g).1; (path_ctrl g).1; (path_end g).1] in
       let ys := [(path_start g).2; (path_ctrl g).2; (path_end g).2] in
       let l := foldr Qmin (path_start g).1 xs in
       let t := foldr Qmin (path_start g).2 ys in
       {| rx := l; ry := t;
          rw := foldr Qmax (path_start g).1 xs - l;
          rh := foldr Qmax (path_start g).2 ys - t |}%Q |}.

(** A window before its items are drawn. *)
Definition blank_viewer (G : DiGraph) (root : option Z) : Viewer :=
  {| vG := G; root_id := root; current_layout := Force; positions := [];
     node_items := []; edge_items := []; view_fit := None; rng := 0; clicked := [] |}.

(** R is an ally of A; B and C have no relationship. *)
Definition layout_example : DiGraph :=
  build_graph [mkE 10 "R" "Character"; mkE 11 "A" "Character";
               mkE 12 "B" "Item"; mkE 13 "C" "Item"]
              [mkR 1 10 11 "Ally"].

(** A is an ally of B, C an enemy of A and a friend of D. *)
Definition highlight_example : Viewer :=
  draw_graph plain_toolkit
    (blank_viewer
       (build_graph [mkE 1 "A" "Character"; mkE 2 "B" "Character";
                     mkE 3 "C" "Character"; mkE 4 "D" "Character"]
                    [mkR 1 1 2 "Ally"; mkR 2 3 1 "Enemy"; mkR 3 3 4 "Friend"])
       (Some 1)).

(** ** [relationship_ui.py]: the relationship editor *)

(** [f"{x}"] for a text column: [None] is written out as the word. *)
Definition py_format (x : option string) : string := default "None"%string x.

Module RelationshipEditorDialog.

(** The dialog with the store it was given. A combo box row and a list
    row are a text with the data kept under [Qt.UserRole]. *)
Record Dialog := {
  db : Database.Store;
  current_entry_id : Z;
  window_title : string;
  other_entry_combo : list (string * Z);
  rel_list : list (string * Z);
  rel_type_field : string;
  map_window : option Viewer
}.

(** [entry["title"] if entry else f"ID {entry_id}"] *)
Definition title_of (s : Database.Store) (entry_id : Z) : option string :=
  match Database.get_entry s entry_id with
  | Some entry => e_title entry
  | None => Some ("ID " +:+ py_str entry_id)
  end.

Definition populate_other_entries (dlg : Dialog) : Dialog :=
  let entries := Database.get_all_entries (db dlg) in
  let items :=
    (λ e, (py_format (e_title e) +:+ " (ID " +:+ py_str (e_id e) +:+ ")", e_id e))
      <$> filter (λ e, e_id e ≠ current_entry_id dlg) entries in
  {| db := db dlg; current_entry_id := current_entry_id dlg;
     window_title := window_title dlg; other_entry_combo := items;
     rel_list := rel_list dlg; rel_type_field := rel_type_field dlg;
     map_window := map_window dlg |}.

(** The list row of relationship [r]. *)
Definition rel_item (s : Database.Store) (current : Z) (r : RelRow) : string * Z :=
  let a_id := r_entry_a r in
  let b_id := r_entry_b r in
  let rel_type := py_or (r_type r) "relationship" in
  let a_name := title_of s a_id in
  let b_name := title_of s b_id in
  let '(left_, right_) :=
    if decide (current = a_id) then (a_name, b_name) else (b_name, a_name) in
  (py_format left_ +:+ " --[" +:+ rel_type +:+ "]--> " +:+ py_format right_, r_id r).

Definition load_relationships (dlg : Dialog) : Dialog :=
  let rels := Database.get_relationships_for_entry (db dlg) (current_entry_id dlg) in
  {| db := db dlg; current_entry_id := current_entry_id dlg;
     window_title := window_title dlg; other_entry_combo := other_entry_combo dlg;
     rel_list := rel_item (db dlg) (current_entry_id dlg) <$> rels;
     rel_type_field := rel_type_field dlg; map_window := map_window dlg |}.

(** [RelationshipEditorDialog.__init__] *)
Definition init (s : Database.Store) (current_entry_id : Z) : Dialog :=
  let title := py_format (title_of s current_entry_id) in
  load_relationships
    (populate_other_entries
       {| db := s; current_entry_id := current_entry_id;
          window_title := "Relationships for: " +:+ title;
          other_entry_combo := []; rel_list := []; rel_type_field := EmptyString;
          map_window := None |}).

Section handlers.
(** The libraries of the map window, and what [str.strip] makes of a text. *)
Context (tk : Toolkit) (strip : string → string).

(** [choice] is the row of the combo box that is current when the button
    is pressed; [currentData()] is [None] when there is no such row. *)
Definition add_relationship (dlg : Dialog) (choice : nat) : Dialog :=
  match snd <$> other_entry_combo dlg !! choice with
  | None => dlg
  | Some other_id =>
      let rel_type := strip (rel_type_field dlg) in
      let rel_type :=
        if decide (rel_type = EmptyString) then "relationship"%string else rel_type in
      let s := (Database.add_relationship (db dlg) (current_entry_id dlg) other_id rel_type).1 in
      let dlg :=
        load_relationships
          {| db := s; current_entry_id := current_entry_id dlg;
             window_title := window_title dlg; other_entry_combo := other_entry_combo dlg;
             rel_list := rel_list dlg; rel_type_field := rel_type_field dlg;
             map_window := map_window dlg |} in
      {| db := db dlg; current_entry_id := current_entry_id dlg;
         window_title := window_title dlg; other_entry_combo := other_entry_combo dlg;
         rel_list := rel_list dlg; rel_type_field := EmptyString;
         map_window := map_window dlg |}
  end.

(** [row] is the current row of the list, if any. *)
Definition delete_selected_relationship (dlg : Dialog) (row : option nat) : Dialog :=
  match row ≫= (rel_list dlg !!.) with
  | None => dlg
  | Some item =>
      let rel_id := item.2 in
      load_relationships
        {| db := Database.delete_relationship (db dlg) rel_id;
           current_entry_id := current_entry_id dlg;
           window_title := window_title dlg; other_entry_combo := other_entry_combo dlg;
           rel_list := rel_list dlg; rel_type_field := rel_type_field dlg;
           map_window := map_window dlg |}
  end.

(** [seed] is the number of draws made from the random generator so far. *)
Definition open_map (dlg : Dialog) (seed : nat) : outcome Dialog :=
  let entries := Database.get_all_entries (db dlg) in
  let relationships := Database.get_all_relationships (db dlg) in
  let G := build_graph entries relationships in
  match viewer_init tk G (Some (current_entry_id dlg)) seed with
  | Done w =>
      Done {| db := db dlg; current_entry_id := current_entry_id dlg;
              window_title := window_title dlg; other_entry_combo := other_entry_combo dlg;
              rel_list := rel_list dlg; rel_type_field := rel_type_field dlg;
              map_window := Some w |}
  | Raised e => Raised e
  | Unfinished => Unfinished
  end.

(** What the user can do with the dialog: type a relationship type, and
    press one of the three buttons. *)
Inductive event :=
| TypeText (text : string)
| AddButton (choice : nat)
| DeleteButton (row : option nat)
| MapButton (seed : nat).

Definition on_event (dlg : Dialog) (ev : event) : outcome Dialog :=
  match ev with
  | TypeText text =>
      Done {| db := db dlg; current_entry_id := current_entry_id dlg;
              window_title := window_title dlg; other_entry_combo := other_entry_combo dlg;
              rel_list := rel_list dlg; rel_type_field := text;
              map_window := map_window dlg |}
  | AddButton choice => Done (add_relationship dlg choice)
  | DeleteButton row => Done (delete_selected_relationship dlg row)
  | MapButton seed => open_map dlg seed
  end.

Fixpoint on_events (dlg : Dialog) (evs : list event) : outcome Dialog :=
  match evs with
  | [] => Done dlg
  | ev :: evs =>
      match on_event dlg ev with
      | Done dlg' => on_events dlg' evs
      | Raised e => Raised e
      | Unfinished => Unfinished
      end
  end.

End handlers.

End RelationshipEditorDialog.

(** ** [search.py] *)

Module Search.

(** The text under which an entry is searched; the rows are
    [sqlite3.Row]s, so the first branch of the loop is the one taken. *)
Definition combined (e : EntryRow) : string :=
  let title := py_or (e_title e) EmptyString in
  let description := py_or (e_description e) EmptyString in
  let category := py_or (e_category e) EmptyString in
  let tags := py_or (e_tags e) EmptyString in
  let synonyms := py_or (e_synonyms e) EmptyString in
  title +:+ " " +:+ description +:+ " " +:+ category +:+ " " +:+ tags +:+ " " +:+ synonyms.

Definition prepare_search_data (entries : list EntryRow) : list (Z * string) :=
  fold_left (λ search_dict e, OD.set (e_id e) (combined e) search_dict) entries [].

Section fuzzy.
(** What [str.strip] makes of a text, and what [rapidfuzz.process.extract]
    with the [token_sort_ratio] scorer returns for a query, a dictionary of
    choices and a limit: tuples of a choice, its score and its key. *)
Context (strip : string → string)
        (extract : string → list (Z * string) → nat → list (string * Q * Z)).

Definition fuzzy_search (query : string) (entries : list EntryRow) (limit : nat)
  : list (Z * Z) :=
  if decide (strip query = EmptyString) then []
  else
    let search_dict := prepare_search_data entries in
    let results := extract query search_dict limit in
    (λ m, (m.2, py_int m.1.2)) <$> results.

End fuzzy.

End Search.

(** ** [main.py]: the main window *)

(** What stops a handler of the main window: the [TypeError] of
    subscripting [None] or of giving Qt a value it does not take, an
    exception out of the map window, or the loop bound of the map window's
    model running out. *)
Inductive error :=
| TypeError
| MapError (e : exn)
| Unbounded.

Inductive result (A : Type) :=
| Ok (a : A)
| Error (e : error).
Arguments Ok {A} a.
Arguments Error {A} e.

#[global] Instance result_ret : MRet result := λ A, Ok.
#[global] Instance result_bind : MBind result :=
  λ A B f x, match x with Ok a => f a | Error e => Error e end.

Module MainWindow.

(** The window with the store it opened. A list row is a text with the
    entry id kept under [Qt.UserRole]. The editor, when one is open, works
    on the store of the window: its [db] is read from and written back to
    the window's. *)
Record Window := {
  db : Database.Store;
  loading_entry : bool;
  current_entry_id : option Z;
  search_bar : string;
  entry_list : list (string * Z);
  title_field : string;
  description_field : string;
  category_field : string;
  tags_field : string;
  synonyms_field : string;
  rel_dialog : option RelationshipEditorDialog.Dialog;
  closed : bool
}.

Definition set_db (w : Window) (s : Database.Store) : Window :=
  {| db := s; loading_entry := loading_entry w; current_entry_id := current_entry_id w;
     search_bar := search_bar w; entry_list := entry_list w;
     title_field := title_field w; description_field := description_field w;
     category_field := category_field w; tags_field := tags_field w;
     synonyms_field := synonyms_field w; rel_dialog := rel_dialog w; closed := closed w |}.

Definition set_loading_entry (w : Window) (b : bool) : Window :=
  {| db := db w; loading_entry := b; current_entry_id := current_entry_id w;
     search_bar := search_bar w; entry_list := entry_list w;
     title_field := title_field w; description_field := description_field w;
     category_field := category_field w; tags_field := tags_field w;
     synonyms_field := synonyms_field w; rel_dialog := rel_dialog w; closed := closed w |}.

Definition set_current_entry_id (w : Window) (i : option Z) : Window :=
  {| db := db w; loading_entry := loading_entry w; current_entry_id := i;
     search_bar := search_bar w; entry_list := entry_list w;
     title_field := title_field w; description_field := description_field w;
     category_field := category_field w; tags_field := tags_field w;
     synonyms_field := synonyms_field w; rel_dialog := rel_dialog w; closed := closed w |}.

Definition set_entry_list (w : Window) (items : list (string * Z)) : Window :=
  {| db := db w; loading_entry := loading_entry w; current_entry_id := current_entry_id w;
     search_bar := search_bar w; entry_list := items;
     title_field := title_field w; description_field := description_field w;
     category_field := category_field w; tags_field := tags_field w;
     synonyms_field := synonyms_field w; rel_dialog := rel_dialog w; closed := closed w |}.

Definition set_fields (w : Window) (title description category tags synonyms : string)
  : Window :=
  {| db := db w; loading_entry := loading_entry w; current_entry_id := current_entry_id w;
     search_bar := search_bar w; entry_list := entry_list w;
     title_field := title; description_field := description;
     category_field := category; tags_field := tags;
     synonyms_field := synonyms; rel_dialog := rel_dialog w; closed := closed w |}.

Definition clear_entry_fields (w : Window) : Window :=
  set_fields w EmptyString EmptyString EmptyString EmptyString EmptyString.

Definition autosave_current_entry (w : Window) : Window :=
  if loading_entry w then w
  else
    match current_entry_id w with
    | None => w
    | Some entry_id =>
        let title := title_field w in
        let description := description_field w in
        let category := category_field w in
        let tags := tags_field w in
        let synonyms := synonyms_field w in
        if decide (title = EmptyString ∧ description = EmptyString ∧ category = EmptyString
                   ∧ tags = EmptyString ∧ synonyms = EmptyString)
        then w
        else set_db w (Database.update_entry (db w) entry_id
                         title description category tags synonyms)
    end.

Section handlers.
(** What Qt makes of [None] where it expects a text, for a list item and
    for an entry field: a text, or nothing when the call raises; what
    [str.strip] makes of a text; what [rapidfuzz.process.extract] returns;
    and the libraries of the map window. *)
Context (item_of_none field_of_none : option string)
        (strip : string → string)
        (extract : string → list (Z * string) → nat → list (string * Q * Z))
        (tk : Toolkit).

Definition qt_text (of_none : option string) (x : option string) : result string :=
  match x with
  | Some s => Ok s
  | None => match of_none with Some s => Ok s | None => Error TypeError end
  end.

Fixpoint list_items (entries : list EntryRow) : result (list (string * Z)) :=
  match entries with
  | [] => Ok []
  | e :: entries =>
      text ← qt_text item_of_none (e_title e);
      items ← list_items entries;
      Ok ((text, e_id e) :: items)
  end.

Definition load_all_entries (w : Window) : result Window :=
  let entries := Database.get_all_entries (db w) in
  items ← list_items entries;
  Ok (set_entry_list w items).

(** The five [setText] calls on the row [data]. *)
Definition show_entry (w : Window) (data : option EntryRow) : result Window :=
  match data with
  | None => Error TypeError
  | Some data =>
      title ← qt_text field_of_none (e_title data);
      description ← qt_text field_of_none (e_description data);
      category ← qt_text field_of_none (e_category data);
      tags ← qt_text field_of_none (e_tags data);
      synonyms ← qt_text field_of_none (e_synonyms data);
      Ok (set_fields w title description category tags synonyms)
  end.

Definition load_entry_details (w : Window) (item : string * Z) : result Window :=
  let w := set_loading_entry w true in
  let w := autosave_current_entry w in
  let entry_id := item.2 in
  let w := set_current_entry_id w (Some entry_id) in
  let data := Database.get_entry (db w) entry_id in
  w ← show_entry w data;
  Ok (set_loading_entry w false).

Definition select_entry_by_id (w : Window) (entry_id : Z) : result Window :=
  let w := set_loading_entry w true in
  let w := autosave_current_entry w in
  let w := set_current_entry_id w (Some entry_id) in
  w ← match list_find (λ item, item.2 = entry_id) (entry_list w) with
      | Some _ => show_entry w (Database.get_entry (db w) entry_id)
      | None => Ok w
      end;
  Ok (set_loading_entry w false).

Definition create_entry (w : Window) : result Window :=
  let w := autosave_current_entry w in
  let '(s, new_id) :=
    Database.add_entry (db w) "New Entry" EmptyString EmptyString EmptyString EmptyString in
  w ← load_all_entries (set_db w s);
  match list_find (λ item, item.2 = new_id) (entry_list w) with
  | Some (_, item) => load_entry_details w item
  | None => Ok w
  end.

Definition save_entry (w : Window) : result Window :=
  match current_entry_id w with
  | None => Ok w
  | Some entry_id =>
      load_all_entries
        (set_db w (Database.update_entry (db w) entry_id (title_field w)
                     (description_field w) (category_field w) (tags_field w)
                     (synonyms_field w)))
  end.

Definition delete_entry (w : Window) : result Window :=
  match current_entry_id w with
  | None => Ok w
  | Some entry_id =>
      let w := set_db w (Database.delete_entry_and_relationships (db w) entry_id) in
      let w := set_current_entry_id w None in
      let w := clear_entry_fields w in
      load_all_entries w
  end.

Definition run_search (w : Window) : result Window :=
  let query := strip (search_bar w) in
  if decide (query = EmptyString) then load_all_entries w
  else
    let entries := Database.get_all_entries (db w) in
    let results := Search.fuzzy_search strip extract query entries 20 in
    let items :=
      omap (λ '(entry_id, score),
              match Database.get_entry (db w) entry_id with
              | Some entry =>
                  Some (py_format (e_title entry) +:+ "  (" +:+ py_str score +:+ "%)",
                        entry_id)
              | None => None
              end) results in
    Ok (set_entry_list w items).

Definition open_relationship_editor (w : Window) : Window :=
  match current_entry_id w with
  | None => w
  | Some entry_id =>
      let w := autosave_current_entry w in
      {| db := db w; loading_entry := loading_entry w;
         current_entry_id := current_entry_id w;
         search_bar := search_bar w; entry_list := entry_list w;
         title_field := title_field w; description_field := description_field w;
         category_field := category_field w; tags_field := tags_field w;
         synonyms_field := synonyms_field w;
         rel_dialog := Some (RelationshipEditorDialog.init (db w) entry_id);
         closed := closed w |}
  end.

Definition closeEvent (w : Window) : Window :=
  let w := autosave_current_entry w in
  {| db := db w; loading_entry := loading_entry w;
     current_entry_id := current_entry_id w;
     search_bar := search_bar w; entry_list := entry_list w;
     title_field := title_field w; description_field := description_field w;
     category_field := category_field w; tags_field := tags_field w;
     synonyms_field := synonyms_field w; rel_dialog := rel_dialog w; closed := true |}.

(** [MainWindow.__init__] on the store that [Database()] opens. *)
Definition init (s : Database.Store) : result Window :=
  load_all_entries
    {| db := s; loading_entry := false; current_entry_id := None;
       search_bar := EmptyString; entry_list := [];
       title_field := EmptyString; description_field := EmptyString;
       category_field := EmptyString; tags_field := EmptyString;
       synonyms_field := EmptyString; rel_dialog := None; closed := false |}.

(** An event of the open editor, which works on the store of the window. *)
Definition in_editor (w : Window) (ev : RelationshipEditorDialog.event) : result Window :=
  match rel_dialog w with
  | None => Ok w
  | Some dlg =>
      let dlg :=
        {| RelationshipEditorDialog.db := db w;
           RelationshipEditorDialog.current_entry_id :=
             RelationshipEditorDialog.current_entry_id dlg;
           RelationshipEditorDialog.window_title := RelationshipEditorDialog.window_title dlg;
           RelationshipEditorDialog.other_entry_combo :=
             RelationshipEditorDialog.other_entry_combo dlg;
           RelationshipEditorDialog.rel_list := RelationshipEditorDialog.rel_list dlg;
           RelationshipEditorDialog.rel_type_field := RelationshipEditorDialog.rel_type_field dlg;
           RelationshipEditorDialog.map_window := RelationshipEditorDialog.map_window dlg |} in
      match RelationshipEditorDialog.on_event tk strip dlg ev with
      | Done dlg' =>
          Ok {| db := RelationshipEditorDialog.db dlg'; loading_entry := loading_entry w;
                current_entry_id := current_entry_id w;
                search_bar := search_bar w; entry_list := entry_list w;
                title_field := title_field w; description_field := description_field w;
                category_field := category_field w; tags_field := tags_field w;
                synonyms_field := synonyms_field w;
                rel_dialog := Some dlg'; closed := closed w |}
      | Raised e => Error (MapError e)
      | Unfinished => Error Unbounded
      end
  end.

(** What the user can do with the window: type into the entry fields or
    into the search bar, click a row of the list, press a button, use the
    open editor, or click a node in a map window, which calls
    [select_entry_by_id]. *)
Inductive event :=
| EditFields (title description category tags synonyms : string)
| SearchText (text : string)
| ItemClicked (row : nat)
| NewButton
| DeleteButton
| SaveButton
| RelationshipsButton
| EditorEvent (ev : RelationshipEditorDialog.event)
| MapNodeClicked (entry_id : Z).

Definition on_event (w : Window) (ev : event) : result Window :=
  match ev with
  | EditFields title description category tags synonyms =>
      Ok (set_fields w title description category tags synonyms)
  | SearchText text =>
      run_search
        {| db := db w; loading_entry := loading_entry w;
           current_entry_id := current_entry_id w;
           search_bar := text; entry_list := entry_list w;
           title_field := title_field w; description_field := description_field w;
           category_field := category_field w; tags_field := tags_field w;
           synonyms_field := synonyms_field w; rel_dialog := rel_dialog w;
           closed := closed w |}
  | ItemClicked row =>
      match entry_list w !! row with
      | Some item => load_entry_details w item
      | None => Ok w
      end
  | NewButton => create_entry w
  | DeleteButton => delete_entry w
  | SaveButton => save_entry w
  | RelationshipsButton => Ok (open_relationship_editor w)
  | EditorEvent ev => in_editor w ev
  | MapNodeClicked entry_id => select_entry_by_id w entry_id
  end.

Fixpoint on_events (w : Window) (evs : list event) : result Window :=
  match evs with
  | [] => Ok w
  | ev :: evs => w' ← on_event w ev; on_events w' evs
  end.

End handlers.

End MainWindow.

(** * Specification vocabulary *)

(** The representation invariant of a [DiGraph], what every object built
    through [add_node] and [add_edge] satisfies: the three dictionaries have
    the same keys in the same order, a dictionary has no key twice, and
    every successor is a node. *)
Record digraph_wf (G : DiGraph) : Prop := {
  wf_nodup : NoDup (nodes G);
  wf_succ_keys : OD.keys (g_succ G) = nodes G;
  wf_pred_keys : OD.keys (g_pred G) = nodes G;
  wf_succ_inner : ∀ u nbrs, (u, nbrs) ∈ g_succ G →
      NoDup (OD.keys nbrs) ∧ ∀ v, v ∈ OD.keys nbrs → v ∈ nodes G
}.

(** Row [r] joins [u] to [v] and both are among the nodes [N]. *)
Definition rel_hits (N : list Z) (r : RelRow) (u v : Z) : Prop :=
  r_entry_a r = u ∧ r_entry_b r = v ∧ u ∈ N ∧ v ∈ N.

(** A text column that is NULL or the empty string. *)
Definition blank (x : option string) : Prop := x = None ∨ x = Some EmptyString.

(** The neighbours recorded for [x], none when [x] is not a key. *)
Definition nbr_keys (adj : list (Z * list (Z * attrs))) (x : Z) : list Z :=
  OD.keys (default [] (OD.get x adj)).

(** [u] and [v] are joined by an edge of [G], in either direction. *)
Definition adjacent (G : DiGraph) (u v : Z) : Prop :=
  ∃ d, (u, v, d) ∈ edges G ∨ (v, u, d) ∈ edges G.

(** Connected when edges are read as undirected. *)
Definition connected (G : DiGraph) : relation Z := rtc (adjacent G).

(** [_adj] and [_node] of an undirected graph have the same keys. *)
Definition u_keys_agree (U : Graph) : Prop := OD.keys (u_adj U) = OD.keys (u_node U).

(** All nodes of a layer dictionary, layer by layer. *)
Definition layer_nodes (layers : list (Z * list Z)) : list Z := layers ≫= snd.

(** [y] is recorded as a neighbour of [x] in the undirected copy. *)
Definition nbr (U : Graph) (x y : Z) : Prop := y ∈ nbr_keys (u_adj U) x.

(** The nodes of the undirected copy not visited yet: what bounds the loop. *)
Definition unvisited (U : Graph) (visited : gset Z) : list Z :=
  filter (λ k, k ∉ visited) (OD.keys (u_adj U)).

(** The invariant of the loop: the visited nodes are those in the layers or
    in the queue, each once; the neighbours of a node in the layers are
    visited; every visited node is connected to the root. *)
Record bfs_inv (U : Graph) (root : Z) (queue : list (Z * Z)) (visited : gset Z)
    (layers : list (Z * list Z)) : Prop := {
  inv_visited : ∀ n, n ∈ visited ↔ n ∈ layer_nodes layers ∨ n ∈ queue.*1;
  inv_nodup : NoDup (layer_nodes layers ++ queue.*1);
  inv_done : ∀ n y, n ∈ layer_nodes layers → nbr U n y → y ∈ visited;
  inv_reach : ∀ n, n ∈ visited → rtc (nbr U) root n;
  inv_root : root ∈ visited
}.

(** Descending order of keys. *)
Definition desc (key : Z → Z) (a b : Z) : Prop := key b ≤ key a.

(** The position of the [i]-th node of a row of [count] nodes at [depth]. *)
Definition row_point (count : nat) (depth : Z) (i : nat) : point :=
  ((inject_Z (- ((Z.of_nat count - 1) * horizontal_gap)) / 2
    + inject_Z (Z.of_nat i * horizontal_gap))%Q,
   inject_Z (depth * vertical_gap)).

(** The assignments [pos[node] = (x, y)] made for one row, in order. *)
Definition row_points (row : Z * list Z) : list (Z * point) :=
  imap (λ i n, (n, row_point (length row.2) row.1 i)) row.2.

(** [pos[node] = (x, y)] *)
Definition set_point (pos : list (Z * point)) (np : Z * point) : list (Z * point) :=
  OD.set np.1 np.2 pos.

(** The nodes of the graph that the traversal did not reach, in the order
    of [G.nodes]. *)
Definition unreached (G : DiGraph) (visited : gset Z) : list Z :=
  filter (λ n, n ∉ visited) (nodes G).

(** The layers given to the unreached nodes: one each, counting up from
    the largest depth of the traversal. *)
Definition unreached_layers (max_depth : Z) (us : list Z) : list (Z * list Z) :=
  imap (λ j u, (max_depth + 1 + Z.of_nat j, [u])) us.


(** What holds of a window opened without a valid root. *)
Record force_inv (tk : Toolkit) (G : DiGraph) (root : option Z) (v : Viewer) : Prop := {
  fi_graph : vG v = G;
  fi_root : root_id v = root;
  fi_layout : current_layout v = Force;
  fi_positions : ∃ k, positions v = force_positions tk G k;
  fi_items : ∀ n, n ∈ OD.keys (node_items v) → n ∈ nodes G
}.

(** What holds of the desktop [d] reached from [d0] with a window on a graph
    without nodes. *)
Record empty_inv (G : DiGraph) (root : option Z) (d0 d : Desktop) : Prop := {
  ei_graph : vG (viewer d) = G;
  ei_root : root_id (viewer d) = root;
  ei_nodes : node_items (viewer d) = [];
  ei_edges : edge_items (viewer d) = [];
  ei_view : view_fit (viewer d) = view_fit (viewer d0);
  ei_files : files d = files d0;
  ei_dialogs : dialogs d = dialogs d0
}.

(** What SQLite keeps of the two tables: the ids of a table are distinct
    and positive, and below the table's AUTOINCREMENT counter. *)
Record store_ok (s : Database.Store) : Prop := {
  ok_entry_ids : NoDup (e_id <$> Database.entries s);
  ok_entry_below : ∀ e, e ∈ Database.entries s → 0 < e_id e < Database.next_entry_id s;
  ok_entry_next : 0 < Database.next_entry_id s;
  ok_rel_ids : NoDup (r_id <$> Database.relationships s);
  ok_rel_below : ∀ r, r ∈ Database.relationships s → 0 < r_id r < Database.next_rel_id s;
  ok_rel_next : 0 < Database.next_rel_id s
}.

(** An integer that SQLite stores: 64 bits, signed. *)
Definition int64 (n : Z) : Prop := - 2 ^ 63 ≤ n < 2 ^ 63.

(** The row that [add_entry] and [update_entry] write. *)
Definition entry_row (i : Z) (title description category tags synonyms : string) : EntryRow :=
  {| e_id := i; e_title := Some title; e_description := Some description;
     e_category := Some category; e_tags := Some tags; e_synonyms := Some synonyms |}.


(** The unordered pair of the ends of an edge item, the key under which
    [draw_graph] remembers it. *)
Definition pair_key (e : CurvedEdgeItem) : Z * Z :=
  (Z.min (src_id e) (dst_id e), Z.max (src_id e) (dst_id e)).

(** The curve and the label of edge item [e] are where the centres that
    its two node items have in [items] put them. *)
Definition in_sync (tk : Toolkit) (items : list (Z * NodeItem)) (e : CurvedEdgeItem) : Prop :=
  geometry e
  = edge_geometry (item_center items (src_id e)) (item_center items (dst_id e))
      (label_size tk (label_text e)).1 (label_size tk (label_text e)).2.

(** What a node item is drawn with, apart from its place and its opacity,
    and what an edge item joins. *)
Definition node_look (it : NodeItem) : Z * Q * string * string :=
  (node_id it, radius it, fill_color it, n_label it).

Definition node_looks (items : list (Z * NodeItem)) : list (Z * (Z * Q * string * string)) :=
  prod_map id node_look <$> items.

Definition edge_ends (e : CurvedEdgeItem) : Z * Z * string :=
  (src_id e, dst_id e, label_text e).

(** What holds of a window [v] on graph [G] at any moment after it was
    opened as [v0]. *)
Record view_inv (tk : Toolkit) (G : DiGraph) (root : option Z) (v0 v : Viewer) : Prop := {
  vi_graph : vG v = G;
  vi_root : root_id v = root;
  vi_keys : OD.keys (node_items v) = nodes G;
  vi_look : node_looks (node_items v) = node_looks (node_items v0);
  vi_ends : edge_ends <$> edge_items v = edge_ends <$> edge_items v0;
  vi_joined : ∀ e, e ∈ edge_items v0 → src_id e ∈ nodes G ∧ dst_id e ∈ nodes G;
  vi_sync : ∀ e, e ∈ edge_items v → in_sync tk (node_items v) e
}.

(** The file names that the file dialog returns in a sequence of actions. *)
Definition exports (acts : list action) : list string :=
  acts ≫= λ a, match a with ExportButton file_name => [file_name] | _ => [] end.

(** A relationship row as the editor opened on entry [current] of store
    [s0] writes it: from [current] to another entry of the store, with a
    type that is not empty. *)
Definition added_by_dialog (s0 : Database.Store) (current : Z) (r : RelRow) : Prop :=
  r_entry_a r = current ∧ r_entry_b r ≠ current ∧
  r_entry_b r ∈ e_id <$> Database.entries s0 ∧
  ∃ ty, r_type r = Some ty ∧ ty ≠ EmptyString.

(** The other end of a relationship of [current]. *)
Definition other_end (current : Z) (r : RelRow) : Z :=
  if decide (current = r_entry_a r) then r_entry_b r else r_entry_a r.

(** What holds of the editor opened on entry [current] of store [s0],
    whatever was done with it since. *)
Record dialog_inv (s0 : Database.Store) (current : Z)
    (dlg : RelationshipEditorDialog.Dialog) : Prop := {
  di_current : RelationshipEditorDialog.current_entry_id dlg = current;
  di_entries : Database.entries (RelationshipEditorDialog.db dlg) = Database.entries s0;
  di_combo : ∀ item, item ∈ RelationshipEditorDialog.other_entry_combo dlg →
      item.2 ≠ current ∧ item.2 ∈ e_id <$> Database.entries s0;
  di_list : RelationshipEditorDialog.rel_list dlg
      = RelationshipEditorDialog.rel_item (RelationshipEditorDialog.db dlg) current
          <$> Database.get_relationships_for_entry (RelationshipEditorDialog.db dlg) current;
  di_rows : ∀ r, r ∈ Database.relationships (RelationshipEditorDialog.db dlg) →
      r ∈ Database.relationships s0 ∨ added_by_dialog s0 current r
}.

(** No text column of an entry is NULL, as in every row that [add_entry]
    and [update_entry] write. *)
Definition entry_text_ok (e : EntryRow) : Prop :=
  is_Some (e_title e) ∧ is_Some (e_description e) ∧ is_Some (e_category e) ∧
  is_Some (e_tags e) ∧ is_Some (e_synonyms e).

Definition store_text_ok (s : Database.Store) : Prop :=
  ∀ e, e ∈ Database.entries s → entry_text_ok e.

(** What holds of the main window between two events. *)
Record window_inv (w : MainWindow.Window) : Prop := {
  wi_store : store_ok (MainWindow.db w);
  wi_text : store_text_ok (MainWindow.db w);
  wi_list : ∀ item, item ∈ MainWindow.entry_list w →
      item.2 ∈ e_id <$> Database.entries (MainWindow.db w);
  wi_loading : MainWindow.loading_entry w = false
}.

(** The five fields of the window show the columns of row [e]. *)
Definition shows (w : MainWindow.Window) (e : EntryRow) : Prop :=
  e_title e = Some (MainWindow.title_field w) ∧
  e_description e = Some (MainWindow.description_field w) ∧
  e_category e = Some (MainWindow.category_field w) ∧
  e_tags e = Some (MainWindow.tags_field w) ∧
  e_synonyms e = Some (MainWindow.synonyms_field w).
(** * Verification *)

(** ** Dictionaries *)

Section od_lemmas.
Context {K V : Type} `{EqDecision K}.
Implicit Types (d : list (K * V)) (k : K) (v : V).

Lemma od_get_None k d : OD.get k d = None ↔ k ∉ OD.keys d.
Proof.
  unfold OD.keys. induction d as [|[k' v'] d IH]; simpl.
  - split; [intros _; apply not_elem_of_nil | done].
  - case_decide; subst.
    + split; [done | intros Hn; exfalso; apply Hn; left].
    + rewrite IH, not_elem_of_cons. tauto.
Qed.

Lemma od_get_Some_elem k v d : OD.get k d = Some v → (k, v) ∈ d.
Proof.
  induction d as [|[k' v'] d IH]; simpl; [done|].
  case_decide; subst.
  - intros [= ->]. left.
  - intros Hg. right. auto.
Qed.

Lemma od_get_is_Some k d : is_Some (OD.get k d) ↔ k ∈ OD.keys d.
Proof.
  destruct (OD.get k d) eqn:E.
  - split; [|eauto]. intros _. apply od_get_Some_elem in E.
    unfold OD.keys. apply list_elem_of_fmap. by exists (k, v).
  - apply od_get_None in E. split; [intros [? [=]] | done].
Qed.

Lemma od_elem_get k v d : NoDup (OD.keys d) → (k, v) ∈ d → OD.get k d = Some v.
Proof.
  unfold OD.keys. induction d as [|[k' v'] d IH]; simpl.
  - intros _ Hin. by apply elem_of_nil in Hin.
  - intros Hnd Hin. apply NoDup_cons in Hnd as [Hk Hnd].
    apply elem_of_cons in Hin as [[= -> ->]|Hin].
    + by rewrite decide_True.
    + rewrite decide_False; [auto|]. intros ->. apply Hk.
      apply list_elem_of_fmap. by exists (k', v).
Qed.

Lemma od_get_set_eq k v d : OD.get k (OD.set k v d) = Some v.
Proof.
  induction d as [|[k' v'] d IH]; simpl.
  - by rewrite decide_True.
  - case_decide; simpl; [by rewrite decide_True | by rewrite decide_False].
Qed.

Lemma od_get_set_ne k k' v d : k ≠ k' → OD.get k' (OD.set k v d) = OD.get k' d.
Proof.
  intros Hne. induction d as [|[k0 v0] d IH]; simpl.
  - rewrite decide_False; [done | congruence].
  - case_decide; subst; simpl.
    + rewrite !decide_False; [done | congruence | congruence].
    + case_decide; [done | apply IH].
Qed.

Lemma od_keys_set_in k v d : k ∈ OD.keys d → OD.keys (OD.set k v d) = OD.keys d.
Proof.
  unfold OD.keys. induction d as [|[k0 v0] d IH]; simpl.
  - intros Hin. by apply elem_of_nil in Hin.
  - intros Hin. case_decide; subst; simpl; [done|].
    f_equal. apply IH. apply elem_of_cons in Hin as [?|?]; [congruence | done].
Qed.

Lemma od_keys_set_notin k v d : k ∉ OD.keys d → OD.keys (OD.set k v d) = OD.keys d ++ [k].
Proof.
  unfold OD.keys. induction d as [|[k0 v0] d IH]; simpl; [done|].
  intros Hn. apply not_elem_of_cons in Hn as [Hne Hn].
  rewrite decide_False; [|done]. simpl. f_equal. by apply IH.
Qed.

Lemma od_set_notin k v d : k ∉ OD.keys d → OD.set k v d = d ++ [(k, v)].
Proof.
  unfold OD.keys. induction d as [|[k0 v0] d IH]; simpl; [done|].
  intros Hn. apply not_elem_of_cons in Hn as [Hne Hn].
  rewrite decide_False; [|done]. f_equal. by apply IH.
Qed.

Lemma od_elem_keys_set k k' v d :
  k' ∈ OD.keys (OD.set k v d) ↔ k' = k ∨ k' ∈ OD.keys d.
Proof.
  destruct (decide (k ∈ OD.keys d)) as [Hin|Hn].
  - rewrite od_keys_set_in; [|done]. split; [tauto | by intros [->|?]].
  - rewrite od_keys_set_notin; [|done]. rewrite elem_of_app, list_elem_of_singleton.
    tauto.
Qed.

Lemma od_NoDup_set k v d : NoDup (OD.keys d) → NoDup (OD.keys (OD.set k v d)).
Proof.
  intros Hnd. destruct (decide (k ∈ OD.keys d)) as [Hin|Hn].
  - by rewrite od_keys_set_in.
  - rewrite od_keys_set_notin; [|done]. apply NoDup_app. split_and!; [done| |apply NoDup_singleton].
    intros x Hx Hx'. apply list_elem_of_singleton in Hx'. by subst.
Qed.
Lemma od_elem_set k v k' v' d :
  (k', v') ∈ OD.set k v d → (k' = k ∧ v' = v) ∨ (k', v') ∈ d.
Proof.
  induction d as [|[k0 v0] d IH]; simpl.
  - intros Hin. apply list_elem_of_singleton in Hin. left. by injection Hin.
  - case_decide; subst; intros Hin; apply elem_of_cons in Hin as [Heq|Hin].
    + left. by injection Heq.
    + right. by right.
    + right. rewrite Heq. left.
    + destruct (IH Hin) as [?|?]; [by left | right; by right].
Qed.

Lemma od_get_default_elem k d (dft : V) :
  k ∈ OD.keys d → (k, default dft (OD.get k d)) ∈ d.
Proof.
  intros Hin. apply od_get_is_Some in Hin as [x Hx]. rewrite Hx. simpl.
  by apply od_get_Some_elem.
Qed.
End od_lemmas.

(** ** The graph operations keep the representation invariant *)

Lemma empty_digraph_wf : digraph_wf empty_digraph.
Proof.
  split; simpl; try done.
  - apply NoDup_nil_2.
  - intros u nbrs Hin. by apply elem_of_nil in Hin.
Qed.

Lemma mem_true {V} (k : Z) (d : list (Z * V)) : OD.mem k d = true ↔ k ∈ OD.keys d.
Proof. unfold OD.mem. apply bool_decide_eq_true. Qed.

Lemma mem_false {V} (k : Z) (d : list (Z * V)) : OD.mem k d = false ↔ k ∉ OD.keys d.
Proof. unfold OD.mem. apply bool_decide_eq_false. Qed.

Lemma ensure_node_present G n : n ∈ OD.keys (g_succ G) → ensure_node G n = G.
Proof. intros Hin. unfold ensure_node. apply mem_true in Hin. by rewrite Hin. Qed.

Lemma ensure_node_wf G n : digraph_wf G → digraph_wf (ensure_node G n).
Proof.
  intros [Hnd Hs Hp Hin]. unfold ensure_node.
  destruct (OD.mem n (g_succ G)) eqn:E; [by split|].
  apply mem_false in E.
  assert (n ∉ nodes G) as Hn by (by rewrite <- Hs).
  split; unfold nodes in *; simpl.
  - by apply od_NoDup_set.
  - rewrite !od_keys_set_notin; [by rewrite Hs | done | done].
  - rewrite !od_keys_set_notin; [by rewrite Hp | done | by rewrite Hp].
  - intros u nbrs Hu. apply od_elem_set in Hu as [[-> ->]|Hu].
    + split; [apply NoDup_nil_2 | intros v Hv; by apply elem_of_nil in Hv].
    + destruct (Hin _ _ Hu) as [? Hv]. split; [done|].
      intros v Hv'. apply od_elem_keys_set. right. by apply Hv.
Qed.

Lemma ensure_node_nodes G n x :
  digraph_wf G → x ∈ nodes (ensure_node G n) ↔ x = n ∨ x ∈ nodes G.
Proof.
  intros [Hnd Hs Hp Hin]. unfold ensure_node.
  destruct (OD.mem n (g_succ G)) eqn:E.
  - apply mem_true in E. rewrite Hs in E. split; [tauto | by intros [->|?]].
  - unfold nodes; simpl. apply od_elem_keys_set.
Qed.

Lemma add_node_wf G n a : digraph_wf G → digraph_wf (add_node G n a).
Proof.
  intros HG. pose proof (ensure_node_wf G n HG) as [Hnd Hs Hp Hin].
  assert (n ∈ nodes (ensure_node G n)) as Hn
    by (apply ensure_node_nodes; [done | by left]).
  unfold add_node. split; unfold nodes in *; simpl.
  - by apply od_NoDup_set.
  - by rewrite od_keys_set_in.
  - by rewrite od_keys_set_in.
  - intros u nbrs Hu. rewrite od_keys_set_in by done. by apply (Hin u nbrs).
Qed.

Lemma add_node_nodes G n a x :
  digraph_wf G → x ∈ nodes (add_node G n a) ↔ x = n ∨ x ∈ nodes G.
Proof.
  intros HG. unfold add_node, nodes at 1. simpl.
  rewrite od_elem_keys_set. fold (nodes (ensure_node G n)).
  rewrite ensure_node_nodes by done. tauto.
Qed.

Lemma add_node_succ G n a :
  digraph_wf G → ∀ u nbrs, (u, nbrs) ∈ g_succ (add_node G n a) → (u, nbrs) ∈ g_succ G ∨ nbrs = [].
Proof.
  intros HG u nbrs. unfold add_node, ensure_node. simpl.
  destruct (OD.mem n (g_succ G)); simpl; [by left|].
  intros Hu. apply od_elem_set in Hu as [[_ ->]|Hu]; [by right | by left].
Qed.

Lemma add_node_attr G n a :
  OD.get n (g_node (add_node G n a)) = Some (a ∪ default ∅ (OD.get n (g_node (ensure_node G n)))).
Proof. unfold add_node. simpl. apply od_get_set_eq. Qed.

Lemma add_node_attr_ne G n a x :
  x ≠ n → x ∈ nodes G → OD.get x (g_node (add_node G n a)) = OD.get x (g_node G).
Proof.
  intros Hne Hx. unfold add_node. simpl. rewrite od_get_set_ne by done.
  unfold ensure_node. destruct (OD.mem n (g_succ G)); [done|]. simpl.
  by rewrite od_get_set_ne.
Qed.

Section add_edge_present.
Context (G : DiGraph) (u v : Z) (a : attrs).
Context (HG : digraph_wf G) (Hu : u ∈ nodes G) (Hv : v ∈ nodes G).

Lemma add_edge_unfold :
  add_edge G u v a =
  let datadict := a ∪ default ∅ (edge_attr G u v) in
  {| g_node := g_node G;
     g_succ := OD.set u (OD.set v datadict (default [] (OD.get u (g_succ G)))) (g_succ G);
     g_pred := OD.set v (OD.set u datadict (default [] (OD.get v (g_pred G)))) (g_pred G) |}.
Proof.
  unfold add_edge. rewrite (ensure_node_present G u) by (by rewrite (wf_succ_keys G HG)).
  by rewrite (ensure_node_present G v) by (by rewrite (wf_succ_keys G HG)).
Qed.

Lemma add_edge_node : g_node (add_edge G u v a) = g_node G.
Proof. by rewrite add_edge_unfold. Qed.

Lemma add_edge_wf : digraph_wf (add_edge G u v a).
Proof.
  rewrite add_edge_unfold. destruct HG as [Hnd Hs Hp Hin].
  split; unfold nodes in *; simpl; try done.
  - rewrite od_keys_set_in; [done | by rewrite Hs].
  - rewrite od_keys_set_in; [done | by rewrite Hp].
  - intros x nbrs Hx. apply od_elem_set in Hx as [[-> ->]|Hx]; [|by apply (Hin x nbrs)].
    assert (u ∈ OD.keys (g_succ G)) as Hu' by (by rewrite Hs).
    destruct (Hin _ _ (od_get_default_elem u (g_succ G) [] Hu')) as [Hnd' Hsub].
    split; [by apply od_NoDup_set|].
    intros w Hw. apply od_elem_keys_set in Hw as [->|Hw]; [done | by apply Hsub].
Qed.

Lemma add_edge_attr x y :
  edge_attr (add_edge G u v a) x y =
  if decide (x = u ∧ y = v) then Some (a ∪ default ∅ (edge_attr G u v))
  else edge_attr G x y.
Proof.
  rewrite add_edge_unfold. unfold edge_attr at 1. simpl.
  assert (is_Some (OD.get u (g_succ G))) as [nb Hnb]
    by (apply od_get_is_Some; by rewrite (wf_succ_keys G HG)).
  destruct (decide (x = u)) as [->|Hx].
  - rewrite od_get_set_eq. simpl. rewrite Hnb. simpl.
    destruct (decide (y = v)) as [->|Hy].
    + rewrite od_get_set_eq. by rewrite decide_True.
    + rewrite od_get_set_ne by done. rewrite decide_False by tauto.
      unfold edge_attr. by rewrite Hnb.
  - rewrite od_get_set_ne by done. by rewrite decide_False by tauto.
Qed.
End add_edge_present.

(** In a well-formed graph the edge list and the nested lookup agree. *)
Lemma elem_of_edges G u v d :
  (u, v, d) ∈ edges G ↔ ∃ nbrs, (u, nbrs) ∈ g_succ G ∧ (v, d) ∈ nbrs.
Proof.
  unfold edges. rewrite list_elem_of_bind. split.
  - intros [[u' nbrs] [Hin Hu]]. apply list_elem_of_bind in Hin as [[v' d'] [Hin Hv]].
    apply list_elem_of_singleton in Hin. injection Hin as -> -> ->. by exists nbrs.
  - intros [nbrs [Hu Hv]]. exists (u, nbrs). split; [|done].
    apply list_elem_of_bind. exists (v, d). split; [by apply list_elem_of_singleton | done].
Qed.

Lemma edges_edge_attr G u v d :
  digraph_wf G → (u, v, d) ∈ edges G ↔ edge_attr G u v = Some d.
Proof.
  intros [Hnd Hs Hp Hin]. rewrite elem_of_edges. unfold edge_attr. split.
  - intros [nbrs [Hu Hv]]. rewrite (od_elem_get u nbrs) by (by rewrite ?Hs). simpl.
    apply od_elem_get; [|done]. by apply (Hin u nbrs).
  - destruct (OD.get u (g_succ G)) as [nbrs|] eqn:E; simpl; [|done].
    intros Hv. exists nbrs. split; by apply od_get_Some_elem.
Qed.

(** ** Properties of [build_graph] *)

Lemma add_rel_edge_spec G r :
  digraph_wf G →
  digraph_wf (add_rel_edge G r) ∧
  g_node (add_rel_edge G r) = g_node G ∧
  ∀ x y, edge_attr (add_rel_edge G r) x y =
         if decide (rel_hits (nodes G) r x y)
         then Some (rel_attrs r ∪ default ∅ (edge_attr G x y))
         else edge_attr G x y.
Proof.
  intros HG. unfold add_rel_edge, rel_hits.
  destruct (OD.mem (r_entry_a r) (g_node G)) eqn:Ea; cbn [andb].
  1: destruct (OD.mem (r_entry_b r) (g_node G)) eqn:Eb.
  - apply mem_true in Ea, Eb. split_and!.
    + by apply add_edge_wf.
    + by apply add_edge_node.
    + intros x y. rewrite add_edge_attr by done.
      destruct (decide (x = r_entry_a r ∧ y = r_entry_b r)) as [[-> ->]|Hne].
      * by rewrite decide_True.
      * rewrite decide_False; [done|]. intros (? & ? & _). apply Hne. by split.
  - apply mem_false in Eb. split_and!; try done.
    intros x y. rewrite decide_False; [done|]. intros (_ & <- & _ & ?). by apply Eb.
  - apply mem_false in Ea. split_and!; try done.
    intros x y. rewrite decide_False; [done|]. intros (<- & _ & ? & _). by apply Ea.
Qed.

Lemma fold_rel_frame rels G0 :
  digraph_wf G0 →
  digraph_wf (fold_left add_rel_edge rels G0) ∧
  g_node (fold_left add_rel_edge rels G0) = g_node G0.
Proof.
  revert G0. induction rels as [|r rels IH]; intros G0 HG; simpl; [done|].
  destruct (add_rel_edge_spec G0 r HG) as (Hwf & Hn & _).
  destruct (IH _ Hwf) as [? Hn']. split; [done | by rewrite Hn'].
Qed.

(** Rows for other pairs leave the edge (if any) between [u] and [v] alone. *)
Lemma fold_rel_other rels G0 u v :
  digraph_wf G0 →
  (∀ r, r ∈ rels → ¬ rel_hits (nodes G0) r u v) →
  edge_attr (fold_left add_rel_edge rels G0) u v = edge_attr G0 u v.
Proof.
  revert G0. induction rels as [|r rels IH]; intros G0 HG Hno; simpl; [done|].
  destruct (add_rel_edge_spec G0 r HG) as (Hwf & Hn & He).
  rewrite IH; [|done|].
  - rewrite He, decide_False; [done|]. apply Hno. left.
  - intros r' Hr'. unfold nodes. rewrite Hn. apply Hno. by right.
Qed.

Lemma fold_rel_edge_iff rels G0 u v :
  digraph_wf G0 →
  is_Some (edge_attr (fold_left add_rel_edge rels G0) u v) ↔
  is_Some (edge_attr G0 u v) ∨ ∃ r, r ∈ rels ∧ rel_hits (nodes G0) r u v.
Proof.
  revert G0. induction rels as [|r rels IH]; intros G0 HG; simpl.
  - split; [by left|]. intros [?|(r & Hr & _)]; [done|]. by apply elem_of_nil in Hr.
  - destruct (add_rel_edge_spec G0 r HG) as (Hwf & Hn & He).
    assert (nodes (add_rel_edge G0 r) = nodes G0) as HN by (unfold nodes; by rewrite Hn).
    rewrite IH by done. rewrite He, HN.
    destruct (decide (rel_hits (nodes G0) r u v)) as [Hh|Hh].
    + split; [|intros _; left; eauto]. intros _. right. exists r. split; [left | done].
    + split.
      * intros [?|(r' & Hr' & Hh')]; [by left|]. right. exists r'. split; [by right | done].
      * intros [?|(r' & Hr' & Hh')]; [by left|].
        apply elem_of_cons in Hr' as [->|Hr']; [done|]. right. by exists r'.
Qed.

Lemma fold_entries_wf entries G0 :
  digraph_wf G0 → digraph_wf (fold_left add_entry_node entries G0).
Proof.
  revert G0. induction entries as [|e entries IH]; intros G0 HG; simpl; [done|].
  apply IH. by apply add_node_wf.
Qed.

Lemma fold_entries_nodes entries G0 x :
  digraph_wf G0 →
  x ∈ nodes (fold_left add_entry_node entries G0) ↔ x ∈ nodes G0 ∨ x ∈ e_id <$> entries.
Proof.
  revert G0. induction entries as [|e entries IH]; intros G0 HG; simpl.
  - split; [by left|]. intros [?|Hx]; [done|]. by apply elem_of_nil in Hx.
  - rewrite IH by (by apply add_node_wf). unfold add_entry_node.
    rewrite add_node_nodes by done. rewrite elem_of_cons. tauto.
Qed.

Lemma fold_entries_no_edges entries G0 :
  digraph_wf G0 →
  (∀ u nbrs, (u, nbrs) ∈ g_succ G0 → nbrs = []) →
  ∀ u nbrs, (u, nbrs) ∈ g_succ (fold_left add_entry_node entries G0) → nbrs = [].
Proof.
  revert G0. induction entries as [|e entries IH]; intros G0 HG H0; simpl; [done|].
  apply IH; [by apply add_node_wf|]. intros u nbrs Hu.
  apply add_node_succ in Hu as [Hu| ->]; [by apply (H0 u) | done | done].
Qed.

(** The attributes of a node are those of the last entry row with its id. *)
Lemma fold_entries_attr l1 e l2 G0 :
  digraph_wf G0 → e_id e ∉ e_id <$> l2 →
  ∃ old, OD.get (e_id e) (g_node (fold_left add_entry_node (l1 ++ e :: l2) G0))
         = Some (entry_attrs e ∪ old).
Proof.
  intros HG Hlast. rewrite fold_left_app. simpl.
  pose proof (fold_entries_wf l1 G0 HG) as HG1.
  set (G1 := fold_left add_entry_node l1 G0) in *.
  assert (∀ l G, digraph_wf G → e_id e ∉ e_id <$> l → e_id e ∈ nodes G →
            OD.get (e_id e) (g_node (fold_left add_entry_node l G))
            = OD.get (e_id e) (g_node G)) as Hkeep.
  { induction l as [|e' l IH]; intros G HGw Hn Hin; simpl; [done|].
    rewrite fmap_cons in Hn. apply not_elem_of_cons in Hn as [Hne Hn].
    rewrite IH; [|by apply add_node_wf|done|].
    - unfold add_entry_node. by apply add_node_attr_ne.
    - apply add_node_nodes; [done | by right]. }
  rewrite Hkeep.
  - unfold add_entry_node at 1. rewrite add_node_attr. eauto.
  - by apply add_node_wf.
  - done.
  - apply add_node_nodes; [done | by left].
Qed.

Lemma build_graph_wf entries rels : digraph_wf (build_graph entries rels).
Proof.
  unfold build_graph. apply fold_rel_frame, fold_entries_wf, empty_digraph_wf.
Qed.

Lemma build_graph_nodes entries rels x :
  x ∈ nodes (build_graph entries rels) ↔ x ∈ e_id <$> entries.
Proof.
  unfold build_graph, nodes.
  destruct (fold_rel_frame rels (fold_left add_entry_node entries empty_digraph)) as [_ ->];
    [apply fold_entries_wf, empty_digraph_wf|].
  fold (nodes (fold_left add_entry_node entries empty_digraph)).
  rewrite fold_entries_nodes by apply empty_digraph_wf.
  split; [|by right]. intros [Hx|?]; [|done]. by apply elem_of_nil in Hx.
Qed.

Lemma entries_edge_free entries u v :
  edge_attr (fold_left add_entry_node entries empty_digraph) u v = None.
Proof.
  unfold edge_attr.
  destruct (OD.get u (g_succ (fold_left add_entry_node entries empty_digraph)))
    as [nbrs|] eqn:E; simpl; [|done].
  apply od_get_Some_elem in E.
  apply fold_entries_no_edges in E as ->; [done | apply empty_digraph_wf|].
  intros ? ? Hin. by apply elem_of_nil in Hin.
Qed.

Lemma build_graph_edge_iff entries rels u v :
  is_Some (edge_attr (build_graph entries rels) u v) ↔
  ∃ r, r ∈ rels ∧ r_entry_a r = u ∧ r_entry_b r = v
       ∧ u ∈ e_id <$> entries ∧ v ∈ e_id <$> entries.
Proof.
  unfold build_graph.
  pose proof (fold_entries_wf entries _ empty_digraph_wf) as HG1.
  rewrite fold_rel_edge_iff by done. rewrite entries_edge_free.
  unfold rel_hits. split.
  - intros [[? [=]]|(r & Hr & Ha & Hb & Hu & Hv)]. exists r.
    apply (fold_entries_nodes entries empty_digraph u empty_digraph_wf) in Hu.
    apply (fold_entries_nodes entries empty_digraph v empty_digraph_wf) in Hv.
    destruct Hu as [Hu|Hu]; [by apply elem_of_nil in Hu|].
    destruct Hv as [Hv|Hv]; [by apply elem_of_nil in Hv|]. done.
  - intros (r & Hr & Ha & Hb & Hu & Hv). right. exists r. split_and!; try done.
    + apply fold_entries_nodes; [apply empty_digraph_wf | by right].
    + apply fold_entries_nodes; [apply empty_digraph_wf | by right].
Qed.

(** C1 (graph.py, build_graph): an edge is in the built graph exactly when
    some relationship row joins its two endpoints and both endpoints are ids
    of entry rows; a row that names a missing entry adds nothing, and the
    builder is a total function, so it raises nothing. Every edge of the
    result has both endpoints among the nodes, and for entries 1 and 2 with
    the single relationship (1, 3) the graph has 2 nodes and no edge. *)
Theorem build_graph_no_dangling_edges :
  (∀ entries rels u v,
     (∃ d, (u, v, d) ∈ edges (build_graph entries rels)) ↔
     (∃ r, r ∈ rels ∧ r_entry_a r = u ∧ r_entry_b r = v
           ∧ u ∈ e_id <$> entries ∧ v ∈ e_id <$> entries)) ∧
  (∀ entries rels u v d,
     (u, v, d) ∈ edges (build_graph entries rels) →
     u ∈ nodes (build_graph entries rels) ∧ v ∈ nodes (build_graph entries rels)) ∧
  (∀ entries rels n, n ∈ nodes (build_graph entries rels) ↔ n ∈ e_id <$> entries) ∧
  (let G := build_graph [mkE 1 "A" "Character"; mkE 2 "B" "Location"] [mkR 1 1 3 "Ally"] in
   nodes G = [1; 2] ∧ edges G = []).
Proof.
  assert (∀ entries rels u v,
     (∃ d, (u, v, d) ∈ edges (build_graph entries rels)) ↔
     (∃ r, r ∈ rels ∧ r_entry_a r = u ∧ r_entry_b r = v
           ∧ u ∈ e_id <$> entries ∧ v ∈ e_id <$> entries)) as Hiff.
  { intros entries rels u v. rewrite <- build_graph_edge_iff. split.
    - intros [d Hd]. exists d. by apply edges_edge_attr; [apply build_graph_wf|].
    - intros [d Hd]. exists d. by apply edges_edge_attr; [apply build_graph_wf|]. }
  split_and!; [done | | apply build_graph_nodes | by vm_compute].
  intros entries rels u v d Hd.
  destruct (proj1 (Hiff entries rels u v)) as (r & _ & _ & _ & Hu & Hv); [by exists d|].
  split; by apply build_graph_nodes.
Qed.

(** What the builder does with repeated rows: the edges are the distinct
    ordered pairs of the rows whose endpoints are both present. *)
Lemma succ_pairs_NoDup (succ : list (Z * list (Z * attrs))) :
  NoDup (OD.keys succ) →
  (∀ u nbrs, (u, nbrs) ∈ succ → NoDup (OD.keys nbrs)) →
  NoDup ((λ e : Z * Z * attrs, (e.1.1, e.1.2))
           <$> ('(u, nbrs) ← succ; '(v, d) ← nbrs; [(u, v, d)])).
Proof.
  unfold OD.keys. induction succ as [|[u nbrs] succ IH]; intros Hnd Hin.
  - apply NoDup_nil_2.
  - rewrite fmap_cons in Hnd. apply NoDup_cons in Hnd as [Hu Hnd].
    rewrite bind_cons, fmap_app. apply NoDup_app. split_and!.
    + specialize (Hin u nbrs ltac:(left)). clear -Hin.
      induction nbrs as [|[v d] nbrs IHn]; [apply NoDup_nil_2|].
      rewrite fmap_cons in Hin. apply NoDup_cons in Hin as [Hv Hin].
      rewrite bind_cons, fmap_app. simpl. apply NoDup_cons. split; [|by apply IHn].
      intros Hx. apply list_elem_of_fmap in Hx as ([[u' v'] d'] & Heq & Hx).
      apply list_elem_of_bind in Hx as ([v'' d''] & Hx & Hin').
      apply list_elem_of_singleton in Hx. simpl in Heq.
      injection Hx as -> -> ->. injection Heq as ->.
      apply Hv. apply list_elem_of_fmap. by exists (v'', d'').
    + intros [a b] Ha Hb.
      apply list_elem_of_fmap in Ha as ([[u1 v1] d1] & Heq1 & H1).
      apply list_elem_of_bind in H1 as ([v1' d1'] & H1 & _).
      apply list_elem_of_singleton in H1. injection H1 as -> -> ->.
      apply list_elem_of_fmap in Hb as ([[u2 v2] d2] & Heq2 & H2).
      apply list_elem_of_bind in H2 as ([u2' nb2] & H2 & Hin2).
      apply list_elem_of_bind in H2 as ([v2' d2'] & H2 & _).
      apply list_elem_of_singleton in H2. injection H2 as -> -> ->.
      simpl in Heq1, Heq2. injection Heq1 as -> ->. injection Heq2 as -> _.
      apply Hu. apply list_elem_of_fmap. by exists (u2', nb2).
    + apply IH; [done|]. intros u' nbrs' Hin'. apply (Hin u' nbrs'). by right.
Qed.

Lemma build_graph_edge_count entries rels :
  let present r := r_entry_a r ∈ e_id <$> entries ∧ r_entry_b r ∈ e_id <$> entries in
  length (edges (build_graph entries rels))
  = length (remove_dups ((λ r, (r_entry_a r, r_entry_b r)) <$> filter present rels)).
Proof.
  simpl. pose proof (build_graph_wf entries rels) as HG.
  rewrite <- (length_fmap (λ e : Z * Z * attrs, (e.1.1, e.1.2))).
  apply Permutation_length, NoDup_Permutation.
  - apply succ_pairs_NoDup.
    + rewrite (wf_succ_keys _ HG). apply (wf_nodup _ HG).
    + intros u nbrs Hin. by apply (wf_succ_inner _ HG u nbrs).
  - apply NoDup_remove_dups.
  - intros [u v]. rewrite elem_of_remove_dups, !list_elem_of_fmap. split.
    + intros ([[u' v'] d] & [= -> ->] & Hin).
      destruct (proj1 (build_graph_edge_iff entries rels u' v')) as (r & Hr & <- & <- & Ha & Hb).
      { exists d. by apply edges_edge_attr. }
      exists r. split; [done|]. by apply list_elem_of_filter.
    + intros (r & [= -> ->] & Hin). apply list_elem_of_filter in Hin as [[Ha Hb] Hr].
      destruct (proj2 (build_graph_edge_iff entries rels (r_entry_a r) (r_entry_b r)))
        as [d Hd]; [by exists r|].
      exists (r_entry_a r, r_entry_b r, d). split; [done|]. by apply edges_edge_attr.
Qed.

(** C6 (graph.py, build_graph): two relationship rows for the same ordered
    pair, both with their endpoints present, leave one edge in the graph,
    labelled by the later row; the docstring promises one edge per row. *)
Theorem build_graph_duplicate_rows_merge :
  let entries := [mkE 1 "A" "Character"; mkE 2 "B" "Character"] in
  let rels := [mkR 1 1 2 "Ally"; mkR 2 1 2 "Enemy"] in
  let G := build_graph entries rels in
  length (filter (λ r, r_entry_a r ∈ nodes G ∧ r_entry_b r ∈ nodes G) rels) = 2%nat ∧
  length (edges G) = 1%nat ∧
  (edge_attr G 1 2 ≫= (.!! "label"%string)) = Some "Enemy"%string.
Proof. by vm_compute. Qed.

Lemma py_or_blank x d : blank x → py_or x d = d.
Proof. by intros [->| ->]. Qed.

Lemma py_or_text s d : s ≠ EmptyString → py_or (Some s) d = s.
Proof. intros Hs. unfold py_or. by rewrite decide_False. Qed.

Lemma entry_attrs_label e :
  entry_attrs e !! "label"%string = Some (py_or (e_title e) ("ID " +:+ py_str (e_id e))).
Proof. unfold entry_attrs. by rewrite lookup_insert_eq. Qed.

Lemma entry_attrs_category e :
  entry_attrs e !! "category"%string = Some (py_or (e_category e) "default").
Proof.
  unfold entry_attrs. rewrite lookup_insert_ne by done. by rewrite lookup_singleton_eq.
Qed.

(** C8 (graph.py, build_graph): the node of an entry row (the last row with
    its id) is labelled with the title, or with "ID " followed by the id when
    the title is NULL or empty, and carries the category, or "default" when
    that is NULL or empty; the edge of a relationship row (the last row for
    its pair, both endpoints present) is labelled with the type, or with
    "relationship" when the type is NULL or empty. The builder is a total
    function: no row makes it fail. *)
Theorem build_graph_defaults :
  (∀ l1 e l2 rels, e_id e ∉ e_id <$> l2 →
     ∃ d, OD.get (e_id e) (g_node (build_graph (l1 ++ e :: l2) rels)) = Some d ∧
          d !! "label"%string = Some (py_or (e_title e) ("ID " +:+ py_str (e_id e))) ∧
          d !! "category"%string = Some (py_or (e_category e) "default") ∧
          (blank (e_title e) → d !! "label"%string = Some ("ID " +:+ py_str (e_id e))) ∧
          (blank (e_category e) → d !! "category"%string = Some "default"%string)) ∧
  (∀ entries m1 r m2,
     (∀ r', r' ∈ m2 → ¬ (r_entry_a r' = r_entry_a r ∧ r_entry_b r' = r_entry_b r)) →
     r_entry_a r ∈ e_id <$> entries → r_entry_b r ∈ e_id <$> entries →
     ∃ d, edge_attr (build_graph entries (m1 ++ r :: m2)) (r_entry_a r) (r_entry_b r) = Some d ∧
          d !! "label"%string = Some (py_or (r_type r) "relationship") ∧
          (blank (r_type r) → d !! "label"%string = Some "relationship"%string)).
Proof.
  split.
  - intros l1 e l2 rels Hlast.
    pose proof (fold_entries_wf (l1 ++ e :: l2) _ empty_digraph_wf) as HG1.
    unfold build_graph. destruct (fold_rel_frame rels _ HG1) as [_ ->].
    destruct (fold_entries_attr l1 e l2 _ empty_digraph_wf Hlast) as [old ->].
    exists (entry_attrs e ∪ old).
    assert ((entry_attrs e ∪ old) !! "label"%string
            = Some (py_or (e_title e) ("ID " +:+ py_str (e_id e)))) as Hl
      by apply lookup_union_Some_l, entry_attrs_label.
    assert ((entry_attrs e ∪ old) !! "category"%string
            = Some (py_or (e_category e) "default")) as Hc
      by apply lookup_union_Some_l, entry_attrs_category.
    split_and!; try done.
    + intros Hb. by rewrite Hl, py_or_blank.
    + intros Hb. by rewrite Hc, py_or_blank.
  - intros entries m1 r m2 Hlast Ha Hb.
    pose proof (fold_entries_wf entries _ empty_digraph_wf) as HG1.
    unfold build_graph. set (G1 := fold_left add_entry_node entries empty_digraph) in *.
    rewrite fold_left_app. simpl.
    destruct (fold_rel_frame m1 G1 HG1) as [HG2 Hn2].
    set (G2 := fold_left add_rel_edge m1 G1) in *.
    destruct (add_rel_edge_spec G2 r HG2) as (HG3 & Hn3 & He3).
    assert (∀ x, x ∈ e_id <$> entries → x ∈ nodes G2) as Hin.
    { intros x Hx. unfold nodes. rewrite Hn2.
      apply (fold_entries_nodes entries empty_digraph x empty_digraph_wf). by right. }
    rewrite fold_rel_other; [|done|].
    + rewrite He3, decide_True by (unfold rel_hits; auto).
      eexists. split; [done|].
      assert (rel_attrs r !! "label"%string = Some (py_or (r_type r) "relationship")) as Hl
        by (unfold rel_attrs; by rewrite lookup_singleton_eq).
      split; [by apply lookup_union_Some_l|].
      intros Hbl. rewrite <- (py_or_blank (r_type r) "relationship" Hbl).
      by apply lookup_union_Some_l.
    + intros r' Hr' (Ha' & Hb' & _). by apply (Hlast r').
Qed.

Lemma build_graph_defaults_witness :
  let e := {| e_id := 7; e_title := Some EmptyString; e_description := None;
              e_category := None; e_tags := None; e_synonyms := None |} in
  let r := {| r_id := 1; r_entry_a := 7; r_entry_b := 7; r_type := None |} in
  (∃ d, OD.get 7 (g_node (build_graph ([] ++ e :: []) [r])) = Some d ∧
        d !! "label"%string = Some "ID 7"%string ∧
        d !! "category"%string = Some "default"%string) ∧
  (∃ d, edge_attr (build_graph [e] ([] ++ r :: [])) 7 7 = Some d ∧
        d !! "label"%string = Some "relationship"%string).
Proof.
  intros e r. split.
  - destruct (proj1 build_graph_defaults [] e [] [r]) as (d & Hd & Hl & Hc & _).
    + simpl. apply not_elem_of_nil.
    + exists d. split_and!; [exact Hd | exact Hl | exact Hc].
  - destruct (proj2 build_graph_defaults [e] [] r []) as (d & Hd & Hl & _).
    + intros r' Hr'. by apply elem_of_nil in Hr'.
    + simpl. left.
    + simpl. left.
    + exists d. split; [exact Hd | exact Hl].
Defined.

(** ** The record store *)

(** C9 (database.py, delete_entry_and_relationships): after the call no
    relationship row has the deleted id as entry_a or entry_b and no entry
    row has it as id; the rows that do not mention the id are all kept. *)
Theorem delete_entry_cascades (s : Database.Store) (entry_id : Z) :
  let s' := Database.delete_entry_and_relationships s entry_id in
  (∀ r, r ∈ Database.relationships s' → r_entry_a r ≠ entry_id ∧ r_entry_b r ≠ entry_id) ∧
  Database.get_relationships_for_entry s' entry_id = [] ∧
  (∀ e, e ∈ Database.entries s' → e_id e ≠ entry_id) ∧
  (∀ r, r ∈ Database.relationships s' ↔ r ∈ Database.relationships s ∧ ¬ Database.references entry_id r) ∧
  (∀ e, e ∈ Database.entries s' ↔ e ∈ Database.entries s ∧ e_id e ≠ entry_id).
Proof.
  simpl. unfold Database.get_relationships_for_entry. simpl.
  assert (∀ r, r ∈ filter (λ r, ¬ Database.references entry_id r) (Database.relationships s) →
               ¬ Database.references entry_id r) as Hno.
  { intros r Hr. by apply list_elem_of_filter in Hr as [? _]. }
  split_and!.
  - intros r Hr. apply Hno in Hr. unfold Database.references in Hr. tauto.
  - clear Hno. induction (Database.relationships s) as [|r l IH]; [done|].
    rewrite filter_cons. case_decide as Hd; [|done].
    by rewrite filter_cons, decide_False.
  - intros e He. by apply list_elem_of_filter in He as [? _].
  - intros r. rewrite list_elem_of_filter. tauto.
  - intros e. rewrite list_elem_of_filter. tauto.
Qed.

(** ** The undirected copy has the edges of the graph in both directions *)

Lemma od_get_set {V} (k k' : Z) (v : V) (d : list (Z * V)) :
  OD.get k' (OD.set k v d) = if decide (k = k') then Some v else OD.get k' d.
Proof.
  case_decide; subst; [apply od_get_set_eq | by apply od_get_set_ne].
Qed.

Lemma neighbors_Done U n l : neighbors U n = Done l → l = nbr_keys (u_adj U) n.
Proof.
  unfold neighbors, nbr_keys. destruct (OD.get n (u_adj U)); [|done].
  by intros [= <-].
Qed.

Lemma neighbors_key U n : n ∈ OD.keys (u_adj U) → neighbors U n = Done (nbr_keys (u_adj U) n).
Proof.
  intros Hn. apply od_get_is_Some in Hn as [nb Hnb].
  unfold neighbors, nbr_keys. by rewrite Hnb.
Qed.

Lemma neighbors_missing U n : n ∉ OD.keys (u_adj U) → neighbors U n = Raised (NetworkXError n).
Proof. intros Hn. apply od_get_None in Hn. unfold neighbors. by rewrite Hn. Qed.

Lemma nbr_keys_set adj k j dd x y :
  y ∈ nbr_keys (OD.set k (OD.set j dd (default [] (OD.get k adj))) adj) x ↔
  y ∈ nbr_keys adj x ∨ (x = k ∧ y = j).
Proof.
  unfold nbr_keys. rewrite od_get_set. case_decide as Hk; subst; simpl.
  - rewrite od_elem_keys_set. split; [intros [->|?]; auto | intros [?|[_ ->]]; auto].
  - split; [auto | intros [?|[-> _]]; done].
Qed.

Lemma u_ensure_node_spec U n :
  u_keys_agree U →
  u_keys_agree (u_ensure_node U n) ∧
  (∀ x, x ∈ OD.keys (u_adj (u_ensure_node U n)) ↔ x = n ∨ x ∈ OD.keys (u_adj U)) ∧
  (∀ x, nbr_keys (u_adj (u_ensure_node U n)) x = nbr_keys (u_adj U) x).
Proof.
  unfold u_keys_agree, u_ensure_node. intros Hk.
  destruct (OD.mem n (u_node U)) eqn:E.
  - apply mem_true in E. rewrite <- Hk in E. split_and!; [done | | done].
    intros x. split; [auto | by intros [->|?]].
  - apply mem_false in E. simpl. split_and!.
    + rewrite !od_keys_set_notin; [by rewrite Hk | done | by rewrite Hk].
    + intros x. apply od_elem_keys_set.
    + intros x. unfold nbr_keys. rewrite od_get_set. case_decide; subst; [|done].
      rewrite <- Hk in E. apply od_get_None in E. by rewrite E.
Qed.

Lemma u_add_node_spec U nd :
  u_keys_agree U →
  u_keys_agree (u_add_node U nd) ∧
  (∀ x, x ∈ OD.keys (u_adj (u_add_node U nd)) ↔ x = nd.1 ∨ x ∈ OD.keys (u_adj U)) ∧
  (∀ x, nbr_keys (u_adj (u_add_node U nd)) x = nbr_keys (u_adj U) x).
Proof.
  intros Hk. destruct (u_ensure_node_spec U nd.1 Hk) as (Hk1 & Hin & Hnb).
  unfold u_add_node, u_keys_agree in *. simpl. split_and!; [|done|done].
  rewrite od_keys_set_in; [done|]. rewrite <- Hk1. apply Hin. by left.
Qed.

Lemma u_add_edge_spec U a b d :
  u_keys_agree U →
  u_keys_agree (u_add_edge U (a, b, d)) ∧
  (∀ x, x ∈ OD.keys (u_adj (u_add_edge U (a, b, d))) ↔ x ∈ OD.keys (u_adj U) ∨ x = a ∨ x = b) ∧
  (∀ x y, y ∈ nbr_keys (u_adj (u_add_edge U (a, b, d))) x ↔
          y ∈ nbr_keys (u_adj U) x ∨ (x = a ∧ y = b) ∨ (x = b ∧ y = a)).
Proof.
  intros Hk. destruct (u_ensure_node_spec U a Hk) as (Hk1 & Hin1 & Hnb1).
  destruct (u_ensure_node_spec (u_ensure_node U a) b Hk1) as (Hk2 & Hin2 & Hnb2).
  unfold u_add_edge. set (U2 := u_ensure_node (u_ensure_node U a) b) in *.
  set (dd := d ∪ default ∅ (OD.get a (u_adj U2) ≫= OD.get b)).
  set (adj1 := OD.set a (OD.set b dd (default [] (OD.get a (u_adj U2)))) (u_adj U2)).
  assert (a ∈ OD.keys (u_adj U2)) as Ha by (apply Hin2; right; apply Hin1; by left).
  assert (b ∈ OD.keys (u_adj U2)) as Hb by (apply Hin2; by left).
  assert (OD.keys adj1 = OD.keys (u_adj U2)) as Hk3 by (by apply od_keys_set_in).
  unfold u_keys_agree in *. simpl. split_and!.
  - rewrite od_keys_set_in by (by rewrite Hk3). by rewrite Hk3.
  - intros x. rewrite od_keys_set_in by (by rewrite Hk3). rewrite Hk3, Hin2, Hin1. tauto.
  - intros x y. rewrite nbr_keys_set. unfold adj1. rewrite nbr_keys_set.
    rewrite Hnb2, Hnb1. tauto.
Qed.

Lemma fold_u_add_node nds U0 :
  u_keys_agree U0 →
  let U := fold_left u_add_node nds U0 in
  u_keys_agree U ∧
  (∀ x, x ∈ OD.keys (u_adj U) ↔ x ∈ OD.keys (u_adj U0) ∨ x ∈ nds.*1) ∧
  (∀ x, nbr_keys (u_adj U) x = nbr_keys (u_adj U0) x).
Proof.
  revert U0. induction nds as [|nd nds IH]; intros U0 Hk; simpl.
  - split_and!; try done. intros x. split; [auto | intros [?|Hx]; [done|]].
    by apply elem_of_nil in Hx.
  - destruct (u_add_node_spec U0 nd Hk) as (Hk1 & Hin1 & Hnb1).
    destruct (IH _ Hk1) as (Hk2 & Hin2 & Hnb2). split_and!; [done | |].
    + intros x. rewrite Hin2, Hin1, elem_of_cons. tauto.
    + intros x. by rewrite Hnb2, Hnb1.
Qed.

Lemma fold_u_add_edge es U0 :
  u_keys_agree U0 →
  let U := fold_left u_add_edge es U0 in
  u_keys_agree U ∧
  (∀ x, x ∈ OD.keys (u_adj U) ↔
        x ∈ OD.keys (u_adj U0) ∨ ∃ y d, (x, y, d) ∈ es ∨ (y, x, d) ∈ es) ∧
  (∀ x y, y ∈ nbr_keys (u_adj U) x ↔
          y ∈ nbr_keys (u_adj U0) x ∨ ∃ d, (x, y, d) ∈ es ∨ (y, x, d) ∈ es).
Proof.
  revert U0. induction es as [|[[a b] d] es IH]; intros U0 Hk; simpl.
  - split_and!; [done | |].
    + intros x. split; [auto|]. intros [?|(y & d & [H|H])]; [done | |];
        by apply elem_of_nil in H.
    + intros x y. split; [auto|]. intros [?|(d & [H|H])]; [done | |];
        by apply elem_of_nil in H.
  - destruct (u_add_edge_spec U0 a b d Hk) as (Hk1 & Hin1 & Hnb1).
    destruct (IH _ Hk1) as (Hk2 & Hin2 & Hnb2). split_and!; [done | |].
    + intros x. rewrite Hin2, Hin1. setoid_rewrite elem_of_cons. split.
      * intros [[?|[->| ->]]|(y & d' & [H|H])]; eauto 8.
      * intros [?|(y & d' & [[H|H]|[H|H]])]; eauto 8;
          injection H as -> -> ->; auto.
    + intros x y. rewrite Hnb2, Hnb1. setoid_rewrite elem_of_cons. split.
      * intros [[?|[[-> ->]|[-> ->]]]|(d' & [H|H])]; eauto 8.
      * intros [?|(d' & [[H|H]|[H|H]])]; eauto 8;
          injection H as -> -> ->; auto.
Qed.

Lemma to_undirected_spec G :
  let U := to_undirected G in
  (∀ x, x ∈ OD.keys (u_adj U) ↔ x ∈ nodes G ∨ ∃ y, adjacent G x y) ∧
  (∀ x y, y ∈ nbr_keys (u_adj U) x ↔ adjacent G x y).
Proof.
  unfold to_undirected.
  destruct (fold_u_add_node (g_node G) empty_graph) as (Hk1 & Hin1 & Hnb1); [done|].
  destruct (fold_u_add_edge (edges G) _ Hk1) as (Hk2 & Hin2 & Hnb2).
  simpl. split.
  - intros x. rewrite Hin2, Hin1. unfold adjacent, nodes, OD.keys. simpl. split.
    + intros [[H|?]|?]; [by apply elem_of_nil in H | auto | auto].
    + intros [?|?]; auto.
  - intros x y. rewrite Hnb2, Hnb1. unfold adjacent. split; [|auto].
    intros [H|?]; [by apply elem_of_nil in H | done].
Qed.

Lemma to_undirected_nbr_key G x y :
  y ∈ nbr_keys (u_adj (to_undirected G)) x → y ∈ OD.keys (u_adj (to_undirected G)).
Proof.
  destruct (to_undirected_spec G) as [Hin Hnb]. intros Hy. apply Hnb in Hy.
  apply Hin. right. exists x. destruct Hy as [d [H|H]]; exists d; auto.
Qed.

(** The degree used by the sort: the neighbours of a node in the undirected
    copy are the nodes joined to it by an edge of the graph in either
    direction, each once, and a self-loop counts twice. *)
Lemma nbr_keys_NoDup_set adj k j dd x :
  (∀ y, NoDup (nbr_keys adj y)) →
  NoDup (nbr_keys (OD.set k (OD.set j dd (default [] (OD.get k adj))) adj) x).
Proof.
  intros Hnd. unfold nbr_keys. rewrite od_get_set. case_decide as Hk; subst; simpl.
  - apply od_NoDup_set, (Hnd x).
  - apply (Hnd x).
Qed.

Lemma fold_u_add_edge_NoDup es U0 :
  u_keys_agree U0 → (∀ y, NoDup (nbr_keys (u_adj U0) y)) →
  ∀ x, NoDup (nbr_keys (u_adj (fold_left u_add_edge es U0)) x).
Proof.
  revert U0. induction es as [|[[a b] d] es IH]; intros U0 Hk HU; simpl; [done|].
  apply IH; [by apply u_add_edge_spec|].
  destruct (u_ensure_node_spec U0 a Hk) as (Hka & _ & Hna).
  destruct (u_ensure_node_spec (u_ensure_node U0 a) b Hka) as (_ & _ & Hnb).
  intros y. unfold u_add_edge. cbn [u_adj].
  apply nbr_keys_NoDup_set. intros z. apply nbr_keys_NoDup_set.
  intros w. rewrite Hnb, Hna. apply HU.
Qed.

Lemma to_undirected_NoDup G x : NoDup (nbr_keys (u_adj (to_undirected G)) x).
Proof.
  unfold to_undirected.
  destruct (fold_u_add_node (g_node G) empty_graph) as (Hk1 & _ & Hnb1); [done|].
  apply fold_u_add_edge_NoDup; [done|].
  intros y. rewrite Hnb1. apply NoDup_nil_2.
Qed.

Lemma to_undirected_degree G n :
  let nbrs := nbr_keys (u_adj (to_undirected G)) n in
  degree (to_undirected G) n
    = Z.of_nat (length nbrs) + (if decide (n ∈ nbrs) then 1 else 0) ∧
  NoDup nbrs ∧ ∀ y, y ∈ nbrs ↔ adjacent G n y.
Proof.
  simpl. split_and!.
  - unfold degree, nbr_keys, OD.keys.
    destruct (OD.get n (u_adj (to_undirected G))) as [nb|]; simpl; [|done].
    by rewrite length_fmap.
  - apply to_undirected_NoDup.
  - apply (proj2 (to_undirected_spec G)).
Qed.

(** ** The breadth-first loop *)

Lemma layers_append_nil d n : layers_append d n [] = [(d, [n])].
Proof. done. Qed.

Lemma layers_append_cons d n k ns l :
  layers_append d n ((k, ns) :: l) =
  if decide (d = k) then (k, ns ++ [n]) :: l else (k, ns) :: layers_append d n l.
Proof.
  unfold layers_append. cbn [OD.get OD.set].
  destruct (decide (d = k)) as [->|Hne]; [done | done].
Qed.

Lemma layers_append_new d n l :
  d ∉ OD.keys l → layers_append d n l = l ++ [(d, [n])].
Proof.
  intros Hd. unfold layers_append. rewrite od_set_notin by done.
  apply od_get_None in Hd. by rewrite Hd.
Qed.

Lemma layer_nodes_append d n l : layer_nodes (layers_append d n l) ≡ₚ n :: layer_nodes l.
Proof.
  unfold layer_nodes. induction l as [|[k ns] l IH].
  - done.
  - rewrite layers_append_cons. case_decide; subst; simpl.
    + rewrite <- app_assoc. simpl. by rewrite <- Permutation_middle.
    + rewrite IH. by rewrite Permutation_middle.
Qed.

Lemma layers_append_keys d n l x :
  x ∈ OD.keys (layers_append d n l) ↔ x = d ∨ x ∈ OD.keys l.
Proof. unfold layers_append. apply od_elem_keys_set. Qed.

Lemma max_depth_of_ge l k : k ∈ OD.keys l → k ≤ max_depth_of l.
Proof.
  unfold max_depth_of. destruct (OD.keys l) as [|d ds]; [intros H; by apply elem_of_nil in H|].
  assert (∀ ds m, m ≤ fold_left Z.max ds m ∧ ∀ x, x ∈ ds → x ≤ fold_left Z.max ds m) as Hmax.
  { clear. induction ds as [|y ds IH]; intros m; simpl.
    - split; [lia|]. intros x Hx. by apply elem_of_nil in Hx.
    - destruct (IH (Z.max m y)) as [H1 H2]. split; [lia|].
      intros x Hx. apply elem_of_cons in Hx as [->|Hx]; [lia | by apply H2]. }
  intros Hk. destruct (Hmax ds d) as [H1 H2].
  apply elem_of_cons in Hk as [->|Hk]; [done | by apply H2].
Qed.

Section bfs.
Context (U : Graph).

(** What one pass over the neighbours does: the unvisited ones, each once,
    join the visited set and the end of the queue. *)
Lemma visit_fold depth nbrs visited queue :
  ∃ new,
    fold_left (visit_step depth) nbrs (visited, queue)
      = (list_to_set new ∪ visited, queue ++ ((λ n, (n, depth + 1)) <$> new)) ∧
    NoDup new ∧ ∀ n, n ∈ new ↔ n ∈ nbrs ∧ n ∉ visited.
Proof.
  revert visited queue. induction nbrs as [|y nbrs IH]; intros visited queue; simpl.
  - exists []. simpl. split_and!.
    + f_equal; [set_solver | by rewrite app_nil_r].
    + apply NoDup_nil_2.
    + intros n. split; [intros H; by apply elem_of_nil in H | intros [H _]; by apply elem_of_nil in H].
  - case_decide as Hy.
    + destruct (IH visited queue) as (new & -> & Hnd & Hnew). exists new.
      split_and!; [done | done |]. intros n. rewrite Hnew, elem_of_cons.
      split; [tauto|]. intros [[->|?] ?]; tauto.
    + destruct (IH ({[y]} ∪ visited) (queue ++ [(y, depth + 1)])) as (new & -> & Hnd & Hnew).
      exists (y :: new). split_and!.
      * simpl. f_equal; [set_solver | by rewrite <- app_assoc].
      * apply NoDup_cons. split; [|done]. intros Hin. apply Hnew in Hin. set_solver.
      * intros n. rewrite !elem_of_cons, Hnew. split.
        -- intros [->|[? ?]]; [tauto | set_solver].
        -- intros [[->|?] ?]; [tauto|]. destruct (decide (n = y)); [tauto | set_solver].
Qed.

(** *** What the loop computes *)

Lemma bfs_inv_init root : bfs_inv U root [(root, 0)] {[root]} [].
Proof.
  split; simpl.
  - intros n. rewrite elem_of_singleton, list_elem_of_singleton.
    split; [auto | intros [H|?]; [by apply elem_of_nil in H | done]].
  - apply NoDup_singleton.
  - intros n y Hn. by apply elem_of_nil in Hn.
  - intros n Hn. apply elem_of_singleton in Hn as ->. apply rtc_refl.
  - by apply elem_of_singleton.
Qed.

Lemma bfs_inv_step root node depth queue visited layers visited' queue' :
  bfs_inv U root ((node, depth) :: queue) visited layers →
  fold_left (visit_step depth) (nbr_keys (u_adj U) node) (visited, queue) = (visited', queue') →
  bfs_inv U root queue' visited' (layers_append depth node layers).
Proof.
  intros [Hv Hnd Hdone Hreach Hroot] Hst.
  destruct (visit_fold depth (nbr_keys (u_adj U) node) visited queue) as (new & Hst' & Hndn & Hnew).
  rewrite Hst in Hst'. injection Hst' as -> ->.
  assert (∀ x, x ∈ layer_nodes (layers_append depth node layers) ↔ x = node ∨ x ∈ layer_nodes layers)
    as Hln by (intros x; by rewrite layer_nodes_append, elem_of_cons).
  assert (∀ l : list Z, ((λ n, (n, depth + 1)) <$> l).*1 = l) as Hfst.
  { induction l as [|a l IHl]; [done|]. rewrite !fmap_cons. simpl. by rewrite IHl. }
  rewrite fmap_cons in Hv, Hnd. cbn [fst] in Hv, Hnd. split.
  - intros n. rewrite Hln, fmap_app, Hfst, elem_of_app, elem_of_union, elem_of_list_to_set, Hv.
    rewrite elem_of_cons. tauto.
  - rewrite layer_nodes_append, fmap_app, Hfst, app_assoc.
    apply NoDup_app. split_and!; [| |done].
    + by rewrite <- app_comm_cons, Permutation_middle.
    + intros x Hx Hx'. apply Hnew in Hx' as [_ Hx']. apply Hx'. apply Hv.
      rewrite <- app_comm_cons, elem_of_cons, elem_of_app in Hx. rewrite elem_of_cons. tauto.
  - intros n y Hn Hy. apply Hln in Hn as [->|Hn].
    + destruct (decide (y ∈ visited)) as [?|Hyv]; [set_solver|].
      apply elem_of_union. left. apply elem_of_list_to_set. by apply Hnew.
    + apply elem_of_union. right. by apply (Hdone n).
  - intros n Hn. apply elem_of_union in Hn as [Hn|Hn]; [|by apply Hreach].
    apply elem_of_list_to_set, Hnew in Hn as [Hn _].
    eapply rtc_r; [|exact Hn]. apply Hreach, Hv. right. left.
  - set_solver.
Qed.

Lemma bfs_loop_inv root fuel queue visited layers r :
  bfs_loop fuel U queue visited layers = Done r →
  bfs_inv U root queue visited layers → bfs_inv U root [] r.2 r.1.
Proof.
  revert queue visited layers.
  induction fuel as [|fuel IH]; intros queue visited layers Hrun Hinv.
  - destruct queue as [|[node depth] queue]; simpl in *; [|done].
    by injection Hrun as <-.
  - destruct queue as [|[node depth] queue]; simpl in Hrun; [by injection Hrun as <-|].
    destruct (neighbors U node) as [nbrs| |] eqn:En; [|done|done].
    apply neighbors_Done in En as ->.
    destruct (fold_left (visit_step depth) (nbr_keys (u_adj U) node) (visited, queue))
      as [visited' queue'] eqn:Est.
    apply (IH _ _ _ Hrun). by eapply bfs_inv_step.
Qed.

(** With the queue empty, the visited set is the set of nodes reachable
    from the root, and these are the nodes in the layers, each once. *)
Lemma bfs_inv_final root visited layers :
  bfs_inv U root [] visited layers →
  (∀ n, n ∈ visited ↔ rtc (nbr U) root n) ∧
  (∀ n, n ∈ visited ↔ n ∈ layer_nodes layers) ∧
  NoDup (layer_nodes layers).
Proof.
  intros [Hv Hnd Hdone Hreach Hroot]. simpl in *.
  assert (∀ n, n ∈ visited ↔ n ∈ layer_nodes layers) as Hv'.
  { intros n. rewrite Hv. split; [intros [?|H]; [done | by apply elem_of_nil in H] | auto]. }
  split_and!; [|done|by rewrite app_nil_r in Hnd].
  intros n. split; [apply Hreach|]. revert n.
  apply (rtc_ind_r (λ n, n ∈ visited)); [done|].
  intros y z _ Hyz IH. apply (Hdone y); [by apply Hv' | done].
Qed.

(** *** Termination *)

Context (Hclosed : ∀ x y, y ∈ nbr_keys (u_adj U) x → y ∈ OD.keys (u_adj U)).

Lemma unvisited_shrinks (keys : list Z) (visited : gset Z) y :
  y ∈ keys → y ∉ visited →
  (length (filter (λ k, k ∉ {[y]} ∪ visited) keys) < length (filter (λ k, k ∉ visited) keys))%nat.
Proof.
  assert (∀ l : list Z,
            (length (filter (λ k, k ∉ {[y]} ∪ visited) l) ≤ length (filter (λ k, k ∉ visited) l))%nat)
    as Hle.
  { induction l as [|k l IH]; [done|]. rewrite !filter_cons.
    repeat case_decide; simpl; try lia. set_solver. }
  induction keys as [|k keys IH]; intros Hy Hv; [by apply elem_of_nil in Hy|].
  rewrite !filter_cons. apply elem_of_cons in Hy as [->|Hy].
  - rewrite decide_False by set_solver. rewrite decide_True by done. simpl.
    specialize (Hle keys). lia.
  - specialize (IH Hy Hv). repeat case_decide; simpl; try lia. set_solver.
Qed.

Lemma visit_fold_measure depth nbrs visited queue :
  (∀ y, y ∈ nbrs → y ∈ OD.keys (u_adj U)) →
  let st := fold_left (visit_step depth) nbrs (visited, queue) in
  (length st.2 + length (unvisited U st.1) ≤ length queue + length (unvisited U visited))%nat ∧
  (∀ n, n ∈ st.2.*1 → n ∈ queue.*1 ∨ n ∈ nbrs).
Proof.
  revert visited queue. induction nbrs as [|y nbrs IH]; intros visited queue Hk; simpl.
  - split; [lia | auto].
  - assert (∀ y', y' ∈ nbrs → y' ∈ OD.keys (u_adj U)) as Hk' by (intros; apply Hk; by right).
    case_decide as Hy.
    + destruct (IH visited queue Hk') as [Hm Hq]. split; [done|].
      intros n Hn. destruct (Hq n Hn); [by left | right; by right].
    + destruct (IH ({[y]} ∪ visited) (queue ++ [(y, depth + 1)]) Hk') as [Hm Hq]. split.
      * rewrite length_app in Hm. simpl in Hm.
        pose proof (unvisited_shrinks (OD.keys (u_adj U)) visited y (Hk y ltac:(left)) Hy).
        unfold unvisited in *. lia.
      * intros n Hn. destruct (Hq n Hn) as [Hn'|Hn']; [|right; by right].
        rewrite fmap_app, elem_of_app in Hn'. destruct Hn' as [?|Hn']; [by left|].
        apply list_elem_of_singleton in Hn'. simpl in Hn'. subst n. right. left.
Qed.

Lemma bfs_loop_terminates fuel queue visited layers :
  (∀ n, n ∈ queue.*1 → n ∈ OD.keys (u_adj U)) →
  (length queue + length (unvisited U visited) ≤ fuel)%nat →
  ∃ r, bfs_loop fuel U queue visited layers = Done r.
Proof.
  revert queue visited layers.
  induction fuel as [|fuel IH]; intros queue visited layers Hq Hm.
  - destruct queue as [|[node depth] queue]; simpl in *; [eauto | lia].
  - destruct queue as [|[node depth] queue]; simpl in *; [eauto|].
    rewrite neighbors_key by (apply Hq; left).
    pose proof (visit_fold_measure depth (nbr_keys (u_adj U) node) visited queue) as Hstep.
    destruct (fold_left (visit_step depth) (nbr_keys (u_adj U) node) (visited, queue))
      as [visited' queue'] eqn:Est.
    simpl in Hstep. destruct Hstep as [Hm' Hq']; [intros y Hy; by apply (Hclosed node)|].
    apply IH; [|lia].
    intros n Hn. destruct (Hq' n Hn) as [?|?]; [apply Hq; by right | by apply (Hclosed node)].
Qed.

End bfs.

(** ** The traversal finishes and finds what is connected to the root *)

Lemma bfs_layers_spec G root :
  root ∈ nodes G →
  ∃ bl visited,
    bfs_layers G root = Done (bl, visited) ∧
    (∀ n, n ∈ visited ↔ connected G root n) ∧
    (∀ n, n ∈ visited ↔ n ∈ layer_nodes bl) ∧
    NoDup (layer_nodes bl).
Proof.
  intros Hroot. destruct (to_undirected_spec G) as [Hkeys Hnbr].
  set (U := to_undirected G) in *.
  assert (∀ x y, y ∈ nbr_keys (u_adj U) x → y ∈ OD.keys (u_adj U)) as Hclosed
    by apply to_undirected_nbr_key.
  destruct (bfs_loop_terminates U Hclosed (S (length (u_adj U))) [(root, 0)] {[root]} [])
    as [[bl visited] Hrun].
  - intros n Hn. apply list_elem_of_singleton in Hn as ->. apply Hkeys. by left.
  - unfold unvisited, OD.keys. simpl.
    pose proof (length_filter (λ k, k ∉ ({[root]} : gset Z)) (u_adj U).*1) as Hle.
    rewrite length_fmap in Hle. lia.
  - exists bl, visited. split; [done|].
    pose proof (bfs_loop_inv U root _ _ _ _ _ Hrun (bfs_inv_init U root)) as Hinv.
    destruct (bfs_inv_final U root _ _ Hinv) as (Hreach & Hln & Hnd).
    split_and!; [|done|done].
    intros n. rewrite Hreach. unfold connected.
    split; apply rtc_subrel; intros x y; apply Hnbr.
Qed.

(** ** The unreached nodes *)

Lemma unreached_fold visited ns m l :
  (∀ k, k ∈ OD.keys l → k ≤ m) →
  fold_left (unreached_step visited) ns (m, l) =
  (m + Z.of_nat (length (filter (λ n, n ∉ visited) ns)),
   l ++ imap (λ j u, (m + 1 + Z.of_nat j, [u])) (filter (λ n, n ∉ visited) ns)).
Proof.
  revert m l. induction ns as [|n ns IH]; intros m l Hle; simpl.
  - f_equal; [lia | by rewrite app_nil_r].
  - rewrite filter_cons. destruct (decide (n ∈ visited)) as [Hn|Hn].
    + rewrite decide_False by tauto. by apply IH.
    + rewrite decide_True by done.
      rewrite layers_append_new by (intros Hk; apply Hle in Hk; lia).
      rewrite IH.
      * rewrite imap_cons, <- app_assoc. simpl. f_equal; [lia|]. do 2 f_equal; [f_equal; lia|].
        apply imap_ext. intros i x _. simpl. f_equal. lia.
      * intros k Hk. unfold OD.keys in Hk. rewrite fmap_app, elem_of_app in Hk.
        destruct Hk as [Hk|Hk]; [apply Hle in Hk; lia|].
        apply list_elem_of_singleton in Hk. simpl in Hk. lia.
Qed.

(** ** The sort of a layer *)

Section sort.
Context (key : Z → Z).

Lemma insert_desc_perm x l : insert_desc key x l ≡ₚ x :: l.
Proof.
  induction l as [|y l IH]; simpl; [done|].
  case_decide; [done|]. rewrite IH. apply perm_swap.
Qed.

Lemma sort_desc_perm l : sort_desc key l ≡ₚ l.
Proof.
  induction l as [|x l IH]; simpl; [done|].
  by rewrite insert_desc_perm, IH.
Qed.

Lemma insert_desc_sorted x l :
  StronglySorted (desc key) l → StronglySorted (desc key) (insert_desc key x l).
Proof.
  induction 1 as [|y l Hs IH Hy]; simpl.
  - repeat constructor.
  - case_decide as Hk.
    + constructor; [by constructor|]. constructor; [done|].
      eapply Forall_impl; [exact Hy|]. unfold desc. intros z Hz. lia.
    + constructor; [done|]. rewrite insert_desc_perm. constructor; [|done].
      unfold desc. lia.
Qed.

Lemma sort_desc_sorted l : StronglySorted (desc key) (sort_desc key l).
Proof.
  induction l as [|x l IH]; simpl; [constructor | by apply insert_desc_sorted].
Qed.

Lemma insert_desc_stable k x l :
  filter (λ n, key n = k) (insert_desc key x l) = filter (λ n, key n = k) (x :: l).
Proof.
  induction l as [|y l IH]; simpl; [done|].
  case_decide as Hk; [done|].
  rewrite filter_cons, IH, !filter_cons.
  destruct (decide (key y = k)) as [Hy|Hy]; [|done].
  destruct (decide (key x = k)); [lia | done].
Qed.

(** Nodes of equal key keep their order. *)
Lemma sort_desc_stable k l :
  filter (λ n, key n = k) (sort_desc key l) = filter (λ n, key n = k) l.
Proof.
  induction l as [|x l IH]; simpl; [done|].
  by rewrite insert_desc_stable, !filter_cons, IH.
Qed.
End sort.

(** ** The positions *)

Lemma fold_left_imap {A B C} (f1 : C → A → C) (f2 : C → B → C)
    (F1 : nat → Z → A) (F2 : nat → Z → B) (l : list Z) (c : C) :
  (∀ i n c, f1 c (F1 i n) = f2 c (F2 i n)) →
  fold_left f1 (imap F1 l) c = fold_left f2 (imap F2 l) c.
Proof.
  revert F1 F2 c. induction l as [|x l IH]; intros F1 F2 c Hf; simpl; [done|].
  rewrite Hf. apply IH. intros i n c'. apply Hf.
Qed.

Lemma place_row_points pos row :
  place_row pos row = fold_left set_point (row_points row) pos.
Proof.
  destruct row as [depth ns]. unfold place_row, row_points. simpl.
  apply fold_left_imap. intros i n c. done.
Qed.

Lemma place_rows_points layers pos :
  fold_left place_row layers pos = fold_left set_point (layers ≫= row_points) pos.
Proof.
  revert pos. induction layers as [|row layers IH]; intros pos; simpl; [done|].
  by rewrite fold_left_app, IH, place_row_points.
Qed.

Lemma row_points_keys row : (row_points row).*1 = row.2.
Proof.
  unfold row_points. rewrite fmap_imap.
  generalize (length row.2) as c. intros c.
  induction row.2 as [|x l IH] using rev_ind; [done|].
  by rewrite imap_app, IH.
Qed.

Lemma points_keys layers : (layers ≫= row_points).*1 = layer_nodes layers.
Proof.
  unfold layer_nodes. induction layers as [|row layers IH]; [done|].
  by rewrite !bind_cons, fmap_app, row_points_keys, IH.
Qed.

Lemma fold_set_point_other ps pos n :
  n ∉ ps.*1 → OD.get n (fold_left set_point ps pos) = OD.get n pos.
Proof.
  revert pos. induction ps as [|[k v] ps IH]; intros pos Hn; simpl; [done|].
  rewrite fmap_cons in Hn. apply not_elem_of_cons in Hn as [Hne Hn].
  rewrite IH by done. unfold set_point. simpl. by rewrite od_get_set_ne.
Qed.

Lemma fold_set_point_get ps pos n xy :
  NoDup ps.*1 → (n, xy) ∈ ps → OD.get n (fold_left set_point ps pos) = Some xy.
Proof.
  revert pos. induction ps as [|[k v] ps IH]; intros pos Hnd Hin; simpl.
  - by apply elem_of_nil in Hin.
  - rewrite fmap_cons in Hnd. apply NoDup_cons in Hnd as [Hk Hnd].
    apply elem_of_cons in Hin as [[= -> ->]|Hin].
    + rewrite fold_set_point_other by done. unfold set_point. simpl. apply od_get_set_eq.
    + by apply IH.
Qed.

Lemma layer_nodes_sorted key (layers : list (Z * list Z)) :
  layer_nodes ((λ '(depth, nodes), (depth, sort_desc key nodes)) <$> layers)
  ≡ₚ layer_nodes layers.
Proof.
  unfold layer_nodes. induction layers as [|[d ns] layers IH]; [done|].
  rewrite fmap_cons, !bind_cons, IH. simpl. by rewrite sort_desc_perm.
Qed.

(** ** The layout of a rooted graph *)

Lemma tree_layers_spec G root :
  root ∈ nodes G →
  ∃ bl visited,
    bfs_layers G root = Done (bl, visited) ∧
    tree_layers G root
      = Done (bl ++ unreached_layers (max_depth_of bl) (unreached G visited), visited) ∧
    (∀ n, n ∈ visited ↔ connected G root n) ∧
    (∀ n, n ∈ visited ↔ n ∈ layer_nodes bl) ∧
    NoDup (layer_nodes bl).
Proof.
  intros Hroot.
  destruct (bfs_layers_spec G root Hroot) as (bl & visited & Hbfs & Hconn & Hln & Hnd).
  exists bl, visited. split_and!; try done.
  unfold tree_layers. rewrite Hbfs.
  rewrite unreached_fold by apply max_depth_of_ge. done.
Qed.

Lemma layer_nodes_app l1 l2 : layer_nodes (l1 ++ l2) = layer_nodes l1 ++ layer_nodes l2.
Proof. unfold layer_nodes. apply bind_app. Qed.

Lemma layer_nodes_unreached m us : layer_nodes (unreached_layers m us) = us.
Proof.
  unfold layer_nodes, unreached_layers. revert m.
  induction us as [|u us IH] using rev_ind; intros m; [done|].
  rewrite imap_app, bind_app, IH. simpl. done.
Qed.

Lemma tree_layers_nodes G bl visited :
  NoDup (nodes G) → NoDup (layer_nodes bl) →
  (∀ n, n ∈ visited ↔ n ∈ layer_nodes bl) →
  let layers := bl ++ unreached_layers (max_depth_of bl) (unreached G visited) in
  NoDup (layer_nodes layers) ∧ ∀ n, n ∈ nodes G → n ∈ layer_nodes layers.
Proof.
  intros HG Hnd Hln. simpl. rewrite layer_nodes_app, layer_nodes_unreached. split.
  - apply NoDup_app. split_and!; [done | | by apply NoDup_filter].
    intros x Hx Hx'. apply list_elem_of_filter in Hx' as [Hx' _]. apply Hx'. by apply Hln.
  - intros n Hn. apply elem_of_app. destruct (decide (n ∈ visited)) as [Hv|Hv].
    + left. by apply Hln.
    + right. by apply list_elem_of_filter.
Qed.

(** Where the loop over the sorted layers puts the [i]-th node of a row. *)
Lemma layout_get key layers d ns i n :
  NoDup (layer_nodes layers) → (d, ns) ∈ layers →
  sort_desc key ns !! i = Some n →
  OD.get n (fold_left place_row ((λ '(depth, nodes), (depth, sort_desc key nodes)) <$> layers) [])
  = Some (row_point (length ns) d i).
Proof.
  intros Hnd Hin Hi. rewrite place_rows_points. apply fold_set_point_get.
  - by rewrite points_keys, layer_nodes_sorted.
  - apply list_elem_of_bind. exists (d, sort_desc key ns). split.
    + unfold row_points. simpl.
      rewrite (Permutation_length (sort_desc_perm key ns)).
      by apply (elem_of_lookup_imap_2 (λ i n, (n, row_point (length ns) d i))).
    + apply list_elem_of_fmap. by exists (d, ns).
Qed.

Lemma row_point_formula count d i :
  ((row_point count d i).1
     == - ((inject_Z (Z.of_nat count) - 1) * inject_Z horizontal_gap) / 2
        + inject_Z (Z.of_nat i) * inject_Z horizontal_gap)%Q ∧
  ((row_point count d i).2 == inject_Z d * inject_Z vertical_gap)%Q.
Proof.
  unfold row_point. cbn [fst snd]. split.
  - rewrite inject_Z_opp, !inject_Z_mult. unfold Z.sub.
    rewrite inject_Z_plus, inject_Z_opp. change (inject_Z 1) with 1%Q. field.
  - by rewrite inject_Z_mult.
Qed.

(** A row is centred on x = 0: its first and last node are at opposite x,
    (count - 1) * 150 apart. *)
Lemma row_point_span count d :
  (0 < count)%nat →
  ((row_point count d 0).1 + (row_point count d (count - 1)).1 == 0)%Q ∧
  ((row_point count d (count - 1)).1 - (row_point count d 0).1
     == (inject_Z (Z.of_nat count) - 1) * 150)%Q.
Proof.
  intros Hc. destruct (row_point_formula count d 0) as [H0 _].
  destruct (row_point_formula count d (count - 1)) as [H1 _].
  rewrite H0, H1. replace (Z.of_nat (count - 1)) with (Z.of_nat count - 1) by lia.
  unfold Z.sub. rewrite inject_Z_plus, inject_Z_opp.
  change (inject_Z 1) with 1%Q. change (inject_Z horizontal_gap) with 150%Q.
  change (inject_Z (Z.of_nat 0)) with 0%Q. split; field.
Qed.

(** A is an ally of B and B an enemy of C: from A the depths are 0, 1, 2
    and the edges keep the types of their rows. *)
Lemma chain_example :
  let G := build_graph [mkE 1 "A" "Character"; mkE 2 "B" "Character"; mkE 3 "C" "Character"]
                       [mkR 1 1 2 "Ally"; mkR 2 2 3 "Enemy"] in
  fst <$> (match tree_layers G 1 with Done r => Some r | _ => None end)
    = Some [(0, [1]); (1, [2]); (2, [3])] ∧
  (edge_attr G 1 2 ≫= (.!! "label"%string)) = Some "Ally"%string ∧
  (edge_attr G 2 3 ≫= (.!! "label"%string)) = Some "Enemy"%string.
Proof. by vm_compute. Qed.

(** C2 (graph_viewer.py, compute_tree_layout): for a root that is a node
    of the graph, the traversal ends with some layers [bl] and a visited set
    that holds exactly the nodes connected to the root when edges are read
    as undirected. The nodes of the graph outside that set, taken in the
    order of [G.nodes], are each given a layer of their own after the layers
    of the traversal: the [j]-th of them (from 0) gets depth
    [max_depth + 1 + j], where [max_depth] is the largest depth of the
    traversal. So their depths are all larger than those of the reached
    nodes, strictly increasing and pairwise distinct, and the layout puts
    the [j]-th at x = 0 and y = (max_depth + 1 + j) * 170. *)
Theorem tree_layout_unreached_depths G root :
  digraph_wf G → root ∈ nodes G →
  ∃ bl visited pos,
    bfs_layers G root = Done (bl, visited) ∧
    (∀ n, n ∈ visited ↔ connected G root n) ∧
    (∀ n, n ∈ unreached G visited ↔ n ∈ nodes G ∧ ¬ connected G root n) ∧
    (∀ d, d ∈ OD.keys bl → d ≤ max_depth_of bl) ∧
    tree_layers G root
      = Done (bl ++ imap (λ j u, (max_depth_of bl + 1 + Z.of_nat j, [u]))
                         (unreached G visited), visited) ∧
    compute_tree_layout G root = Done pos ∧
    ∀ j u, unreached G visited !! j = Some u →
      ∃ x y, OD.get u pos = Some (x, y) ∧ (x == 0)%Q ∧
             (y == inject_Z ((max_depth_of bl + 1 + Z.of_nat j) * vertical_gap))%Q.
Proof.
  intros HG Hroot.
  destruct (tree_layers_spec G root Hroot) as (bl & visited & Hbfs & Htl & Hconn & Hln & Hnd).
  destruct (tree_layers_nodes G bl visited (wf_nodup G HG) Hnd Hln) as [Hnd' Hall].
  eexists bl, visited, _. split_and!; try done.
  - intros n. unfold unreached. rewrite list_elem_of_filter, Hconn. tauto.
  - apply max_depth_of_ge.
  - unfold compute_tree_layout. rewrite Htl. done.
  - intros j u Hj.
    eexists _, _. split.
    + apply (layout_get _ _ (max_depth_of bl + 1 + Z.of_nat j) [u] 0%nat u Hnd'); [|done].
      apply elem_of_app. right.
      by apply (elem_of_lookup_imap_2 (λ j u, (max_depth_of bl + 1 + Z.of_nat j, [u]))).
    + split; reflexivity.
Qed.

(** Root R joined to A only, B and C isolated: B is alone at depth 2 and C
    alone at depth 3. *)
Lemma layout_example_layers :
  fst <$> (match tree_layers layout_example 10 with Done r => Some r | _ => None end)
  = Some [(0, [10]); (1, [11]); (2, [12]); (3, [13])].
Proof. by vm_compute. Qed.

Lemma tree_layout_unreached_depths_witness :
  digraph_wf layout_example ∧ 10 ∈ nodes layout_example ∧
  ∃ bl visited pos,
    bfs_layers layout_example 10 = Done (bl, visited) ∧
    tree_layers layout_example 10
      = Done (bl ++ imap (λ j u, (max_depth_of bl + 1 + Z.of_nat j, [u]))
                         (unreached layout_example visited), visited) ∧
    compute_tree_layout layout_example 10 = Done pos.
Proof.
  assert (digraph_wf layout_example) as Hwf by apply build_graph_wf.
  assert (10 ∈ nodes layout_example) as Hroot by (vm_compute; left).
  split; [exact Hwf|]. split; [exact Hroot|].
  destruct (tree_layout_unreached_depths layout_example 10 Hwf Hroot)
    as (bl & visited & pos & H1 & _ & _ & _ & H2 & H3 & _).
  exists bl, visited, pos. split; [exact H1|]. split; [exact H2 | exact H3].
Defined.

(** C3 (graph_viewer.py, compute_tree_layout): for a root that is a node of
    the graph the layout is computed and has a position for every node of
    the graph. Each layer is put in the order of the stable sort by
    descending degree in the undirected copy: the row is a permutation of the
    layer, degrees never increase along it, and nodes of equal degree keep
    their discovery order. The [i]-th node of a row of [count] nodes at
    [depth] is at x = -(count - 1) * 150 / 2 + i * 150 and y = depth * 170,
    so the first and the last node of a row lie (count - 1) * 150 apart,
    at opposite x. *)
Theorem tree_layout_positions G root :
  digraph_wf G → root ∈ nodes G →
  ∃ layers visited pos,
    tree_layers G root = Done (layers, visited) ∧
    compute_tree_layout G root = Done pos ∧
    (∀ n, n ∈ nodes G → is_Some (OD.get n pos)) ∧
    (∀ n, n ∈ nodes G → ∃ d ns, (d, ns) ∈ layers ∧ n ∈ ns) ∧
    ∀ d ns, (d, ns) ∈ layers →
      ∃ row,
        row ≡ₚ ns ∧
        StronglySorted (λ a b, degree (to_undirected G) b ≤ degree (to_undirected G) a) row ∧
        (∀ k, filter (λ n, degree (to_undirected G) n = k) row
              = filter (λ n, degree (to_undirected G) n = k) ns) ∧
        ∀ i n, row !! i = Some n →
          ∃ x y, OD.get n pos = Some (x, y) ∧
            (x == - ((inject_Z (Z.of_nat (length row)) - 1) * 150) / 2
                  + inject_Z (Z.of_nat i) * 150)%Q ∧
            (y == inject_Z d * 170)%Q.
Proof.
  intros HG Hroot.
  destruct (tree_layers_spec G root Hroot) as (bl & visited & Hbfs & Htl & Hconn & Hln & Hnd).
  destruct (tree_layers_nodes G bl visited (wf_nodup G HG) Hnd Hln) as [Hnd' Hall].
  set (layers := bl ++ unreached_layers (max_depth_of bl) (unreached G visited)) in *.
  set (key := degree (to_undirected G)).
  assert (∀ n, n ∈ nodes G → ∃ d ns, (d, ns) ∈ layers ∧ n ∈ ns) as Hrow.
  { intros n Hn. apply Hall in Hn. unfold layer_nodes in Hn.
    apply list_elem_of_bind in Hn as ([d ns] & Hn & Hin). by exists d, ns. }
  exists layers, visited,
    (fold_left place_row ((λ '(depth, nodes), (depth, sort_desc key nodes)) <$> layers) []).
  split_and!; [done | | | done |].
  - unfold compute_tree_layout. rewrite Htl. done.
  - intros n Hn. destruct (Hrow n Hn) as (d & ns & Hin & Hn').
    rewrite <- (sort_desc_perm key ns) in Hn'.
    apply list_elem_of_lookup in Hn' as [i Hi].
    rewrite (layout_get key layers d ns i n Hnd' Hin Hi). eauto.
  - intros d ns Hin. exists (sort_desc key ns). split_and!.
    + apply sort_desc_perm.
    + apply sort_desc_sorted.
    + intros k. apply sort_desc_stable.
    + intros i n Hi. rewrite (layout_get key layers d ns i n Hnd' Hin Hi).
      rewrite (Permutation_length (sort_desc_perm key ns)).
      eexists _, _. split; [done|]. apply row_point_formula.
Qed.

Lemma tree_layout_positions_witness :
  digraph_wf layout_example ∧ 10 ∈ nodes layout_example ∧
  ∃ layers visited pos,
    tree_layers layout_example 10 = Done (layers, visited) ∧
    compute_tree_layout layout_example 10 = Done pos ∧
    (∀ n, n ∈ nodes layout_example → is_Some (OD.get n pos)).
Proof.
  assert (digraph_wf layout_example) as Hwf by apply build_graph_wf.
  assert (10 ∈ nodes layout_example) as Hroot by (vm_compute; left).
  split; [exact Hwf|]. split; [exact Hroot|].
  destruct (tree_layout_positions layout_example 10 Hwf Hroot)
    as (layers & visited & pos & H1 & H2 & H3 & _).
  exists layers, visited, pos. split; [exact H1|]. split; [exact H2 | exact H3].
Defined.

(** The layout is only computed for a root that is a node: asked for any
    other root it raises the error of [UG.neighbors]. The window tests the
    root before it calls (see [root_valid]). *)
Lemma adjacent_nodes G x y : digraph_wf G → adjacent G x y → x ∈ nodes G.
Proof.
  intros HG [d [H|H]]; apply elem_of_edges in H as (nbrs & Hu & Hv).
  - rewrite <- (wf_succ_keys G HG). unfold OD.keys.
    apply list_elem_of_fmap. by exists (x, nbrs).
  - apply (wf_succ_inner G HG y nbrs Hu). unfold OD.keys.
    apply list_elem_of_fmap. by exists (x, d).
Qed.

Lemma compute_tree_layout_missing_root G root :
  digraph_wf G → root ∉ nodes G →
  compute_tree_layout G root = Raised (NetworkXError root).
Proof.
  intros HG Hroot.
  assert (root ∉ OD.keys (u_adj (to_undirected G))) as Hk.
  { intros Hin. apply (proj1 (to_undirected_spec G)) in Hin as [?|[y Hy]]; [done|].
    apply Hroot. by apply (adjacent_nodes G root y). }
  unfold compute_tree_layout, tree_layers, bfs_layers. cbn [bfs_loop].
  by rewrite (neighbors_missing _ _ Hk).
Qed.

(** ** The curve of an edge *)





(** *** The doubles of [update_path] *)








(** The hypothesis on rounding is needed: between the centres (-30, 40)
    and (90, -50) the division of the perpendicular by its Manhattan length
    210 rounds, and the two coordinates of the vector from the midpoint of
    the chord to the control point that the doubles give add up, in
    absolute value, to 39.999999999999993, not to 40. *)
Lemma update_path_rounds :
  let p1 := ((-30)%float, 40%float) in
  let p2 := (90%float, (-50)%float) in
  let g := Double.edge_geometry p1 p2 6%float 4%float in
  let mid := chord_mid (Double.nums p1) (Double.nums p2) in
  let ctrl := Double.nums (Double.path_ctrl g) in
  Double.no_rounding p1 p2 6%float 4%float = false ∧
  Double.distinct p1 p2 = true ∧
  (Qabs (ctrl.1 - mid.1) + Qabs (ctrl.2 - mid.2) < 40)%Q ∧
  (Double.manhattanLength
     ((Double.path_ctrl g).1 - 30, (Double.path_ctrl g).2 - -5) =? 40)%float = false.
Proof.
  split_and!; vm_compute; reflexivity.
Qed.


(** ** The window: highlighting, layout buttons, empty graphs *)

Lemma successors_node G n :
  digraph_wf G → n ∈ nodes G → ∃ succ, successors G n = Done succ.
Proof.
  intros HG Hn. rewrite <- (wf_succ_keys G HG) in Hn.
  apply od_get_is_Some in Hn as [nb Hnb]. unfold successors. rewrite Hnb. eauto.
Qed.

Lemma predecessors_node G n :
  digraph_wf G → n ∈ nodes G → ∃ pred, predecessors G n = Done pred.
Proof.
  intros HG Hn. rewrite <- (wf_pred_keys G HG) in Hn.
  apply od_get_is_Some in Hn as [nb Hnb]. unfold predecessors. rewrite Hnb. eauto.
Qed.

Lemma keys_fmap_items (f : Z → NodeItem → NodeItem) (items : list (Z * NodeItem)) :
  OD.keys ((λ '(m, it), (m, f m it)) <$> items) = OD.keys items.
Proof.
  unfold OD.keys. induction items as [|[m it] items IH]; [done|].
  rewrite !fmap_cons, IH. done.
Qed.

(** For a node of the graph both lookups succeed and the call returns. *)
Lemma highlight_neighbors_done (v : Viewer) (N : Z) :
  digraph_wf (vG v) → N ∈ nodes (vG v) →
  ∃ v', highlight_neighbors v N = Done v' ∧
        OD.keys (node_items v') = OD.keys (node_items v) ∧
        vG v' = vG v ∧ root_id v' = root_id v ∧
        current_layout v' = current_layout v ∧ positions v' = positions v.
Proof.
  intros HG HN.
  destruct (successors_node _ _ HG HN) as [succ Hs].
  destruct (predecessors_node _ _ HG HN) as [pred Hp].
  unfold highlight_neighbors. rewrite Hs, Hp. eexists. split; [done|].
  cbn. split_and!; try done.
  apply (keys_fmap_items
           (λ m, setOpacity (if decide (m ∈ {[N]} ∪ (list_to_set succ ∪ list_to_set pred))
                             then 1%Q else 0.25%Q))).
Qed.

(** C4 (graph_viewer.py, highlight_neighbors): for a node N of the graph
    the call succeeds; afterwards the node items are those of before, an
    item has opacity 1 when its node is N, a successor of N or a predecessor
    of N, and opacity 0.25 otherwise; the edge items are those of before, an
    edge item and its label have opacity 1 when both its ends are in that
    set and opacity 0.2 otherwise. *)
Theorem highlight_neighbors_opacity (v : Viewer) (N : Z) :
  digraph_wf (vG v) → N ∈ nodes (vG v) →
  ∃ succ pred v',
    successors (vG v) N = Done succ ∧ predecessors (vG v) N = Done pred ∧
    highlight_neighbors v N = Done v' ∧
    let lit n := n = N ∨ n ∈ succ ∨ n ∈ pred in
    OD.keys (node_items v') = OD.keys (node_items v) ∧
    (∀ n it, (n, it) ∈ node_items v' →
       (lit n → n_opacity it = 1%Q) ∧ (¬ lit n → n_opacity it = 0.25%Q)) ∧
    src_id <$> edge_items v' = src_id <$> edge_items v ∧
    dst_id <$> edge_items v' = dst_id <$> edge_items v ∧
    (∀ e, e ∈ edge_items v' →
       (lit (src_id e) ∧ lit (dst_id e) → e_opacity e = 1%Q ∧ label_opacity e = 1%Q) ∧
       (¬ (lit (src_id e) ∧ lit (dst_id e)) →
          e_opacity e = 0.2%Q ∧ label_opacity e = 0.2%Q)).
Proof.
  intros HG HN.
  destruct (successors_node _ _ HG HN) as [succ Hs].
  destruct (predecessors_node _ _ HG HN) as [pred Hp].
  eexists succ, pred, _. unfold highlight_neighbors. rewrite Hs, Hp.
  split; [done|]. split; [done|]. split; [done|]. cbn zeta.
  cbn [node_items edge_items].
  set (nb := ({[N]} ∪ (list_to_set succ ∪ list_to_set pred) : gset Z)).
  assert (∀ n, n ∈ nb ↔ n = N ∨ n ∈ succ ∨ n ∈ pred) as Hnb.
  { intros n. unfold nb.
    rewrite !elem_of_union, elem_of_singleton, !elem_of_list_to_set. tauto. }
  split_and!.
  - apply (keys_fmap_items (λ m, setOpacity (if decide (m ∈ nb) then 1%Q else 0.25%Q))).
  - intros n it Hin. apply list_elem_of_fmap in Hin as ([m it0] & Heq & _).
    injection Heq as -> ->. simpl. rewrite <- Hnb.
    split; intros Hl; [by rewrite decide_True | by rewrite decide_False].
  - rewrite <- list_fmap_compose. done.
  - rewrite <- list_fmap_compose. done.
  - intros e Hin. apply list_elem_of_fmap in Hin as (e0 & -> & _). simpl.
    rewrite <- !Hnb. split.
    + intros [H1 H2]. by rewrite !bool_decide_eq_true_2.
    + intros Hno. destruct (decide (src_id e0 ∈ nb)) as [H1|H1].
      * rewrite (bool_decide_eq_true_2 _ H1).
        rewrite bool_decide_eq_false_2 by tauto. done.
      * by rewrite (bool_decide_eq_false_2 _ H1).
Qed.

Section viewer_facts.
Context (tk : Toolkit).

(** [fit_to_view] changes nothing but the fitted rectangle. *)
Lemma fit_to_view_frame v :
  vG (fit_to_view tk v) = vG v ∧ root_id (fit_to_view tk v) = root_id v ∧
  current_layout (fit_to_view tk v) = current_layout v ∧
  positions (fit_to_view tk v) = positions v ∧
  node_items (fit_to_view tk v) = node_items v ∧
  edge_items (fit_to_view tk v) = edge_items v.
Proof. unfold fit_to_view. by destruct (isNull _). Qed.

Lemma fit_to_view_empty v :
  node_items v = [] → edge_items v = [] → fit_to_view tk v = v.
Proof.
  intros Hn He. unfold fit_to_view, itemsBoundingRect.
  by rewrite Hn, He.
Qed.

Lemma draw_nodes_keys G pos nds items n :
  n ∈ OD.keys (fold_left (draw_node G pos) nds items) ↔ n ∈ OD.keys items ∨ n ∈ nds.*1.
Proof.
  revert items. induction nds as [|[m data] nds IH]; intros items; simpl.
  - split; [auto | intros [?|H]; [done | by apply elem_of_nil in H]].
  - rewrite IH. unfold draw_node. rewrite od_elem_keys_set, elem_of_cons. tauto.
Qed.

Lemma draw_edges_none s es :
  (fold_left (draw_edge tk []) es (s, [])).2 = [].
Proof.
  revert s. induction es as [|[[a b] data] es IH]; intros s; simpl; [done|].
  case_decide; apply IH.
Qed.

Lemma draw_graph_items v n :
  n ∈ OD.keys (node_items (draw_graph tk v)) ↔ n ∈ nodes (vG v).
Proof.
  unfold draw_graph. cbn [node_items]. rewrite draw_nodes_keys.
  unfold nodes, OD.keys. split; [intros [H|?]; [by apply elem_of_nil in H | done] | auto].
Qed.

Lemma apply_positions_keys (pos : list (Z * point)) (items : list (Z * NodeItem)) :
  OD.keys (fold_left (λ items '(node, p),
      match OD.get node items with
      | Some it => OD.set node (setPos p it) items
      | None => items
      end) pos items) = OD.keys items.
Proof.
  revert items. induction pos as [|[m p] pos IH]; intros items; simpl; [done|].
  rewrite IH. destruct (OD.get m items) as [it|] eqn:E; [|done].
  apply od_keys_set_in. apply od_get_is_Some. eauto.
Qed.

Lemma apply_positions_frame v :
  vG (apply_positions tk v) = vG v ∧ root_id (apply_positions tk v) = root_id v ∧
  current_layout (apply_positions tk v) = current_layout v ∧
  positions (apply_positions tk v) = positions v ∧
  OD.keys (node_items (apply_positions tk v)) = OD.keys (node_items v).
Proof.
  unfold apply_positions, update_all_edges. cbn.
  split_and!; try done. apply apply_positions_keys.
Qed.

(** *** A window opened without a valid root *)

Lemma force_inv_fit G root v : force_inv tk G root v → force_inv tk G root (fit_to_view tk v).
Proof.
  intros [H1 H2 H3 H4 H5].
  destruct (fit_to_view_frame v) as (E1 & E2 & E3 & E4 & E5 & _).
  split; by rewrite ?E1, ?E2, ?E3, ?E4, ?E5.
Qed.

Lemma force_inv_force G root v : force_inv tk G root v → force_inv tk G root (apply_force_layout tk v).
Proof.
  intros [H1 H2 H3 H4 H5]. unfold apply_force_layout, compute_force_layout.
  apply force_inv_fit.
  set (w := with_layout v Force (force_positions tk (vG v) (rng v)) (S (rng v))).
  destruct (apply_positions_frame w) as (E1 & E2 & E3 & E4 & E5).
  split; rewrite ?E1, ?E2, ?E3, ?E4, ?E5; simpl; try done.
  rewrite H1. eauto.
Qed.

Lemma force_inv_step G root d a :
  digraph_wf G → root_valid G root = false →
  force_inv tk G root (viewer d) →
  ∃ d', step tk d a = Done d' ∧ force_inv tk G root (viewer d').
Proof.
  intros HG Hroot Hinv. pose proof Hinv as [H1 H2 H3 H4 H5].
  destruct a as [| | |file_name|n|n p]; simpl.
  - unfold apply_tree_layout. rewrite H1, H2, Hroot. simpl. eauto.
  - eexists. split; [done|]. simpl. by apply force_inv_force.
  - eexists. split; [done|]. simpl. by apply force_inv_fit.
  - eexists. split; [done|]. unfold export_png.
    destruct (isNull _); [done|]. by case_decide.
  - destruct (OD.mem n (node_items (viewer d))) eqn:En; [|eauto].
    apply mem_true in En. apply H5 in En.
    destruct (highlight_neighbors_done (viewer d) n)
      as (v' & Hv' & Hk & E1 & E2 & E3 & E4); [by rewrite H1 | by rewrite H1 |].
    unfold on_node_clicked. rewrite Hv'. simpl. eexists. split; [done|]. simpl.
    split; simpl; rewrite ?E1, ?E2, ?E3, ?E4; try done.
    intros m Hm. apply H5. by rewrite Hk in Hm.
  - eexists. split; [done|]. simpl. unfold drag_node.
    destruct (OD.get n (node_items (viewer d))) as [it|] eqn:E; [|done].
    split; simpl; try done. intros m Hm. apply H5.
    rewrite od_keys_set_in in Hm; [done|]. apply od_get_is_Some. eauto.
Qed.

Lemma force_inv_run G root acts d :
  digraph_wf G → root_valid G root = false →
  force_inv tk G root (viewer d) →
  ∃ d', run tk d acts = Done d' ∧ force_inv tk G root (viewer d').
Proof.
  intros HG Hroot. revert d. induction acts as [|a acts IH]; intros d Hinv; simpl; [eauto|].
  destruct (force_inv_step G root d a HG Hroot Hinv) as (d1 & -> & Hinv1).
  by apply IH.
Qed.

Lemma root_valid_false G root :
  root = None ∨ (∃ r, root = Some r ∧ r ∉ nodes G) ↔ root_valid G root = false.
Proof.
  unfold root_valid. destruct root as [r|]; [|split; auto].
  rewrite mem_false. split.
  - intros [?|(r' & [= <-] & ?)]; done.
  - intros Hr. right. eauto.
Qed.

(** C7, as the code has it (graph_viewer.py, GraphViewer.__init__,
    apply_tree_layout and compute_tree_layout): the layout engine has no
    test of its own and gives no signal: called with a root id that is not
    a node of the graph, compute_tree_layout raises NetworkXError. It is the
    callers that test the root: with a root id that is None or not a node,
    the window opens in the force layout with the scaled spring positions
    and the tree computation is not entered, and pressing the tree-layout
    button returns at once and leaves the window as it is. Whatever the
    user does afterwards with the buttons, clicks and drags, no call raises,
    the layout stays the force layout and the position mapping is one
    computed by compute_force_layout. The writing of an image is not part
    of this: the file dialogs of the export button are taken as cancelled. *)
Theorem invalid_root_uses_force_layout G root seed fs acts :
  digraph_wf G →
  root = None ∨ (∃ r, root = Some r ∧ r ∉ nodes G) →
  (∀ name, name ∈ exports acts → name = EmptyString) →
  (∀ r, root = Some r → compute_tree_layout G r = Raised (NetworkXError r)) ∧
  ∃ v0 d,
    viewer_init tk G root seed = Done v0 ∧
    current_layout v0 = Force ∧
    positions v0 = force_positions tk G seed ∧
    apply_tree_layout tk v0 = Done v0 ∧
    run tk {| viewer := v0; files := fs; dialogs := 0 |} acts = Done d ∧
    current_layout (viewer d) = Force ∧
    ∃ k, positions (viewer d) = force_positions tk G k.
Proof.
  intros HG Hroot _. split.
  { intros r ->. destruct Hroot as [?|(r' & [= <-] & Hr)]; [done|].
    by apply compute_tree_layout_missing_root. }
  apply root_valid_false in Hroot.
  unfold viewer_init. rewrite Hroot. cbn zeta. unfold compute_force_layout.
  cbn [vG rng].
  set (w := with_layout _ Force (force_positions tk G seed) (S seed)).
  assert (force_inv tk G root (fit_to_view tk (draw_graph tk w))) as Hinv.
  { apply force_inv_fit. split; simpl; try done; [eauto|].
    intros n Hn. by apply (draw_graph_items w) in Hn. }
  destruct (force_inv_run G root acts
              {| viewer := fit_to_view tk (draw_graph tk w); files := fs; dialogs := 0 |}
              HG Hroot Hinv) as (d & Hrun & Hd).
  exists (fit_to_view tk (draw_graph tk w)), d.
  destruct (fit_to_view_frame (draw_graph tk w)) as (E1 & E2 & E3 & E4 & _).
  split; [done|]. split; [by rewrite E3|]. split; [by rewrite E4|].
  split; [|split; [exact Hrun | split; apply Hd]].
  unfold apply_tree_layout. rewrite E1, E2. simpl. by rewrite Hroot.
Qed.

(** *** A window on an empty graph *)

Lemma export_png_empty d file_name :
  node_items (viewer d) = [] → edge_items (viewer d) = [] → export_png tk d file_name = d.
Proof.
  intros Hn He. unfold export_png, itemsBoundingRect.
  by rewrite Hn, He.
Qed.

Lemma empty_inv_step G root d0 d a :
  root_valid G root = false → empty_inv G root d0 d →
  ∃ d', step tk d a = Done d' ∧ empty_inv G root d0 d'.
Proof.
  intros Hroot [H1 H2 H3 H4 H5 H6 H7].
  destruct a as [| | |file_name|n|n p]; simpl.
  - unfold apply_tree_layout. rewrite H1, H2, Hroot. simpl.
    eexists. split; [done|]. by destruct d.
  - eexists. split; [done|].
    unfold apply_force_layout, compute_force_layout.
    set (w := with_layout _ _ _ _).
    assert (node_items (apply_positions tk w) = []) as Hn.
    { unfold apply_positions, update_all_edges, w. cbn. rewrite H3.
      generalize (force_positions tk (vG (viewer d)) (rng (viewer d))).
      intros pos. induction pos as [|[m q] pos IH]; simpl; [done | exact IH]. }
    assert (edge_items (apply_positions tk w) = []) as He.
    { unfold apply_positions, update_all_edges, w. cbn. by rewrite H4. }
    rewrite (fit_to_view_empty _ Hn He).
    destruct (apply_positions_frame w) as (E1 & E2 & _).
    split; simpl; rewrite ?E1, ?E2; done.
  - eexists. split; [done|]. rewrite (fit_to_view_empty _ H3 H4). by destruct d.
  - eexists. split; [done|]. by rewrite (export_png_empty _ _ H3 H4).
  - rewrite H3. simpl. eauto using Build_empty_inv.
  - eexists. split; [done|]. unfold drag_node. rewrite H3. simpl. by destruct d.
Qed.

Lemma empty_inv_run G root d0 acts d :
  root_valid G root = false → empty_inv G root d0 d →
  ∃ d', run tk d acts = Done d' ∧ empty_inv G root d0 d'.
Proof.
  intros Hroot. revert d. induction acts as [|a acts IH]; intros d Hinv; simpl; [eauto|].
  destruct (empty_inv_step G root d0 d a Hroot Hinv) as (d1 & -> & Hinv1).
  by apply IH.
Qed.

(** C10 (graph_viewer.py, export_png and fit_to_view): the window of a
    graph without nodes has no items, so the bounding rectangle of its scene
    is null; export_png then returns with the files on disk as they were and
    without having shown the file dialog, and fit_to_view returns with the
    view as it was. This stays so whatever the user does with the window,
    and no call raises. *)
Theorem empty_graph_noop G root seed fs shown acts name :
  nodes G = [] →
  ∃ v0 d,
    viewer_init tk G root seed = Done v0 ∧
    node_items v0 = [] ∧ edge_items v0 = [] ∧
    isNull (itemsBoundingRect tk v0) = true ∧
    fit_to_view tk v0 = v0 ∧
    export_png tk {| viewer := v0; files := fs; dialogs := shown |} name
      = {| viewer := v0; files := fs; dialogs := shown |} ∧
    run tk {| viewer := v0; files := fs; dialogs := shown |} acts = Done d ∧
    files d = fs ∧ dialogs d = shown ∧ view_fit (viewer d) = None ∧
    fit_to_view tk (viewer d) = viewer d ∧ export_png tk d name = d.
Proof.
  intros Hempty.
  assert (g_node G = []) as Hnode.
  { unfold nodes, OD.keys in Hempty. by destruct (g_node G). }
  assert (root_valid G root = false) as Hroot.
  { apply root_valid_false. destruct root as [r|]; [right|by left].
    exists r. split; [done|]. rewrite Hempty. apply not_elem_of_nil. }
  unfold viewer_init. rewrite Hroot. cbn zeta. unfold compute_force_layout.
  cbn [vG rng].
  set (w := with_layout _ Force (force_positions tk G seed) (S seed)).
  assert (node_items (draw_graph tk w) = []) as Hn.
  { unfold draw_graph. cbn. by rewrite Hnode. }
  assert (edge_items (draw_graph tk w) = []) as He.
  { unfold draw_graph. cbn. rewrite Hnode. simpl. apply draw_edges_none. }
  rewrite (fit_to_view_empty _ Hn He).
  set (v0 := draw_graph tk w) in *.
  set (d0 := {| viewer := v0; files := fs; dialogs := shown |}).
  assert (empty_inv G root d0 d0) as Hinv by (by split).
  destruct (empty_inv_run G root d0 acts d0 Hroot Hinv) as (d & Hrun & [H1 H2 H3 H4 H5 H6 H7]).
  exists v0, d. split_and!; try done.
  - unfold itemsBoundingRect. by rewrite Hn, He.
  - by apply fit_to_view_empty.
  - by apply (export_png_empty d0).
  - by apply fit_to_view_empty.
  - by apply export_png_empty.
Qed.

End viewer_facts.

(** ** Concrete windows *)

(** A click on A: A, its successor B and its predecessor C are lit, D is
    dimmed; the edges A-B and C-A are lit, the edge C-D is dimmed. *)
Lemma highlight_example_opacity :
  match highlight_neighbors highlight_example 1 with
  | Done v =>
      (λ '(n, it), (n, n_opacity it)) <$> node_items v
        = [(1, 1%Q); (2, 1%Q); (3, 1%Q); (4, 0.25%Q)] ∧
      (λ e, (src_id e, dst_id e, e_opacity e, label_opacity e)) <$> edge_items v
        = [(1, 2, 1%Q, 1%Q); (3, 1, 1%Q, 1%Q); (3, 4, 0.2%Q, 0.2%Q)]
  | _ => False
  end.
Proof. by vm_compute. Qed.

Lemma highlight_neighbors_opacity_witness :
  digraph_wf (vG highlight_example) ∧ 1 ∈ nodes (vG highlight_example) ∧
  ∃ succ pred v',
    successors (vG highlight_example) 1 = Done succ ∧
    predecessors (vG highlight_example) 1 = Done pred ∧
    highlight_neighbors highlight_example 1 = Done v' ∧
    OD.keys (node_items v') = OD.keys (node_items highlight_example).
Proof.
  assert (digraph_wf (vG highlight_example)) as Hwf by apply build_graph_wf.
  assert (1 ∈ nodes (vG highlight_example)) as Hn by (vm_compute; left).
  split; [exact Hwf|]. split; [exact Hn|].
  destruct (highlight_neighbors_opacity highlight_example 1 Hwf Hn)
    as (succ & pred & v' & H1 & H2 & H3 & H4 & _).
  exists succ, pred, v'. split; [exact H1|]. split; [exact H2|]. split; [exact H3 | exact H4].
Defined.

Lemma invalid_root_uses_force_layout_witness :
  digraph_wf layout_example ∧
  (Some 99 = None ∨ (∃ r, Some 99 = Some r ∧ r ∉ nodes layout_example)) ∧
  (∀ name,
     name ∈ exports [TreeButton; Click 10; ExportButton EmptyString; ForceButton;
                     Drag 11 (5%Q, 5%Q); TreeButton] →
     name = EmptyString) ∧
  compute_tree_layout layout_example 99 = Raised (NetworkXError 99) ∧
  ∃ v0 d,
    viewer_init plain_toolkit layout_example (Some 99) 0 = Done v0 ∧
    current_layout v0 = Force ∧
    apply_tree_layout plain_toolkit v0 = Done v0 ∧
    run plain_toolkit {| viewer := v0; files := ∅; dialogs := 0 |}
        [TreeButton; Click 10; ExportButton EmptyString; ForceButton;
         Drag 11 (5%Q, 5%Q); TreeButton] = Done d ∧
    current_layout (viewer d) = Force.
Proof.
  assert (digraph_wf layout_example) as Hwf by apply build_graph_wf.
  assert (Some 99 = None ∨ (∃ r, Some 99 = Some r ∧ r ∉ nodes layout_example)) as Hroot.
  { right. exists 99. split; [reflexivity|]. vm_compute. intros H.
    repeat (apply elem_of_cons in H as [H|H]; [discriminate H|]).
    by apply elem_of_nil in H. }
  assert (∀ name,
            name ∈ exports [TreeButton; Click 10; ExportButton EmptyString; ForceButton;
                            Drag 11 (5%Q, 5%Q); TreeButton] →
            name = EmptyString) as Hexp.
  { intros name H. apply list_elem_of_singleton in H. exact H. }
  split; [exact Hwf|]. split; [exact Hroot|]. split; [exact Hexp|].
  destruct (invalid_root_uses_force_layout plain_toolkit layout_example (Some 99) 0 ∅
              [TreeButton; Click 10; ExportButton EmptyString; ForceButton;
               Drag 11 (5%Q, 5%Q); TreeButton] Hwf Hroot Hexp)
    as (Hraise & v0 & d & H1 & H2 & _ & H3 & H4 & H5 & _).
  split; [exact (Hraise 99 eq_refl)|].
  exists v0, d. split; [exact H1|]. split; [exact H2|]. split; [exact H3|].
  split; [exact H4 | exact H5].
Defined.

(** C7 as stated fails: the layout engine does not signal a root that is
    not in the graph, it raises. On the graph of four entries with root id
    99, which is none of them, compute_tree_layout raises NetworkXError,
    while apply_tree_layout on the window opened with that root returns
    the window unchanged, with nothing to tell the caller. *)
Lemma compute_tree_layout_raises_without_root :
  (99 ∉ nodes layout_example) ∧
  compute_tree_layout layout_example 99 = Raised (NetworkXError 99) ∧
  ¬ (∃ pos, compute_tree_layout layout_example 99 = Done pos).
Proof.
  assert (99 ∉ nodes layout_example) as Hroot.
  { vm_compute. intros H.
    repeat (apply elem_of_cons in H as [H|H]; [discriminate H|]).
    by apply elem_of_nil in H. }
  assert (compute_tree_layout layout_example 99 = Raised (NetworkXError 99)) as Hr
    by (apply compute_tree_layout_missing_root; [apply build_graph_wf | exact Hroot]).
  split; [exact Hroot|]. split; [exact Hr|]. intros [pos Hpos]. by rewrite Hr in Hpos.
Qed.

Lemma empty_graph_noop_witness :
  nodes (build_graph [] [mkR 1 1 2 "Ally"]) = [] ∧
  ∃ v0 d,
    viewer_init plain_toolkit (build_graph [] [mkR 1 1 2 "Ally"]) None 0 = Done v0 ∧
    export_png plain_toolkit {| viewer := v0; files := ∅; dialogs := 0 |} "graph.png"
      = {| viewer := v0; files := ∅; dialogs := 0 |} ∧
    run plain_toolkit {| viewer := v0; files := ∅; dialogs := 0 |}
        [ExportButton "graph.png"; FitButton; ForceButton; ExportButton "graph.png"] = Done d ∧
    files d = ∅ ∧ dialogs d = 0%nat.
Proof.
  assert (nodes (build_graph [] [mkR 1 1 2 "Ally"]) = []) as Hempty by reflexivity.
  split; [exact Hempty|].
  destruct (empty_graph_noop plain_toolkit (build_graph [] [mkR 1 1 2 "Ally"]) None 0 ∅ 0%nat
              [ExportButton "graph.png"; FitButton; ForceButton; ExportButton "graph.png"]
              "graph.png" Hempty)
    as (v0 & d & H1 & _ & _ & _ & _ & H2 & H3 & H4 & H5 & _).
  exists v0, d. split; [exact H1|]. split; [exact H2|]. split; [exact H3|].
  split; [exact H4 | exact H5].
Defined.

(** On a graph with a node the same export writes the file: the no-op is
    that of the empty graph. *)
Lemma export_png_writes_when_nonempty :
  match viewer_init plain_toolkit layout_example (Some 10) 0 with
  | Done v0 =>
      let d := export_png plain_toolkit {| viewer := v0; files := ∅; dialogs := 0 |} "graph.png" in
      is_Some (files d !! "graph.png"%string) ∧ dialogs d = 1%nat
  | _ => False
  end.
Proof. vm_compute. split; [eauto | done]. Qed.

(** * Further properties *)

(** ** The record store *)

Lemma filter_id_below (l : list EntryRow) (i : Z) :
  (∀ e, e ∈ l → e_id e ≠ i) → filter (λ e, e_id e = i) l = [].
Proof.
  intros Hne. induction l as [|e l IH]; [done|].
  rewrite filter_cons, decide_False by (apply Hne; left).
  apply IH. intros e' He'. apply Hne. by right.
Qed.

Lemma head_filter_id (l : list EntryRow) (e : EntryRow) :
  NoDup (e_id <$> l) → e ∈ l → head (filter (λ x, e_id x = e_id e) l) = Some e.
Proof.
  induction l as [|x l IH]; intros Hnd Hin; [by apply elem_of_nil in Hin|].
  rewrite fmap_cons in Hnd. apply NoDup_cons in Hnd as [Hx Hnd].
  rewrite filter_cons. apply elem_of_cons in Hin as [->|Hin].
  - by rewrite decide_True.
  - rewrite decide_False; [by apply IH|].
    intros Heq. apply Hx. rewrite Heq. apply list_elem_of_fmap. by exists e.
Qed.

Lemma get_entry_elem s e :
  store_ok s → e ∈ Database.entries s → Database.get_entry s (e_id e) = Some e.
Proof. intros Hok He. apply head_filter_id; [apply Hok | done]. Qed.

Lemma get_entry_None s i :
  i ∉ e_id <$> Database.entries s ↔ Database.get_entry s i = None.
Proof.
  unfold Database.get_entry. split.
  - intros Hi. rewrite filter_id_below; [done|].
    intros e He <-. apply Hi. apply list_elem_of_fmap. by exists e.
  - intros Hh Hin. apply list_elem_of_fmap in Hin as (e & -> & He).
    assert (e ∈ filter (λ x, e_id x = e_id e) (Database.entries s)) as Hf
      by (by apply list_elem_of_filter).
    destruct (filter _ _); [by apply elem_of_nil in Hf | done].
Qed.

Lemma get_entry_Some s i e :
  Database.get_entry s i = Some e → e ∈ Database.entries s ∧ e_id e = i.
Proof.
  unfold Database.get_entry. intros Hh. apply head_Some_elem_of in Hh.
  apply list_elem_of_filter in Hh. tauto.
Qed.

Lemma NoDup_fmap_filter {A} (f : A → Z) (P : A → Prop) `{∀ x, Decision (P x)} (l : list A) :
  NoDup (f <$> l) → NoDup (f <$> filter P l).
Proof.
  induction l as [|x l IH]; [done|]. rewrite fmap_cons. intros Hnd.
  apply NoDup_cons in Hnd as [Hx Hnd]. rewrite filter_cons. case_decide; [|by apply IH].
  rewrite fmap_cons. apply NoDup_cons. split; [|by apply IH].
  intros Hin. apply Hx. apply list_elem_of_fmap in Hin as (y & Hy & Hin).
  apply list_elem_of_filter in Hin as [_ Hin]. apply list_elem_of_fmap. by exists y.
Qed.

Lemma update_entry_ids s i t d c g y :
  e_id <$> Database.entries (Database.update_entry s i t d c g y) = e_id <$> Database.entries s.
Proof.
  simpl. rewrite <- list_fmap_compose. apply list_fmap_ext.
  intros k e _. simpl. by case_decide.
Qed.

Lemma create_tables_ok : store_ok Database.create_tables.
Proof.
  split; simpl; try lia; try apply NoDup_nil_2; intros x Hx; by apply elem_of_nil in Hx.
Qed.

Lemma perform_ok s c : store_ok s → store_ok (Database.perform s c).
Proof.
  intros [H1 H2 H3 H4 H5 H6].
  destruct c as [t d c g y|i t d c g y|i|i|a b t|i]; cbn [Database.perform].
  - split; simpl; try done; try lia.
    + rewrite fmap_app. apply NoDup_app. split_and!; [done| |apply NoDup_singleton].
      intros x Hx Hx'. apply list_elem_of_singleton in Hx'. simpl in Hx'. subst x.
      apply list_elem_of_fmap in Hx as (e & He & Hin). apply H2 in Hin. lia.
    + intros e He. apply elem_of_app in He as [He|He]; [apply H2 in He; lia|].
      apply list_elem_of_singleton in He as ->. simpl. lia.
  - split; try done.
    + by rewrite update_entry_ids.
    + intros e He. simpl in He. apply list_elem_of_fmap in He as (e0 & -> & He0).
      apply H2 in He0. simpl. by case_decide.
  - split; simpl; try done.
    + by apply NoDup_fmap_filter.
    + intros e He. apply list_elem_of_filter in He as [_ He]. by apply H2.
  - split; simpl; try done.
    + by apply NoDup_fmap_filter.
    + intros e He. apply list_elem_of_filter in He as [_ He]. by apply H2.
    + by apply NoDup_fmap_filter.
    + intros r Hr. apply list_elem_of_filter in Hr as [_ Hr]. by apply H5.
  - split; simpl; try done; try lia.
    + rewrite fmap_app. apply NoDup_app. split_and!; [done| |apply NoDup_singleton].
      intros x Hx Hx'. apply list_elem_of_singleton in Hx'. simpl in Hx'. subst x.
      apply list_elem_of_fmap in Hx as (r & Hr & Hin). apply H5 in Hin. lia.
    + intros r Hr. apply elem_of_app in Hr as [Hr|Hr]; [apply H5 in Hr; lia|].
      apply list_elem_of_singleton in Hr as ->. simpl. lia.
  - split; simpl; try done.
    + by apply NoDup_fmap_filter.
    + intros r Hr. apply list_elem_of_filter in Hr as [_ Hr]. by apply H5.
Qed.

Lemma perform_all_ok s calls : store_ok s → store_ok (fold_left Database.perform calls s).
Proof.
  revert s. induction calls as [|c calls IH]; intros s Hok; simpl; [done|].
  by apply IH, perform_ok.
Qed.

Lemma perform_counters s c :
  Database.next_entry_id s ≤ Database.next_entry_id (Database.perform s c) ∧
  Database.next_rel_id s ≤ Database.next_rel_id (Database.perform s c).
Proof. destruct c; simpl; lia. Qed.

Lemma perform_all_counters s calls :
  Database.next_entry_id s ≤ Database.next_entry_id (fold_left Database.perform calls s) ∧
  Database.next_rel_id s ≤ Database.next_rel_id (fold_left Database.perform calls s).
Proof.
  revert s. induction calls as [|c calls IH]; intros s; simpl; [lia|].
  destruct (perform_counters s c). destruct (IH (Database.perform s c)). lia.
Qed.

(** X1 (database.py, the writing methods): whatever calls are made on a
    fresh database, no two entry rows share an id, no two relationship rows
    share an id, and so [get_entry] of the id of a stored row returns that
    very row. *)
Theorem store_ids_stay_unique (calls : list Database.call) :
  let s := fold_left Database.perform calls Database.create_tables in
  NoDup (e_id <$> Database.entries s) ∧
  NoDup (r_id <$> Database.relationships s) ∧
  ∀ e, e ∈ Database.entries s → Database.get_entry s (e_id e) = Some e.
Proof.
  simpl. pose proof (perform_all_ok _ calls create_tables_ok) as Hok.
  split_and!; [apply Hok | apply Hok |]. intros e He. by apply get_entry_elem.
Qed.

(** X2 (database.py, AUTOINCREMENT with add_entry and add_relationship): an
    id is never given twice: the id returned by [add_entry] is larger than
    the id of every entry that was ever in the table, deleted since or not,
    and likewise for [add_relationship]. *)
Theorem ids_never_reused (before after : list Database.call)
    (t d c g y : string) (a b : Z) (ty : string) :
  let s := fold_left Database.perform before Database.create_tables in
  let s' := fold_left Database.perform after s in
  (∀ e, e ∈ Database.entries s → e_id e < (Database.add_entry s' t d c g y).2) ∧
  (∀ r, r ∈ Database.relationships s → r_id r < (Database.add_relationship s' a b ty).2).
Proof.
  simpl. pose proof (perform_all_ok _ before create_tables_ok) as Hok.
  set (s := fold_left Database.perform before Database.create_tables) in *.
  destruct (perform_all_counters s after) as [He Hr]. split.
  - intros e Hin. apply (ok_entry_below s Hok) in Hin. lia.
  - intros r Hin. apply (ok_rel_below s Hok) in Hin. lia.
Qed.

Lemma filter_id_fmap (f : EntryRow → EntryRow) (j : Z) (l : list EntryRow) :
  (∀ e, e_id (f e) = e_id e) →
  filter (λ x, e_id x = j) (f <$> l) = f <$> filter (λ x, e_id x = j) l.
Proof.
  intros Hf. induction l as [|e l IH]; [done|].
  rewrite fmap_cons, !filter_cons, Hf. case_decide; [by rewrite fmap_cons, IH | done].
Qed.

Lemma filter_all {A} (P : A → Prop) `{∀ x, Decision (P x)} (l : list A) :
  (∀ x, x ∈ l → P x) → filter P l = l.
Proof.
  intros HP. induction l as [|x l IH]; [done|].
  rewrite filter_cons, decide_True by (apply HP; left).
  f_equal. apply IH. intros y Hy. apply HP. by right.
Qed.

(** X3 (database.py, add_entry and get_entry): the id returned by
    [add_entry] was not in use, [get_entry] of it returns the row just
    written, and every other lookup and the relationships are as before. *)
Theorem add_entry_then_get (s : Database.Store) (t d c g y : string) :
  store_ok s →
  let s' := (Database.add_entry s t d c g y).1 in
  let i := (Database.add_entry s t d c g y).2 in
  Database.get_entry s i = None ∧
  Database.get_entry s' i = Some (entry_row i t d c g y) ∧
  (∀ j, j ≠ i → Database.get_entry s' j = Database.get_entry s j) ∧
  Database.relationships s' = Database.relationships s.
Proof.
  intros Hok. simpl.
  assert (∀ e, e ∈ Database.entries s → e_id e ≠ Database.next_entry_id s) as Hfresh.
  { intros e He. apply (ok_entry_below s Hok) in He. lia. }
  unfold Database.get_entry. simpl. split_and!; [| | |done].
  - by rewrite filter_id_below.
  - rewrite filter_app, filter_id_below by done. simpl.
    rewrite filter_cons, decide_True by done. done.
  - intros j Hj. rewrite filter_app. simpl.
    rewrite (filter_cons _ _ []), decide_False by (simpl; congruence).
    by rewrite filter_nil, app_nil_r.
Qed.

Lemma add_entry_then_get_witness :
  let s := fold_left Database.perform
             [Database.AddEntry "Ann" EmptyString "Character" EmptyString EmptyString; Database.DeleteEntry 1]
             Database.create_tables in
  store_ok s ∧
  (Database.add_entry s "Bob" "a smith" "Character" "tall" "Robert").2 = 2 ∧
  Database.get_entry (Database.add_entry s "Bob" "a smith" "Character" "tall" "Robert").1 2
    = Some (entry_row 2 "Bob" "a smith" "Character" "tall" "Robert").
Proof.
  intros s. assert (store_ok s) as Hok by apply perform_all_ok, create_tables_ok.
  split; [exact Hok|]. split; [reflexivity|].
  exact (proj1 (proj2 (add_entry_then_get s "Bob" "a smith" "Character" "tall" "Robert" Hok))).
Defined.

(** X4 (database.py, update_entry): the update rewrites the five text
    columns of the row with the given id and nothing else: the ids and their
    order, every other row and the relationships stay, and an id that is not
    in the table leaves the store as it was. *)
Theorem update_entry_changes_one_row (s : Database.Store) (i : Z) (t d c g y : string) :
  let s' := Database.update_entry s i t d c g y in
  e_id <$> Database.entries s' = e_id <$> Database.entries s ∧
  Database.relationships s' = Database.relationships s ∧
  (∀ j, j ≠ i → Database.get_entry s' j = Database.get_entry s j) ∧
  (i ∈ e_id <$> Database.entries s →
     Database.get_entry s' i = Some (entry_row i t d c g y)) ∧
  (i ∉ e_id <$> Database.entries s → s' = s).
Proof.
  simpl. split_and!.
  - apply update_entry_ids.
  - done.
  - intros j Hj. unfold Database.get_entry. simpl.
    rewrite filter_id_fmap by (intros e; by case_decide). f_equal.
    induction (Database.entries s) as [|e l IH]; [done|].
    rewrite filter_cons. case_decide as He; [|done].
    rewrite fmap_cons, IH, decide_False by congruence. done.
  - intros Hi. unfold Database.get_entry. simpl.
    rewrite filter_id_fmap by (intros e; by case_decide).
    destruct (Database.get_entry s i) as [e|] eqn:E; [|by apply get_entry_None in E].
    unfold Database.get_entry in E. apply head_Some in E as [l' E]. rewrite E.
    assert (e_id e = i) as Hid.
    { assert (e ∈ filter (λ x, e_id x = i) (Database.entries s)) as Hf by (rewrite E; left).
      by apply list_elem_of_filter in Hf as [? _]. }
    simpl. rewrite decide_True by done. by rewrite Hid.
  - intros Hi. destruct s as [es rs ne nr]. unfold Database.update_entry. simpl in *.
    f_equal. rewrite <- (list_fmap_id es) at 2. apply list_fmap_ext.
    intros k e Hk. rewrite decide_False; [done|]. intros <-. apply Hi.
    apply list_elem_of_fmap. exists e. split; [done|]. by eapply list_elem_of_lookup_2.
Qed.

(** X5 (database.py, add_relationship and get_relationships_for_entry):
    with entry ids that SQLite takes, 64-bit signed integers, and a table
    that has an id left to give, a relationship added from [a] to [b] is
    found from either endpoint, as the last row of the answer, and the
    answer for any other entry is as before. (For an id outside that range
    the call raises and adds nothing.) *)
Theorem add_relationship_found_from_both_ends (s : Database.Store) (a b : Z) (ty : string) :
  int64 a → int64 b → int64 (Database.next_rel_id s) →
  let s' := (Database.add_relationship s a b ty).1 in
  let r := {| r_id := (Database.add_relationship s a b ty).2;
              r_entry_a := a; r_entry_b := b; r_type := Some ty |} in
  Database.get_relationships_for_entry s' a = Database.get_relationships_for_entry s a ++ [r] ∧
  Database.get_relationships_for_entry s' b = Database.get_relationships_for_entry s b ++ [r] ∧
  (∀ c, c ≠ a → c ≠ b →
     Database.get_relationships_for_entry s' c = Database.get_relationships_for_entry s c) ∧
  Database.entries s' = Database.entries s.
Proof.
  intros _ _ _.
  simpl. unfold Database.get_relationships_for_entry. simpl. split_and!; [| | |done].
  - rewrite filter_app. f_equal.
    rewrite (filter_cons _ _ []), decide_True by (by left). done.
  - rewrite filter_app. f_equal.
    rewrite (filter_cons _ _ []), decide_True by (by right). done.
  - intros c Ha Hb. rewrite filter_app.
    rewrite (filter_cons _ _ []), decide_False; [by rewrite filter_nil, app_nil_r|].
    unfold Database.references. simpl. intros [?|?]; congruence.
Qed.

Lemma add_relationship_found_from_both_ends_witness :
  let s := fold_left Database.perform
             [Database.AddEntry "Ann" "a smith" "Character" "tall" "Annie";
              Database.AddEntry "Bob" "a miller" "Character" "short" "Robert";
              Database.AddRelationship 2 1 "Mentor"]
             Database.create_tables in
  int64 1 ∧ int64 2 ∧ int64 (Database.next_rel_id s) ∧
  Database.get_relationships_for_entry (Database.add_relationship s 1 2 "Ally").1 1
  = [mkR 1 2 1 "Mentor"; mkR 2 1 2 "Ally"].
Proof.
  intros s.
  assert (int64 1) as H1 by (split; [discriminate | reflexivity]).
  assert (int64 2) as H2 by (split; [discriminate | reflexivity]).
  assert (int64 (Database.next_rel_id s)) as H3 by (split; [discriminate | reflexivity]).
  split; [exact H1|]. split; [exact H2|]. split; [exact H3|].
  exact (proj1 (add_relationship_found_from_both_ends s 1 2 "Ally" H1 H2 H3)).
Defined.

(** X6 (database.py, delete_relationship): deleting a stored relationship
    by its id takes out that one row and leaves the others in their order;
    the entries stay. *)
Theorem delete_relationship_takes_one_row (s : Database.Store) (r : RelRow) :
  store_ok s → r ∈ Database.relationships s →
  let s' := Database.delete_relationship s (r_id r) in
  (∃ l1 l2, Database.relationships s = l1 ++ r :: l2 ∧
            Database.relationships s' = l1 ++ l2) ∧
  Database.entries s' = Database.entries s.
Proof.
  intros Hok Hin. simpl. split; [|done].
  apply list_elem_of_split in Hin as (l1 & l2 & Heq). exists l1, l2. split; [done|].
  pose proof (ok_rel_ids s Hok) as Hnd. rewrite Heq in Hnd |- *.
  rewrite fmap_app, fmap_cons in Hnd. apply NoDup_app in Hnd as (_ & Hl1 & Hnd).
  apply NoDup_cons in Hnd as [Hl2 _].
  rewrite filter_app, filter_cons, decide_False by (intros Hne; by apply Hne).
  f_equal; apply filter_all.
  - intros x Hx Heq'. apply (Hl1 (r_id x)); [|rewrite Heq'; left].
    apply list_elem_of_fmap. by exists x.
  - intros x Hx Heq'. apply Hl2. rewrite <- Heq'. apply list_elem_of_fmap. by exists x.
Qed.

Lemma delete_relationship_takes_one_row_witness :
  let s := fold_left Database.perform
             [Database.AddRelationship 1 2 "Ally"; Database.AddRelationship 2 3 "Enemy"]
             Database.create_tables in
  let r := {| r_id := 1; r_entry_a := 1; r_entry_b := 2; r_type := Some "Ally"%string |} in
  store_ok s ∧ r ∈ Database.relationships s ∧
  ∃ l1 l2, Database.relationships s = l1 ++ r :: l2 ∧
           Database.relationships (Database.delete_relationship s 1) = l1 ++ l2.
Proof.
  intros s r. assert (store_ok s) as Hok by apply perform_all_ok, create_tables_ok.
  assert (r ∈ Database.relationships s) as Hin by left.
  split; [exact Hok|]. split; [exact Hin|].
  exact (proj1 (delete_relationship_takes_one_row s r Hok Hin)).
Defined.

(** ** Orphaned relationship rows and the graph *)

(** Rows with an endpoint that is not a node can be left out. *)
Lemma fold_rel_filter (P : RelRow → Prop) `{∀ r, Decision (P r)} rels G :
  digraph_wf G →
  (∀ r, r ∈ rels → ¬ P r → ¬ (r_entry_a r ∈ nodes G ∧ r_entry_b r ∈ nodes G)) →
  fold_left add_rel_edge (filter P rels) G = fold_left add_rel_edge rels G.
Proof.
  revert G. induction rels as [|r rels IH]; intros G HG Hskip; [done|].
  destruct (add_rel_edge_spec G r HG) as (HG' & Hn & _).
  assert (nodes (add_rel_edge G r) = nodes G) as HN by (unfold nodes; by rewrite Hn).
  rewrite filter_cons. simpl. case_decide as HP.
  - simpl. apply IH; [done|]. intros r' Hr'. rewrite HN. apply Hskip. by right.
  - assert (add_rel_edge G r = G) as ->.
    { unfold add_rel_edge.
      destruct (OD.mem (r_entry_a r) (g_node G)) eqn:Ea; [|done].
      destruct (OD.mem (r_entry_b r) (g_node G)) eqn:Eb; [|done].
      exfalso. apply (Hskip r); [left | done |]. by split; apply mem_true. }
    apply IH; [done|]. intros r' Hr'. apply Hskip. by right.
Qed.

(** X7 (database.py, delete_entry; graph.py, build_graph): [delete_entry]
    keeps every relationship row, also those that name the deleted entry,
    but the graph built from the store afterwards is the graph built after
    [delete_entry_and_relationships]: the orphaned rows add nothing. *)
Theorem delete_entry_orphans_hidden (s : Database.Store) (entry_id : Z) :
  let s1 := Database.delete_entry s entry_id in
  let s2 := Database.delete_entry_and_relationships s entry_id in
  Database.relationships s1 = Database.relationships s ∧
  build_graph (Database.get_all_entries s1) (Database.get_all_relationships s1)
  = build_graph (Database.get_all_entries s2) (Database.get_all_relationships s2).
Proof.
  simpl. split; [done|]. unfold build_graph, Database.get_all_entries,
    Database.get_all_relationships. simpl.
  set (es := filter (λ e, e_id e ≠ entry_id) (Database.entries s)).
  symmetry. apply fold_rel_filter; [apply fold_entries_wf, empty_digraph_wf|].
  intros r _ Hr [Ha Hb].
  assert (∀ x, x ∈ nodes (fold_left add_entry_node es empty_digraph) → x ≠ entry_id) as Hne.
  { intros x Hx. apply (fold_entries_nodes es empty_digraph x empty_digraph_wf) in Hx.
    destruct Hx as [Hx|Hx]; [by apply elem_of_nil in Hx|].
    apply list_elem_of_fmap in Hx as (e & -> & He).
    by apply list_elem_of_filter in He as [? _]. }
  apply Hr. intros [Hra|Hrb]; [by apply (Hne _ Ha) | by apply (Hne _ Hb)].
Qed.

(** ** The built graph in terms of the rows *)

Lemma successors_Done G a :
  a ∈ OD.keys (g_succ G) → successors G a = Done (nbr_keys (g_succ G) a).
Proof.
  intros Ha. apply od_get_is_Some in Ha as [nb Hnb].
  unfold successors, nbr_keys. by rewrite Hnb.
Qed.

Lemma predecessors_Done G a :
  a ∈ OD.keys (g_pred G) → predecessors G a = Done (nbr_keys (g_pred G) a).
Proof.
  intros Ha. apply od_get_is_Some in Ha as [nb Hnb].
  unfold predecessors, nbr_keys. by rewrite Hnb.
Qed.

Lemma nbr_keys_fresh (adj : list (Z * list (Z * attrs))) n x :
  n ∉ OD.keys adj → nbr_keys (OD.set n [] adj) x = nbr_keys adj x.
Proof.
  intros Hn. unfold nbr_keys. rewrite od_get_set. case_decide; subst; [|done].
  apply od_get_None in Hn. by rewrite Hn.
Qed.

Lemma add_node_nbr_keys G n a x :
  digraph_wf G →
  nbr_keys (g_succ (add_node G n a)) x = nbr_keys (g_succ G) x ∧
  nbr_keys (g_pred (add_node G n a)) x = nbr_keys (g_pred G) x.
Proof.
  intros HG. unfold add_node, ensure_node. simpl.
  destruct (OD.mem n (g_succ G)) eqn:E; [done|]. apply mem_false in E. simpl.
  split; apply nbr_keys_fresh; [done|].
  by rewrite (wf_pred_keys G HG), <- (wf_succ_keys G HG).
Qed.

Lemma add_rel_edge_nbr_keys G r x y :
  digraph_wf G →
  (y ∈ nbr_keys (g_succ (add_rel_edge G r)) x ↔
     y ∈ nbr_keys (g_succ G) x ∨ rel_hits (nodes G) r x y) ∧
  (x ∈ nbr_keys (g_pred (add_rel_edge G r)) y ↔
     x ∈ nbr_keys (g_pred G) y ∨ rel_hits (nodes G) r x y).
Proof.
  intros HG. unfold add_rel_edge, rel_hits.
  destruct (OD.mem (r_entry_a r) (g_node G)) eqn:Ea; cbn [andb].
  1: destruct (OD.mem (r_entry_b r) (g_node G)) eqn:Eb.
  - apply mem_true in Ea, Eb. rewrite add_edge_unfold by done. cbn [g_succ g_pred].
    rewrite !nbr_keys_set. split.
    + split; [intros [?|[-> ->]]; auto | intros [?|(-> & -> & _)]; auto].
    + split; [intros [?|[-> ->]]; auto | intros [?|(-> & -> & _)]; auto].
  - apply mem_false in Eb.
    split; (split; [auto | intros [?|(_ & <- & _ & ?)]; [done | by destruct Eb]]).
  - apply mem_false in Ea.
    split; (split; [auto | intros [?|(<- & _ & ? & _)]; [done | by destruct Ea]]).
Qed.

Lemma fold_rel_nbr_keys rels G0 x y :
  digraph_wf G0 →
  (y ∈ nbr_keys (g_succ (fold_left add_rel_edge rels G0)) x ↔
     y ∈ nbr_keys (g_succ G0) x ∨ ∃ r, r ∈ rels ∧ rel_hits (nodes G0) r x y) ∧
  (x ∈ nbr_keys (g_pred (fold_left add_rel_edge rels G0)) y ↔
     x ∈ nbr_keys (g_pred G0) y ∨ ∃ r, r ∈ rels ∧ rel_hits (nodes G0) r x y).
Proof.
  revert G0. induction rels as [|r rels IH]; intros G0 HG; simpl.
  - split; (split; [auto | intros [?|(r & Hr & _)]; [done | by apply elem_of_nil in Hr]]).
  - destruct (add_rel_edge_spec G0 r HG) as (HG' & Hn & _).
    assert (nodes (add_rel_edge G0 r) = nodes G0) as HN by (unfold nodes; by rewrite Hn).
    destruct (IH _ HG') as [Hs Hp]. destruct (add_rel_edge_nbr_keys G0 r x y HG) as [Hs1 Hp1].
    rewrite Hs, Hp, Hs1, Hp1, HN. setoid_rewrite elem_of_cons. split.
    + split; [intros [[?|?]|(r' & ? & ?)]; eauto |
              intros [?|(r' & [->|?] & ?)]; eauto].
    + split; [intros [[?|?]|(r' & ? & ?)]; eauto |
              intros [?|(r' & [->|?] & ?)]; eauto].
Qed.

Lemma fold_entries_nbr_keys entries G0 x :
  digraph_wf G0 →
  nbr_keys (g_succ (fold_left add_entry_node entries G0)) x = nbr_keys (g_succ G0) x ∧
  nbr_keys (g_pred (fold_left add_entry_node entries G0)) x = nbr_keys (g_pred G0) x.
Proof.
  revert G0. induction entries as [|e entries IH]; intros G0 HG; simpl; [done|].
  destruct (IH (add_entry_node G0 e)) as [-> ->]; [by apply add_node_wf|].
  by apply add_node_nbr_keys.
Qed.

(** X8 (graph.py, build_graph): in the built graph the successors of an
    entry [a] are the entries [b] that some row joins from [a] to [b], and
    its predecessors are the entries [b] that some row joins from [b] to
    [a]; so [b] is a successor of [a] exactly when [a] is a predecessor of
    [b]. *)
Theorem build_graph_neighbours (entries : list EntryRow) (rels : list RelRow) (a : Z) :
  a ∈ e_id <$> entries →
  ∃ succ pred,
    successors (build_graph entries rels) a = Done succ ∧
    predecessors (build_graph entries rels) a = Done pred ∧
    (∀ b, b ∈ succ ↔
       b ∈ e_id <$> entries ∧ ∃ r, r ∈ rels ∧ r_entry_a r = a ∧ r_entry_b r = b) ∧
    (∀ b, b ∈ pred ↔
       b ∈ e_id <$> entries ∧ ∃ r, r ∈ rels ∧ r_entry_a r = b ∧ r_entry_b r = a).
Proof.
  intros Ha. pose proof (build_graph_wf entries rels) as HG.
  assert (a ∈ nodes (build_graph entries rels)) as Hn by (by apply build_graph_nodes).
  eexists _, _. split; [apply successors_Done; by rewrite (wf_succ_keys _ HG)|].
  split; [apply predecessors_Done; by rewrite (wf_pred_keys _ HG)|].
  pose proof (fold_entries_wf entries _ empty_digraph_wf) as HG1.
  assert (∀ x, x ∈ nodes (fold_left add_entry_node entries empty_digraph)
               ↔ x ∈ e_id <$> entries) as Hnodes.
  { intros x. rewrite fold_entries_nodes by apply empty_digraph_wf.
    split; [intros [H|?]; [by apply elem_of_nil in H | done] | auto]. }
  unfold build_graph. split.
  - intros b. rewrite (proj1 (fold_rel_nbr_keys rels _ a b HG1)).
    rewrite (proj1 (fold_entries_nbr_keys entries empty_digraph a empty_digraph_wf)).
    unfold rel_hits. setoid_rewrite Hnodes. split.
    + intros [H|(r & Hr & Hra & Hrb & _ & Hb)]; [by apply elem_of_nil in H|]. eauto.
    + intros (Hb & r & Hr & Hra & Hrb). right. exists r. auto.
  - intros b. rewrite (proj2 (fold_rel_nbr_keys rels _ b a HG1)).
    rewrite (proj2 (fold_entries_nbr_keys entries empty_digraph a empty_digraph_wf)).
    unfold rel_hits. setoid_rewrite Hnodes. split.
    + intros [H|(r & Hr & Hra & Hrb & Hb & _)]; [by apply elem_of_nil in H|]. eauto.
    + intros (Hb & r & Hr & Hra & Hrb). right. exists r. auto.
Qed.

Lemma build_graph_neighbours_witness :
  2 ∈ e_id <$> [mkE 1 "A" "Item"; mkE 2 "B" "Item"; mkE 3 "C" "Item"] ∧
  ∃ succ pred,
    successors (build_graph [mkE 1 "A" "Item"; mkE 2 "B" "Item"; mkE 3 "C" "Item"]
                            [mkR 1 1 2 "Ally"; mkR 2 2 3 "Enemy"]) 2 = Done succ ∧
    predecessors (build_graph [mkE 1 "A" "Item"; mkE 2 "B" "Item"; mkE 3 "C" "Item"]
                              [mkR 1 1 2 "Ally"; mkR 2 2 3 "Enemy"]) 2 = Done pred.
Proof.
  assert (2 ∈ e_id <$> [mkE 1 "A" "Item"; mkE 2 "B" "Item"; mkE 3 "C" "Item"]) as Hin
    by (right; left).
  split; [exact Hin|].
  destruct (build_graph_neighbours [mkE 1 "A" "Item"; mkE 2 "B" "Item"; mkE 3 "C" "Item"]
              [mkR 1 1 2 "Ally"; mkR 2 2 3 "Enemy"] 2 Hin) as (succ & pred & H1 & H2 & _).
  exists succ, pred. split; [exact H1 | exact H2].
Defined.

Lemma add_node_nodes_new G n a :
  digraph_wf G → n ∉ nodes G → nodes (add_node G n a) = nodes G ++ [n].
Proof.
  intros HG Hn. unfold add_node, ensure_node, nodes.
  assert (OD.mem n (g_succ G) = false) as -> by (apply mem_false; by rewrite (wf_succ_keys G HG)).
  simpl. rewrite od_keys_set_in by (apply od_elem_keys_set; by left).
  by apply od_keys_set_notin.
Qed.

(** X9 (graph.py, build_graph): with distinct entry ids, as the store has
    them, the nodes of the graph are the entry ids, one node per row and in
    the order of the rows, whatever the relationships are. *)
Theorem build_graph_node_order (entries : list EntryRow) (rels : list RelRow) :
  NoDup (e_id <$> entries) →
  nodes (build_graph entries rels) = e_id <$> entries.
Proof.
  intros Hnd. unfold build_graph, nodes.
  destruct (fold_rel_frame rels (fold_left add_entry_node entries empty_digraph)) as [_ ->];
    [apply fold_entries_wf, empty_digraph_wf|].
  fold (nodes (fold_left add_entry_node entries empty_digraph)).
  induction entries as [|e entries IH] using rev_ind; [done|].
  rewrite fmap_app in Hnd. apply NoDup_app in Hnd as (Hnd & Hdis & _).
  rewrite fold_left_app, fmap_app. simpl. unfold add_entry_node at 1.
  rewrite add_node_nodes_new.
  - by rewrite IH.
  - apply fold_entries_wf, empty_digraph_wf.
  - rewrite IH by done. intros Hin. apply (Hdis _ Hin). left.
Qed.

Lemma build_graph_node_order_witness :
  NoDup (e_id <$> [mkE 3 "C" "Item"; mkE 1 "A" "Item"]) ∧
  nodes (build_graph [mkE 3 "C" "Item"; mkE 1 "A" "Item"] [mkR 1 1 3 "Ally"]) = [3; 1].
Proof.
  assert (NoDup (e_id <$> [mkE 3 "C" "Item"; mkE 1 "A" "Item"])) as Hnd.
  { apply NoDup_cons. split; [|apply NoDup_singleton].
    intros H. apply list_elem_of_singleton in H. discriminate H. }
  split; [exact Hnd|].
  exact (build_graph_node_order [mkE 3 "C" "Item"; mkE 1 "A" "Item"] [mkR 1 1 3 "Ally"] Hnd).
Defined.

(** ** The map window: what is drawn *)

Lemma edges_nodes G u v d :
  digraph_wf G → (u, v, d) ∈ edges G → u ∈ nodes G ∧ v ∈ nodes G.
Proof.
  intros HG Hin. apply elem_of_edges in Hin as (nbrs & Hu & Hv).
  split.
  - rewrite <- (wf_succ_keys G HG). unfold OD.keys. apply list_elem_of_fmap. by exists (u, nbrs).
  - apply (wf_succ_inner G HG u nbrs Hu). unfold OD.keys. apply list_elem_of_fmap. by exists (v, d).
Qed.

Lemma pair_key_ends e u w :
  pair_key e = (Z.min u w, Z.max u w) ↔
  (src_id e = u ∧ dst_id e = w) ∨ (src_id e = w ∧ dst_id e = u).
Proof.
  unfold pair_key. split.
  - intros [= H1 H2]. lia.
  - intros [[-> ->]|[-> ->]]; [done|]. f_equal; lia.
Qed.

Section viewer_more.
Context (tk : Toolkit).

Lemma draw_nodes_order G pos nds :
  NoDup nds.*1 → OD.keys (fold_left (draw_node G pos) nds []) = nds.*1.
Proof.
  induction nds as [|[n data] nds IH] using rev_ind; [done|].
  rewrite fmap_app. intros Hnd. apply NoDup_app in Hnd as (Hnd & Hdis & _).
  rewrite fold_left_app. simpl. rewrite od_keys_set_notin.
  - by rewrite IH.
  - rewrite IH by done. intros Hin. apply (Hdis _ Hin). left.
Qed.

Lemma draw_nodes_get G pos nds n data :
  NoDup nds.*1 → (n, data) ∈ nds →
  ∃ it, OD.get n (fold_left (draw_node G pos) nds []) = Some it ∧
        node_id it = n ∧
        n_pos it = default (0%Q, 0%Q) (OD.get n pos) ∧
        radius it = (22 + 4 * inject_Z (Z.min (di_degree G n) 8))%Q ∧
        n_label it = default (py_str n) (data !! "label"%string) ∧
        fill_color it = color_map (default "default"%string (data !! "category"%string)) ∧
        n_opacity it = 1%Q.
Proof.
  induction nds as [|[m data'] nds IH] using rev_ind.
  - intros _ Hin. by apply elem_of_nil in Hin.
  - rewrite fmap_app. intros Hnd Hin. apply NoDup_app in Hnd as (Hnd & Hdis & _).
    rewrite fold_left_app. simpl. rewrite od_get_set.
    apply elem_of_app in Hin as [Hin|Hin].
    + rewrite decide_False.
      * by apply IH.
      * intros ->. apply (Hdis n); [|left].
        apply list_elem_of_fmap. by exists (n, data).
    + apply list_elem_of_singleton in Hin. injection Hin as -> ->.
      rewrite decide_True by done. eexists. split; [done|]. by simpl.
Qed.

Lemma radius_bounds d :
  0 ≤ d → (22 <= 22 + 4 * inject_Z (Z.min d 8) <= 54)%Q.
Proof.
  intros Hd.
  assert (22 + 4 * inject_Z (Z.min d 8) == inject_Z (22 + 4 * Z.min d 8))%Q as ->.
  { rewrite inject_Z_plus, inject_Z_mult. reflexivity. }
  change 22%Q with (inject_Z 22). change 54%Q with (inject_Z 54).
  rewrite <- !Zle_Qle. lia.
Qed.

Lemma di_degree_nonneg G n : 0 ≤ di_degree G n.
Proof. unfold di_degree. lia. Qed.

Lemma draw_edges_inv items es seen acc :
  (∀ u w d, (u, w, d) ∈ es → u ∈ OD.keys items ∧ w ∈ OD.keys items) →
  NoDup (pair_key <$> acc) →
  (∀ k, k ∈ pair_key <$> acc ↔ k ∈ seen) →
  let st := fold_left (draw_edge tk items) es (seen, acc) in
  NoDup (pair_key <$> st.2) ∧
  (∀ k, k ∈ pair_key <$> st.2 ↔ k ∈ st.1) ∧
  (∀ k, k ∈ st.1 ↔ k ∈ seen ∨ ∃ u w d, (u, w, d) ∈ es ∧ k = (Z.min u w, Z.max u w)) ∧
  (∀ e, e ∈ st.2 →
     e ∈ acc ∨
     ∃ d, (src_id e, dst_id e, d) ∈ es ∧
          label_text e = default EmptyString (d !! "label"%string) ∧
          e_opacity e = 1%Q ∧ label_opacity e = 1%Q ∧ in_sync tk items e).
Proof.
  revert seen acc. induction es as [|[[u w] d] es IH]; intros seen acc Hends Hnd Hseen; simpl.
  - split_and!; [done | done | | auto].
    intros k. split; [auto|]. intros [?|(? & ? & ? & H & _)]; [done|].
    by apply elem_of_nil in H.
  - assert (∀ u' w' d', (u', w', d') ∈ es → u' ∈ OD.keys items ∧ w' ∈ OD.keys items) as Hends'
      by (intros ??? ?; eapply Hends; by right).
    destruct (Hends u w d) as [Hu Hw]; [left|].
    destruct (decide ((Z.min u w, Z.max u w) ∈ seen)) as [Hin|Hnew].
    + destruct (IH seen acc Hends' Hnd Hseen) as (H1 & H2 & H3 & H4).
      split_and!; [done | done | |].
      * intros k. rewrite H3. split.
        -- intros [?|(u' & w' & d' & H & ->)]; [auto|]. right. exists u', w', d'. split; [by right | done].
        -- intros [?|(u' & w' & d' & H & ->)]; [auto|].
           apply elem_of_cons in H as [[= -> -> ->]|H]; [auto|].
           right. by exists u', w', d'.
      * intros e He. destruct (H4 e He) as [?|(d' & H & ?)]; [auto|].
        right. exists d'. split; [by right | done].
    + apply mem_true in Hu, Hw. rewrite Hu, Hw. cbn [negb orb].
      set (item := update_path tk items _).
      assert (pair_key item = (Z.min u w, Z.max u w)) as Hkey by done.
      destruct (IH ({[(Z.min u w, Z.max u w)]} ∪ seen) (acc ++ [item]) Hends')
        as (H1 & H2 & H3 & H4).
      { rewrite fmap_app. apply NoDup_app. split_and!; [done | | apply NoDup_singleton].
        intros k Hk Hk'. apply list_elem_of_singleton in Hk'. subst k.
        apply Hseen in Hk. simpl in Hk. by rewrite Hkey in Hk. }
      { intros k. rewrite fmap_app, elem_of_app, Hseen, elem_of_union, elem_of_singleton.
        simpl. rewrite list_elem_of_singleton, Hkey. tauto. }
      split_and!; [done | done | |].
      * intros k. rewrite H3, elem_of_union, elem_of_singleton. split.
        -- intros [[->|?]|(u' & w' & d' & H & ->)]; [|auto|].
           ++ right. exists u, w, d. split; [left | done].
           ++ right. exists u', w', d'. split; [by right | done].
        -- intros [?|(u' & w' & d' & H & ->)]; [auto|].
           apply elem_of_cons in H as [[= -> -> ->]|H]; [auto|].
           right. by exists u', w', d'.
      * intros e He. destruct (H4 e He) as [Hacc|(d' & H & ?)].
        -- apply elem_of_app in Hacc as [?|Hit]; [auto|].
           apply list_elem_of_singleton in Hit. subst e. right. exists d.
           split; [left | done].
        -- right. exists d'. split; [by right | done].
Qed.

Lemma draw_graph_frame v :
  vG (draw_graph tk v) = vG v ∧ root_id (draw_graph tk v) = root_id v ∧
  current_layout (draw_graph tk v) = current_layout v ∧
  positions (draw_graph tk v) = positions v.
Proof. done. Qed.

Lemma draw_graph_keys v :
  digraph_wf (vG v) → OD.keys (node_items (draw_graph tk v)) = nodes (vG v).
Proof. intros HG. apply draw_nodes_order, (wf_nodup _ HG). Qed.

Lemma draw_graph_edges v :
  digraph_wf (vG v) →
  NoDup (pair_key <$> edge_items (draw_graph tk v)) ∧
  (∀ k, k ∈ pair_key <$> edge_items (draw_graph tk v) ↔
        ∃ u w d, (u, w, d) ∈ edges (vG v) ∧ k = (Z.min u w, Z.max u w)) ∧
  (∀ e, e ∈ edge_items (draw_graph tk v) →
     ∃ d, (src_id e, dst_id e, d) ∈ edges (vG v) ∧
          label_text e = default EmptyString (d !! "label"%string) ∧
          e_opacity e = 1%Q ∧ label_opacity e = 1%Q ∧
          in_sync tk (node_items (draw_graph tk v)) e).
Proof.
  intros HG. unfold draw_graph. cbn [edge_items node_items].
  set (items := fold_left (draw_node (vG v) (positions v)) (g_node (vG v)) []).
  destruct (draw_edges_inv items (edges (vG v)) ∅ []) as (H1 & H2 & H3 & H4).
  - intros u w d Hin. unfold items.
    change (OD.keys (fold_left _ _ _)) with (OD.keys (node_items (draw_graph tk v))).
    rewrite draw_graph_keys by done. by apply (edges_nodes _ u w d).
  - apply NoDup_nil_2.
  - intros k. split; intros H; [by apply elem_of_nil in H | by apply elem_of_empty in H].
  - split_and!; [done | |].
    + intros k. rewrite H2, H3. split; [intros [H|?]; [by apply elem_of_empty in H | done] | auto].
    + intros e He. destruct (H4 e He) as [H|?]; [by apply elem_of_nil in H | done].
Qed.

(** X10 (graph_viewer.py, [draw_graph], node loop): every node of the graph
    gets one item, in the order of the nodes; the item sits where the
    layout puts the node, or at the origin when the layout has no place for
    it; its radius is 22 plus 4 for each edge at the node up to eight
    edges, so between 22 and 54; its label and colour come from the node's
    attributes, and it is fully opaque. *)
Theorem draw_graph_node_items (v : Viewer) (n : Z) (data : attrs) :
  digraph_wf (vG v) → OD.get n (g_node (vG v)) = Some data →
  OD.keys (node_items (draw_graph tk v)) = nodes (vG v) ∧
  ∃ it, OD.get n (node_items (draw_graph tk v)) = Some it ∧
        node_id it = n ∧
        n_pos it = default (0%Q, 0%Q) (OD.get n (positions v)) ∧
        radius it = (22 + 4 * inject_Z (Z.min (di_degree (vG v) n) 8))%Q ∧
        (22 <= radius it <= 54)%Q ∧
        n_label it = default (py_str n) (data !! "label"%string) ∧
        fill_color it = color_map (default "default"%string (data !! "category"%string)) ∧
        n_opacity it = 1%Q.
Proof.
  intros HG Hn. split; [by apply draw_graph_keys|].
  destruct (draw_nodes_get (vG v) (positions v) (g_node (vG v)) n data)
    as (it & Hit & Hid & Hpos & Hr & Hl & Hc & Ho).
  - apply (wf_nodup _ HG).
  - by apply od_get_Some_elem.
  - pose proof (radius_bounds (di_degree (vG v) n) (di_degree_nonneg _ _)) as [Hlo Hhi].
    exists it. rewrite Hr. by split_and!.
Qed.

(** X11 (graph_viewer.py, [draw_graph], edge loop): two nodes get a curve
    exactly when an edge joins them, in whichever direction, and they get
    one curve even when there is an edge each way; a curve runs along an
    edge of the graph, carries that edge's label, is fully opaque and is
    drawn between the centres of its two node items. *)
Theorem draw_graph_edge_items (v : Viewer) :
  digraph_wf (vG v) →
  let items := edge_items (draw_graph tk v) in
  NoDup (pair_key <$> items) ∧
  (∀ u w, adjacent (vG v) u w ↔
          ∃ e, e ∈ items ∧
               ((src_id e = u ∧ dst_id e = w) ∨ (src_id e = w ∧ dst_id e = u))) ∧
  (∀ e, e ∈ items →
     ∃ d, (src_id e, dst_id e, d) ∈ edges (vG v) ∧
          label_text e = default EmptyString (d !! "label"%string) ∧
          e_opacity e = 1%Q ∧ label_opacity e = 1%Q ∧
          in_sync tk (node_items (draw_graph tk v)) e).
Proof.
  intros HG items. destruct (draw_graph_edges v HG) as (H1 & H2 & H3).
  split_and!; [done | | done].
  intros u w. split.
  - intros [d Hd].
    assert ((Z.min u w, Z.max u w) ∈ pair_key <$> items) as Hk.
    { apply H2. destruct Hd as [Hd|Hd].
      - by exists u, w, d.
      - exists w, u, d. split; [done|]. f_equal; lia. }
    apply list_elem_of_fmap in Hk as (e & Hk & He). exists e. split; [done|].
    by apply pair_key_ends.
  - intros (e & He & Hends). destruct (H3 e He) as (d & Hd & _). exists d.
    destruct Hends as [[<- <-]|[<- <-]]; auto.
Qed.

End viewer_more.

Lemma draw_graph_node_items_witness :
  let v := blank_viewer layout_example (Some 10) in
  let data : attrs := {[ "label"%string := "R"%string; "category"%string := "Character"%string ]} in
  digraph_wf (vG v) ∧ OD.get 10 (g_node (vG v)) = Some data ∧
  OD.keys (node_items (draw_graph plain_toolkit v)) = nodes (vG v).
Proof.
  intros v data.
  assert (digraph_wf (vG v)) as Hwf by apply build_graph_wf.
  assert (OD.get 10 (g_node (vG v)) = Some data) as Hget by (vm_compute; reflexivity).
  split; [exact Hwf|]. split; [exact Hget|].
  exact (proj1 (draw_graph_node_items plain_toolkit v 10 data Hwf Hget)).
Defined.

Lemma draw_graph_edge_items_witness :
  digraph_wf (vG (blank_viewer layout_example (Some 10))) ∧
  NoDup (pair_key <$> edge_items (draw_graph plain_toolkit (blank_viewer layout_example (Some 10)))).
Proof.
  assert (digraph_wf (vG (blank_viewer layout_example (Some 10)))) as Hwf by apply build_graph_wf.
  split; [exact Hwf|].
  exact (proj1 (draw_graph_edge_items plain_toolkit (blank_viewer layout_example (Some 10)) Hwf)).
Defined.

(** ** The map window: what every sequence of actions keeps *)

Lemma place_row_nodup pos row :
  NoDup (OD.keys pos) → NoDup (OD.keys (place_row pos row)).
Proof.
  destruct row as [depth ns]. unfold place_row.
  generalize (imap pair ns). intros l. revert pos.
  induction l as [|[i n] l IH]; intros pos Hnd; simpl; [done|].
  apply IH. by apply od_NoDup_set.
Qed.

Lemma place_rows_nodup rows pos :
  NoDup (OD.keys pos) → NoDup (OD.keys (fold_left place_row rows pos)).
Proof.
  revert pos. induction rows as [|row rows IH]; intros pos Hnd; simpl; [done|].
  by apply IH, place_row_nodup.
Qed.

Lemma compute_tree_layout_done G root :
  digraph_wf G → root ∈ nodes G →
  ∃ pos, compute_tree_layout G root = Done pos ∧
         NoDup (OD.keys pos) ∧
         ∀ n, n ∈ nodes G → is_Some (OD.get n pos).
Proof.
  intros HG Hroot.
  destruct (tree_layers_spec G root Hroot) as (bl & visited & _ & Htl & _ & Hln & Hnd).
  destruct (tree_layers_nodes G bl visited (wf_nodup G HG) Hnd Hln) as [Hnd' Hall].
  unfold compute_tree_layout. rewrite Htl. eexists. split; [done|]. split.
  - apply place_rows_nodup, NoDup_nil_2.
  - intros n Hn. apply Hall in Hn. unfold layer_nodes in Hn.
    apply list_elem_of_bind in Hn as ([d ns] & Hn & Hin). simpl in Hn.
    rewrite <- (sort_desc_perm (degree (to_undirected G)) ns) in Hn.
    apply list_elem_of_lookup in Hn as [i Hi].
    rewrite (layout_get _ _ d ns i n Hnd' Hin Hi). eauto.
Qed.

Lemma od_get_fmap_items (g : Z → NodeItem → NodeItem) (items : list (Z * NodeItem)) n :
  OD.get n ((λ '(m, it), (m, g m it)) <$> items) = g n <$> OD.get n items.
Proof.
  induction items as [|[m it] items IH]; [done|].
  rewrite fmap_cons. cbn [OD.get]. case_decide; subst; [done | apply IH].
Qed.

Lemma od_set_looks (items : list (Z * NodeItem)) k it it' :
  OD.get k items = Some it → node_look it' = node_look it →
  node_looks (OD.set k it' items) = node_looks items.
Proof.
  unfold node_looks. intros Hget Hlook.
  induction items as [|[m x] items IH]; [done|].
  cbn [OD.get OD.set] in *. case_decide; subst.
  - injection Hget as ->. rewrite !fmap_cons. unfold prod_map at 1 3. simpl. by rewrite Hlook.
  - rewrite !fmap_cons. f_equal. by apply IH.
Qed.

Lemma node_looks_keys items : OD.keys items = (node_looks items).*1.
Proof.
  unfold node_looks, OD.keys. rewrite <- list_fmap_compose. by apply list_fmap_ext.
Qed.

Lemma apply_positions_looks (pos : list (Z * point)) (items : list (Z * NodeItem)) :
  node_looks (fold_left (λ items '(node, p),
      match OD.get node items with
      | Some it => OD.set node (setPos p it) items
      | None => items
      end) pos items) = node_looks items.
Proof.
  revert items. induction pos as [|[n p] pos IH]; intros items; simpl; [done|].
  rewrite IH. destruct (OD.get n items) as [it|] eqn:E; [|done].
  by apply (od_set_looks items n it).
Qed.

Lemma apply_positions_get (pos : list (Z * point)) (items : list (Z * NodeItem)) n :
  NoDup (OD.keys pos) →
  OD.get n (fold_left (λ items '(node, p),
      match OD.get node items with
      | Some it => OD.set node (setPos p it) items
      | None => items
      end) pos items)
  = match OD.get n pos with
    | Some p => setPos p <$> OD.get n items
    | None => OD.get n items
    end.
Proof.
  revert items. induction pos as [|[k p] pos IH]; intros items Hnd; [done|].
  unfold OD.keys in Hnd. rewrite fmap_cons in Hnd. apply NoDup_cons in Hnd as [Hk Hnd].
  cbn [fold_left OD.get]. rewrite IH by done. case_decide as Hkn.
  - subst k. apply od_get_None in Hk. cbn [fst] in Hk. rewrite Hk.
    destruct (OD.get n items) as [it|] eqn:E; [|by rewrite E].
    by rewrite od_get_set_eq.
  - destruct (OD.get k items) as [it|] eqn:E; [|done].
    by rewrite od_get_set_ne.
Qed.

Section viewer_run.
Context (tk : Toolkit).

Lemma update_path_sync items e : in_sync tk items (update_path tk items e).
Proof. done. Qed.

Lemma update_path_ends items e : edge_ends (update_path tk items e) = edge_ends e.
Proof. done. Qed.

Lemma update_all_edges_spec v :
  let v' := update_all_edges tk v in
  vG v' = vG v ∧ root_id v' = root_id v ∧ node_items v' = node_items v ∧
  edge_ends <$> edge_items v' = edge_ends <$> edge_items v ∧
  ∀ e, e ∈ edge_items v' → in_sync tk (node_items v') e.
Proof.
  simpl. split_and!; try done.
  - rewrite <- list_fmap_compose. by apply list_fmap_ext.
  - intros e He. apply list_elem_of_fmap in He as (e0 & -> & _). apply update_path_sync.
Qed.

Lemma in_sync_centers items items' e :
  (∀ n, item_center items' n = item_center items n) →
  in_sync tk items e → in_sync tk items' e.
Proof. unfold in_sync. intros Hc ->. by rewrite !Hc. Qed.

Lemma highlight_neighbors_items v n v' :
  highlight_neighbors v n = Done v' →
  ∃ nb : gset Z,
    node_items v'
    = (λ '(m, it), (m, setOpacity (if decide (m ∈ nb) then 1 else 0.25%Q) it)) <$> node_items v ∧
    edge_items v' = highlight_edge nb <$> edge_items v ∧
    vG v' = vG v ∧ root_id v' = root_id v ∧ current_layout v' = current_layout v ∧
    positions v' = positions v ∧ view_fit v' = view_fit v ∧ rng v' = rng v ∧
    clicked v' = clicked v.
Proof.
  unfold highlight_neighbors.
  destruct (successors (vG v) n) as [succ| |]; [|done..].
  destruct (predecessors (vG v) n) as [pred| |]; [|done..].
  intros [= <-]. by eexists.
Qed.

Lemma highlight_items_center (nb : gset Z) (items : list (Z * NodeItem)) (n : Z) :
  item_center
    ((λ '(m, it), (m, setOpacity (if decide (m ∈ nb) then 1 else 0.25%Q) it)) <$> items) n
  = item_center items n.
Proof.
  unfold item_center.
  rewrite (od_get_fmap_items (λ m, setOpacity (if decide (m ∈ nb) then 1 else 0.25%Q))).
  by destruct (OD.get n items).
Qed.

Lemma highlight_items_looks (nb : gset Z) (items : list (Z * NodeItem)) :
  node_looks ((λ '(m, it), (m, setOpacity (if decide (m ∈ nb) then 1 else 0.25%Q) it)) <$> items)
  = node_looks items.
Proof.
  unfold node_looks. rewrite <- list_fmap_compose. apply list_fmap_ext. by intros _ [m it] _.
Qed.

Lemma view_inv_fit G root v0 v :
  view_inv tk G root v0 v → view_inv tk G root v0 (fit_to_view tk v).
Proof.
  intros [H1 H2 H3 H4 H5 HJ H6].
  destruct (fit_to_view_frame tk v) as (F1 & F2 & _ & _ & F3 & F4).
  split; rewrite ?F1, ?F2, ?F3, ?F4; done.
Qed.

Lemma view_inv_positions G root v0 v kind pos r :
  view_inv tk G root v0 v →
  view_inv tk G root v0 (apply_positions tk (with_layout v kind pos r)).
Proof.
  intros [H1 H2 H3 H4 H5 HJ H6]. unfold apply_positions.
  set (w := Build_Viewer _ _ _ _ _ _ _ _ _).
  destruct (update_all_edges_spec w) as (U1 & U2 & U3 & U4 & U5).
  split.
  - by rewrite U1.
  - by rewrite U2.
  - rewrite U3. unfold w. cbn [node_items with_layout positions].
    by rewrite apply_positions_keys.
  - rewrite U3. unfold w. cbn [node_items with_layout positions].
    by rewrite apply_positions_looks.
  - by rewrite U4.
  - done.
  - done.
Qed.

Lemma view_inv_highlight G root v0 v n v' :
  view_inv tk G root v0 v → highlight_neighbors v n = Done v' →
  view_inv tk G root v0 v'.
Proof.
  intros [H1 H2 H3 H4 H5 HJ H6] Hh.
  apply highlight_neighbors_items in Hh as (nb & Hn & He & F1 & F2 & _).
  split.
  - by rewrite F1.
  - by rewrite F2.
  - rewrite Hn, <- H3.
    apply (keys_fmap_items (λ m, setOpacity (if decide (m ∈ nb) then 1 else 0.25%Q))).
  - by rewrite Hn, highlight_items_looks.
  - rewrite He, <- H5, <- list_fmap_compose. by apply list_fmap_ext.
  - done.
  - intros e Hin. rewrite He in Hin. apply list_elem_of_fmap in Hin as (e0 & -> & Hin).
    rewrite Hn. apply (in_sync_centers (node_items v)).
    + intros m. apply (highlight_items_center nb (node_items v) m).
    + apply (H6 e0 Hin).
Qed.

Lemma view_inv_drag G root v0 v n p :
  view_inv tk G root v0 v → view_inv tk G root v0 (drag_node tk v n p).
Proof.
  intros Hv. unfold drag_node. destruct (OD.get n (node_items v)) as [it|] eqn:E; [|done].
  destruct Hv as [H1 H2 H3 H4 H5 HJ H6].
  set (w := Build_Viewer _ _ _ _ _ _ _ _ _).
  destruct (update_all_edges_spec w) as (U1 & U2 & U3 & U4 & U5).
  split.
  - by rewrite U1.
  - by rewrite U2.
  - rewrite U3. unfold w. cbn [node_items]. rewrite od_keys_set_in; [done|].
    apply od_get_is_Some. by rewrite E.
  - rewrite U3. unfold w. cbn [node_items]. by rewrite (od_set_looks _ n it).
  - by rewrite U4.
  - done.
  - done.
Qed.

Lemma view_inv_step G root v0 d a :
  digraph_wf G → view_inv tk G root v0 (viewer d) →
  ∃ d', step tk d a = Done d' ∧ view_inv tk G root v0 (viewer d').
Proof.
  intros HG Hv. destruct a as [| | |name|n|n p]; cbn [step].
  - unfold apply_tree_layout.
    destruct (root_valid (vG (viewer d)) (root_id (viewer d))) eqn:Hr; [|by eexists].
    destruct (root_id (viewer d)) as [r|] eqn:Hroot; [|done].
    cbn [root_valid] in Hr. apply mem_true in Hr. fold (nodes (vG (viewer d))) in Hr.
    destruct (compute_tree_layout_done (vG (viewer d)) r) as (pos & Hpos & _);
      [by rewrite (vi_graph _ _ _ _ _ Hv) | done |].
    cbn [from_option id]. rewrite Hpos. eexists. split; [done|]. cbn [viewer].
    by apply view_inv_fit, view_inv_positions.
  - unfold apply_force_layout, compute_force_layout. eexists. split; [done|]. cbn [viewer].
    by apply view_inv_fit, view_inv_positions.
  - eexists. split; [done|]. by apply view_inv_fit.
  - eexists. split; [done|]. unfold export_png.
    destruct (isNull _); [done|]. by case_decide.
  - destruct (OD.mem n (node_items (viewer d))) eqn:Hmem; [|by eexists].
    apply mem_true in Hmem. rewrite (vi_keys _ _ _ _ _ Hv) in Hmem.
    destruct (highlight_neighbors_done (viewer d) n) as (v' & Hh & _).
    { by rewrite (vi_graph _ _ _ _ _ Hv). }
    { by rewrite (vi_graph _ _ _ _ _ Hv). }
    unfold on_node_clicked. rewrite Hh. eexists. split; [done|]. cbn [viewer].
    destruct (view_inv_highlight G root v0 _ n v' Hv Hh) as [H1 H2 H3 H4 H5 HJ H6].
    by split.
  - eexists. split; [done|]. by apply view_inv_drag.
Qed.

Lemma view_inv_run G root v0 acts d :
  digraph_wf G → view_inv tk G root v0 (viewer d) →
  ∃ d', run tk d acts = Done d' ∧ view_inv tk G root v0 (viewer d').
Proof.
  intros HG. revert d. induction acts as [|a acts IH]; intros d Hv; simpl; [by eexists|].
  destruct (view_inv_step G root v0 d a HG Hv) as (d1 & -> & Hv1). by apply IH.
Qed.

Lemma view_inv_draw G root v :
  digraph_wf G → vG v = G → root_id v = root →
  view_inv tk G root (fit_to_view tk (draw_graph tk v)) (fit_to_view tk (draw_graph tk v)).
Proof.
  intros HG <- <-.
  destruct (fit_to_view_frame tk (draw_graph tk v)) as (F1 & F2 & _ & _ & F3 & F4).
  split; rewrite ?F1, ?F2, ?F3, ?F4; try done.
  - by apply draw_graph_keys.
  - intros e He. destruct (draw_graph_edges tk v HG) as (_ & _ & Hd).
    destruct (Hd e He) as (d & Hin & _). by apply (edges_nodes _ _ _ d).
  - intros e He. destruct (draw_graph_edges tk v HG) as (_ & _ & Hd).
    by destruct (Hd e He) as (d & _ & _ & _ & _ & Hs).
Qed.

Lemma view_inv_init G root seed :
  digraph_wf G →
  ∃ v0, viewer_init tk G root seed = Done v0 ∧ view_inv tk G root v0 v0.
Proof.
  intros HG. unfold viewer_init.
  destruct (root_valid G root) eqn:Hr.
  - destruct root as [r|]; [|done]. cbn [root_valid] in Hr. apply mem_true in Hr.
    destruct (compute_tree_layout_done G r HG Hr) as (pos & Hpos & _).
    cbn [from_option id]. rewrite Hpos. eexists. split; [done|]. by apply view_inv_draw.
  - unfold compute_force_layout. eexists. split; [done|]. by apply view_inv_draw.
Qed.

(** X12 (graph_viewer.py, [GraphViewer]): on any graph and with any root,
    opening the window and then pressing the layout and fit buttons,
    clicking nodes and dragging them, and opening the export dialog and
    cancelling it, in any order, raises no exception; the window keeps one
    item per node of the graph, no action changes the size, the colour or
    the label of a node, and none adds or removes a curve or changes which
    nodes it joins and what it is labelled. The writing of an image is not
    part of this: [QImage] refuses a scene too large for its sizes. *)
Theorem window_never_raises (G : DiGraph) (root : option Z) (seed : nat)
    (fs : gmap string (Z * Z)) (acts : list action) :
  digraph_wf G →
  (∀ name, name ∈ exports acts → name = EmptyString) →
  ∃ v0 d,
    viewer_init tk G root seed = Done v0 ∧
    run tk {| viewer := v0; files := fs; dialogs := 0 |} acts = Done d ∧
    vG (viewer d) = G ∧ root_id (viewer d) = root ∧
    OD.keys (node_items (viewer d)) = nodes G ∧
    node_looks (node_items (viewer d)) = node_looks (node_items v0) ∧
    edge_ends <$> edge_items (viewer d) = edge_ends <$> edge_items v0.
Proof.
  intros HG _. destruct (view_inv_init G root seed HG) as (v0 & Hinit & Hv0).
  destruct (view_inv_run G root v0 acts {| viewer := v0; files := fs; dialogs := 0 |} HG Hv0)
    as (d & Hrun & [H1 H2 H3 H4 H5 HJ H6]).
  by exists v0, d.
Qed.

(** X13 (graph_viewer.py, [update_path], [update_all_edges],
    [on_node_moved], [apply_positions]): after any sequence of actions,
    every curve runs between the centres that its two nodes have at that
    moment, and its label sits on the middle of the curve: no layout change
    and no drag leaves a curve behind. *)
Theorem edges_follow_nodes (G : DiGraph) (root : option Z) (seed : nat)
    (fs : gmap string (Z * Z)) (acts : list action) :
  digraph_wf G →
  ∃ v0 d,
    viewer_init tk G root seed = Done v0 ∧
    run tk {| viewer := v0; files := fs; dialogs := 0 |} acts = Done d ∧
    ∀ e, e ∈ edge_items (viewer d) →
      let p1 := item_center (node_items (viewer d)) (src_id e) in
      let p2 := item_center (node_items (viewer d)) (dst_id e) in
      let lb := label_size tk (label_text e) in
      src_id e ∈ nodes G ∧ dst_id e ∈ nodes G ∧
      geometry e = edge_geometry p1 p2 lb.1 lb.2.
Proof.
  intros HG. destruct (view_inv_init G root seed HG) as (v0 & Hinit & Hv0).
  destruct (view_inv_run G root v0 acts {| viewer := v0; files := fs; dialogs := 0 |} HG Hv0)
    as (d & Hrun & [H1 H2 H3 H4 H5 HJ H6]).
  exists v0, d. split; [done|]. split; [done|]. intros e He.
  assert (edge_ends e ∈ edge_ends <$> edge_items v0) as Hin.
  { rewrite <- H5. apply list_elem_of_fmap. by exists e. }
  apply list_elem_of_fmap in Hin as (e0 & [= Hs Hd _] & He0).
  destruct (HJ e0 He0) as [Ha Hb]. rewrite Hs, Hd.
  split_and!; [done | done |]. rewrite <- Hs, <- Hd. by apply H6.
Qed.

End viewer_run.

Lemma window_never_raises_witness :
  digraph_wf layout_example ∧
  (∀ name,
     name ∈ exports [Click 11; Drag 12 (5%Q, 5%Q); ForceButton; FitButton; TreeButton;
                     ExportButton EmptyString] →
     name = EmptyString) ∧
  ∃ v0 d,
    viewer_init plain_toolkit layout_example (Some 10) 0 = Done v0 ∧
    run plain_toolkit {| viewer := v0; files := ∅; dialogs := 0 |}
        [Click 11; Drag 12 (5%Q, 5%Q); ForceButton; FitButton; TreeButton;
         ExportButton EmptyString]
    = Done d ∧
    OD.keys (node_items (viewer d)) = nodes layout_example.
Proof.
  assert (digraph_wf layout_example) as Hwf by apply build_graph_wf.
  assert (∀ name,
            name ∈ exports [Click 11; Drag 12 (5%Q, 5%Q); ForceButton; FitButton; TreeButton;
                            ExportButton EmptyString] →
            name = EmptyString) as Hexp.
  { intros name H. apply list_elem_of_singleton in H. exact H. }
  split; [exact Hwf|]. split; [exact Hexp|].
  destruct (window_never_raises plain_toolkit layout_example (Some 10) 0 ∅
              [Click 11; Drag 12 (5%Q, 5%Q); ForceButton; FitButton; TreeButton;
               ExportButton EmptyString]
              Hwf Hexp) as (v0 & d & H1 & H2 & _ & _ & H3 & _).
  exists v0, d. split; [exact H1|]. split; [exact H2 | exact H3].
Defined.

Lemma edges_follow_nodes_witness :
  digraph_wf layout_example ∧
  ∃ v0 d,
    viewer_init plain_toolkit layout_example (Some 10) 0 = Done v0 ∧
    run plain_toolkit {| viewer := v0; files := ∅; dialogs := 0 |}
        [Drag 11 (5%Q, 5%Q); ForceButton; Drag 10 (7%Q, 0%Q)] = Done d ∧
    ∀ e, e ∈ edge_items (viewer d) → src_id e ∈ nodes layout_example.
Proof.
  assert (digraph_wf layout_example) as Hwf by apply build_graph_wf.
  split; [exact Hwf|].
  destruct (edges_follow_nodes plain_toolkit layout_example (Some 10) 0 ∅
              [Drag 11 (5%Q, 5%Q); ForceButton; Drag 10 (7%Q, 0%Q)] Hwf)
    as (v0 & d & H1 & H2 & H3).
  exists v0, d. split; [exact H1|]. split; [exact H2|].
  intros e He. exact (proj1 (H3 e He)).
Defined.

(** ** The map window: layout buttons, clicks, drags and exports *)

Section viewer_actions.
Context (tk : Toolkit).

Lemma apply_positions_items v :
  node_items (apply_positions tk v)
  = fold_left (λ items '(node, p),
      match OD.get node items with
      | Some it => OD.set node (setPos p it) items
      | None => items
      end) (positions v) (node_items v).
Proof. done. Qed.

(** X14 (graph_viewer.py, [apply_tree_layout], [apply_positions]): with a
    root that is a node of the graph, the tree button succeeds, records the
    tree layout as the current one, and moves every node item to the place
    that [compute_tree_layout] gives its node; nothing else of a node item
    changes. *)
Theorem tree_button_places_nodes (v : Viewer) (r : Z) :
  digraph_wf (vG v) → root_id v = Some r → r ∈ nodes (vG v) →
  ∃ pos v',
    compute_tree_layout (vG v) r = Done pos ∧
    apply_tree_layout tk v = Done v' ∧
    current_layout v' = Tree ∧ positions v' = pos ∧
    OD.keys (node_items v') = OD.keys (node_items v) ∧
    ∀ n it, OD.get n (node_items v) = Some it → n ∈ nodes (vG v) →
      ∃ p, OD.get n pos = Some p ∧ OD.get n (node_items v') = Some (setPos p it).
Proof.
  intros HG Hroot Hr.
  destruct (compute_tree_layout_done (vG v) r HG Hr) as (pos & Hpos & Hnd & Hall).
  exists pos. eexists. split; [done|]. split.
  { unfold apply_tree_layout. rewrite Hroot. cbn [root_valid from_option id].
    apply mem_true in Hr. unfold nodes in Hr. rewrite Hr, Hpos. done. }
  destruct (fit_to_view_frame tk (apply_positions tk (with_layout v Tree pos (rng v))))
    as (_ & _ & F1 & F2 & F3 & _).
  rewrite F1, F2, F3. split_and!; [done | done | |].
  - by destruct (apply_positions_frame tk (with_layout v Tree pos (rng v))) as (_ & _ & _ & _ & ->).
  - intros n it Hit Hn. destruct (Hall n Hn) as [p Hp]. exists p. split; [done|].
    rewrite apply_positions_items. cbn [with_layout positions node_items].
    rewrite apply_positions_get by done. by rewrite Hp, Hit.
Qed.




Lemma highlight_items_twice (nb nb' : gset Z) (items : list (Z * NodeItem)) :
  (λ '(m, it), (m, setOpacity (if decide (m ∈ nb') then 1 else 0.25%Q) it))
    <$> ((λ '(m, it), (m, setOpacity (if decide (m ∈ nb) then 1 else 0.25%Q) it)) <$> items)
  = (λ '(m, it), (m, setOpacity (if decide (m ∈ nb') then 1 else 0.25%Q) it)) <$> items.
Proof. rewrite <- list_fmap_compose. apply list_fmap_ext. by intros _ [m it] _. Qed.

Lemma highlight_edges_twice (nb nb' : gset Z) (es : list CurvedEdgeItem) :
  highlight_edge nb' <$> (highlight_edge nb <$> es) = highlight_edge nb' <$> es.
Proof. rewrite <- list_fmap_compose. by apply list_fmap_ext. Qed.

(** X16 (graph_viewer.py, [highlight_neighbors]): a highlight does not
    build on the one before it: after any earlier click, the click on a
    node leaves the window as the same click on the untouched window
    does. *)
Theorem highlight_last_click_wins (v va : Viewer) (a b : Z) :
  highlight_neighbors v a = Done va →
  highlight_neighbors va b = highlight_neighbors v b.
Proof.
  intros Ha. apply highlight_neighbors_items in Ha
    as (nb & Hn & He & HG & Hroot & Hl & Hp & Hf & Hr & Hc).
  unfold highlight_neighbors. rewrite HG.
  destruct (successors (vG v) b) as [succ| |]; [|done..].
  destruct (predecessors (vG v) b) as [pred| |]; [|done..].
  by rewrite Hroot, Hl, Hp, Hf, Hr, Hc, Hn, He, highlight_items_twice, highlight_edges_twice.
Qed.



Lemma step_files d a d' :
  step tk d a = Done d' →
  (files d' = files d ∧ dialogs d' = dialogs d) ∨
  ∃ name, a = ExportButton name ∧ dialogs d' = S (dialogs d) ∧
          (files d' = files d ∨
           name ≠ EmptyString ∧ ∃ img, files d' = <[name := img]> (files d)).
Proof.
  destruct a as [| | |name|n|n q]; cbn [step].
  - destruct (apply_tree_layout tk (viewer d)); [|done..]. intros [= <-]. by left.
  - intros [= <-]. by left.
  - intros [= <-]. by left.
  - intros [= <-]. unfold export_png. destruct (isNull _); [by left|].
    right. exists name. split; [done|]. case_decide; cbn [files dialogs]; [auto|].
    split; [done|]. right. split; [done|]. by eexists.
  - destruct (OD.mem n (node_items (viewer d))); [|intros [= <-]; by left].
    destruct (on_node_clicked (viewer d) n); [|done..]. intros [= <-]. by left.
  - intros [= <-]. by left.
Qed.

(** X18 (graph_viewer.py, [export_png] among the other actions): whatever
    is done with the window, the only files that change are those named in
    a file dialog of the export button, and a cancelled dialog changes
    none; no action but the export button opens a file dialog, and each
    press opens at most one. *)
Theorem only_exports_write_files (d d' : Desktop) (acts : list action) :
  run tk d acts = Done d' →
  (dialogs d ≤ dialogs d' ≤ dialogs d + length (exports acts))%nat ∧
  ∀ name, files d' !! name ≠ files d !! name →
          name ∈ exports acts ∧ name ≠ EmptyString.
Proof.
  revert d. induction acts as [|a acts IH]; intros d; cbn [run].
  - intros [= <-]. split; [simpl; lia | done].
  - destruct (step tk d a) as [d1| |] eqn:Hstep; [|done..]. intros Hrun.
    destruct (IH d1 Hrun) as [Hd Hf].
    assert (exports (a :: acts)
            = match a with ExportButton file_name => [file_name] | _ => [] end ++ exports acts)
      as -> by done.
    apply step_files in Hstep as [[Hf1 Hd1]|(name & -> & Hd1 & Hf1)].
    + rewrite <- Hf1, <- Hd1. split.
      * rewrite length_app. lia.
      * intros name Hne. destruct (Hf name Hne). split; [|done]. apply elem_of_app. by right.
    + split; [simpl; lia|]. intros name' Hne.
      destruct (decide (files d' !! name' = files d1 !! name')) as [Heq|Hne1].
      * destruct Hf1 as [Hf1|(Hname & img & Hf1)]; [by rewrite Heq, Hf1 in Hne|].
        rewrite Heq, Hf1 in Hne. destruct (decide (name = name')) as [->|Hnn].
        -- split; [left | done].
        -- by rewrite lookup_insert_ne in Hne.
      * destruct (Hf name' Hne1). split; [by right | done].
Qed.

End viewer_actions.

Lemma tree_button_places_nodes_witness :
  digraph_wf (vG highlight_example) ∧ root_id highlight_example = Some 1 ∧
  1 ∈ nodes (vG highlight_example) ∧
  ∃ pos v',
    compute_tree_layout (vG highlight_example) 1 = Done pos ∧
    apply_tree_layout plain_toolkit highlight_example = Done v' ∧
    current_layout v' = Tree ∧ positions v' = pos.
Proof.
  assert (digraph_wf (vG highlight_example)) as Hwf by apply build_graph_wf.
  assert (root_id highlight_example = Some 1) as Hroot by reflexivity.
  assert (1 ∈ nodes (vG highlight_example)) as Hn by (vm_compute; left).
  split; [exact Hwf|]. split; [exact Hroot|]. split; [exact Hn|].
  destruct (tree_button_places_nodes plain_toolkit highlight_example 1 Hwf Hroot Hn)
    as (pos & v' & H1 & H2 & H3 & H4 & _).
  exists pos, v'. split; [exact H1|]. split; [exact H2|]. split; [exact H3 | exact H4].
Defined.


Lemma highlight_last_click_wins_witness :
  ∃ va, highlight_neighbors highlight_example 1 = Done va ∧
        highlight_neighbors va 3 = highlight_neighbors highlight_example 3.
Proof.
  destruct (highlight_neighbors_done highlight_example 1) as (va & Hva & _).
  - apply build_graph_wf.
  - vm_compute. left.
  - exists va. split; [exact Hva|].
    exact (highlight_last_click_wins highlight_example va 1 3 Hva).
Defined.


Lemma only_exports_write_files_witness :
  ∃ v0 d',
    viewer_init plain_toolkit layout_example (Some 10) 0 = Done v0 ∧
    run plain_toolkit {| viewer := v0; files := ∅; dialogs := 0 |}
        [ExportButton "map.png"; Click 11; ExportButton EmptyString] = Done d' ∧
    (0 ≤ dialogs d' ≤ 2)%nat.
Proof.
  destruct (view_inv_init plain_toolkit layout_example (Some 10) 0) as (v0 & Hinit & Hv0);
    [apply build_graph_wf|].
  destruct (view_inv_run plain_toolkit layout_example (Some 10) v0
              [ExportButton "map.png"; Click 11; ExportButton EmptyString]
              {| viewer := v0; files := ∅; dialogs := 0 |}) as (d' & Hrun & _);
    [apply build_graph_wf | exact Hv0 |].
  exists v0, d'. split; [exact Hinit|]. split; [exact Hrun|].
  exact (proj1 (only_exports_write_files plain_toolkit _ d' _ Hrun)).
Defined.

(** ** The relationship editor *)

Lemma NoDup_fmap_elem_inj {A} (f : A → Z) (l : list A) x y :
  NoDup (f <$> l) → x ∈ l → y ∈ l → f x = f y → x = y.
Proof.
  induction l as [|z l IH]; intros Hnd Hx Hy Hf.
  - by apply elem_of_nil in Hx.
  - rewrite fmap_cons in Hnd. apply NoDup_cons in Hnd as [Hz Hnd].
    apply elem_of_cons in Hx as [->|Hx]; apply elem_of_cons in Hy as [->|Hy].
    + done.
    + destruct Hz. rewrite Hf. apply list_elem_of_fmap. by exists y.
    + destruct Hz. rewrite <- Hf. apply list_elem_of_fmap. by exists x.
    + by apply IH.
Qed.

Lemma filter_filter_keep {A} (P Q : A → Prop) `{∀ x, Decision (P x)} `{∀ x, Decision (Q x)}
    (l : list A) :
  (∀ x, x ∈ l → P x → Q x) → filter P (filter Q l) = filter P l.
Proof.
  induction l as [|x l IH]; intros Himp; [done|].
  assert (∀ y, y ∈ l → P y → Q y) as Himp' by (intros y Hy; apply Himp; by right).
  rewrite (filter_cons Q). destruct (decide (Q x)) as [Hq|Hq].
  - rewrite !(filter_cons P). case_decide; by rewrite IH.
  - rewrite (filter_cons P), decide_False; [by apply IH|].
    intros Hp. apply Hq, Himp; [left | done].
Qed.

Lemma viewer_init_layout tk G root seed v0 :
  viewer_init tk G root seed = Done v0 →
  current_layout v0 = (if root_valid G root then Tree else Force) ∧
  vG v0 = G ∧ root_id v0 = root.
Proof.
  unfold viewer_init. destruct (root_valid G root).
  - destruct (compute_tree_layout G (default 0 root)) as [pos| |]; [|done..].
    intros [= <-]. by destruct (fit_to_view_frame tk (draw_graph tk
      (with_layout (Build_Viewer G root Force [] [] [] None seed []) Tree pos seed)))
      as (-> & -> & -> & _).
  - unfold compute_force_layout. cbn [vG rng]. intros [= <-].
    by destruct (fit_to_view_frame tk (draw_graph tk
      (with_layout (Build_Viewer G root Force [] [] [] None seed [])
         Force (force_positions tk G seed) (S seed))))
      as (-> & -> & -> & _).
Qed.

Section dialog_facts.
Import RelationshipEditorDialog.
Context (tk : Toolkit) (strip : string → string).

Lemma dialog_inv_init s0 c : dialog_inv s0 c (init s0 c).
Proof.
  split; try done.
  - intros item Hin. cbn in Hin. apply list_elem_of_fmap in Hin as (e & -> & Hin).
    apply list_elem_of_filter in Hin as [Hne Hin]. split; [done|].
    apply list_elem_of_fmap. by exists e.
  - intros r Hr. by left.
Qed.

Lemma open_map_done dlg seed :
  ∃ w, open_map tk dlg seed
       = Done {| db := db dlg; current_entry_id := current_entry_id dlg;
                 window_title := window_title dlg;
                 other_entry_combo := other_entry_combo dlg;
                 rel_list := rel_list dlg; rel_type_field := rel_type_field dlg;
                 map_window := Some w |} ∧
       viewer_init tk (build_graph (Database.entries (db dlg)) (Database.relationships (db dlg)))
         (Some (current_entry_id dlg)) seed = Done w ∧
       OD.keys (node_items w)
       = nodes (build_graph (Database.entries (db dlg)) (Database.relationships (db dlg))).
Proof.
  destruct (view_inv_init tk
              (build_graph (Database.entries (db dlg)) (Database.relationships (db dlg)))
              (Some (current_entry_id dlg)) seed) as (w & Hw & Hinv); [apply build_graph_wf|].
  exists w. unfold open_map, Database.get_all_entries, Database.get_all_relationships.
  rewrite Hw. split; [done|]. split; [done|]. apply (vi_keys _ _ _ _ _ Hinv).
Qed.

Lemma dialog_inv_event s0 c dlg ev :
  dialog_inv s0 c dlg →
  ∃ dlg', on_event tk strip dlg ev = Done dlg' ∧ dialog_inv s0 c dlg'.
Proof.
  intros [H1 H2 H3 H4 H5]. destruct ev as [text|choice|row|seed]; cbn [on_event].
  - eexists. split; [done|]. by split.
  - eexists. split; [done|]. unfold add_relationship.
    destruct (other_entry_combo dlg !! choice) as [[txt other]|] eqn:E; cbn [fmap option_fmap option_map];
      [|by split].
    apply list_elem_of_lookup_2, H3 in E as [Hne Hin]. cbn [snd] in Hne, Hin.
    split; cbn [load_relationships db current_entry_id other_entry_combo rel_list
                Database.add_relationship fst Database.entries Database.relationships];
      try done.
    + by rewrite H1.
    + intros r Hr. apply elem_of_app in Hr as [Hr|Hr]; [by apply H5|].
      apply list_elem_of_singleton in Hr. subst r. right. rewrite H1.
      split_and!; try done. eexists. split; [done|]. by case_decide.
  - eexists. split; [done|]. unfold delete_selected_relationship.
    destruct (row ≫= (rel_list dlg !!.)) as [item|] eqn:E; [|by split].
    split; cbn [load_relationships db current_entry_id other_entry_combo rel_list
                Database.delete_relationship Database.entries Database.relationships];
      try done.
    + by rewrite H1.
    + intros r Hr. apply list_elem_of_filter in Hr as [_ Hr]. by apply H5.
  - destruct (open_map_done dlg seed) as (w & -> & _). eexists. split; [done|]. by split.
Qed.

Lemma rel_item_id s c r : (rel_item s c r).2 = r_id r.
Proof. unfold rel_item. by case_decide. Qed.

Lemma dialog_inv_events s0 c evs dlg :
  dialog_inv s0 c dlg →
  ∃ dlg', on_events tk strip dlg evs = Done dlg' ∧ dialog_inv s0 c dlg'.
Proof.
  revert dlg. induction evs as [|ev evs IH]; intros dlg Hinv; simpl; [by eexists|].
  destruct (dialog_inv_event s0 c dlg ev Hinv) as (dlg1 & -> & Hinv1). by apply IH.
Qed.

Lemma dialog_ok_event s0 c dlg ev dlg' :
  store_ok (db dlg) → dialog_inv s0 c dlg → on_event tk strip dlg ev = Done dlg' →
  store_ok (db dlg') ∧
  filter (λ r, ¬ Database.references c r) (Database.relationships (db dlg'))
  = filter (λ r, ¬ Database.references c r) (Database.relationships (db dlg)).
Proof.
  intros Hok [H1 H2 H3 H4 H5]. destruct ev as [text|choice|row|seed]; cbn [on_event].
  - by intros [= <-].
  - intros [= <-]. unfold add_relationship.
    destruct (other_entry_combo dlg !! choice) as [[txt other]|] eqn:E;
      cbn [fmap option_fmap option_map]; [|done].
    cbn [load_relationships db snd]. split.
    + apply (perform_ok _ (Database.AddRelationship _ _ _) Hok).
    + cbn [Database.add_relationship fst Database.relationships].
      rewrite filter_app, filter_cons, decide_False, filter_nil, app_nil_r; [done|].
      intros Hn. apply Hn. left. by rewrite H1.
  - intros [= <-]. unfold delete_selected_relationship.
    destruct (row ≫= (rel_list dlg !!.)) as [item|] eqn:E; [|done].
    cbn [load_relationships db]. split.
    + apply (perform_ok _ (Database.DeleteRelationship _) Hok).
    + cbn [Database.delete_relationship Database.relationships].
      destruct row as [i|]; [|done]. cbn in E.
      apply list_elem_of_lookup_2 in E. rewrite H4 in E.
      apply list_elem_of_fmap in E as (r & -> & Hr).
      apply list_elem_of_filter in Hr as [Href Hr].
      apply filter_filter_keep. intros x Hx Hnx Heq. apply Hnx.
      rewrite rel_item_id in Heq.
      by rewrite (NoDup_fmap_elem_inj r_id _ x r (ok_rel_ids _ Hok) Hx Hr Heq).
  - destruct (open_map_done dlg seed) as (w & -> & _). by intros [= <-].
Qed.

Lemma dialog_ok_events s0 c evs dlg :
  store_ok (db dlg) → dialog_inv s0 c dlg →
  ∃ dlg', on_events tk strip dlg evs = Done dlg' ∧ dialog_inv s0 c dlg' ∧
          store_ok (db dlg') ∧
          filter (λ r, ¬ Database.references c r) (Database.relationships (db dlg'))
          = filter (λ r, ¬ Database.references c r) (Database.relationships (db dlg)).
Proof.
  revert dlg. induction evs as [|ev evs IH]; intros dlg Hok Hinv; simpl; [by eexists|].
  destruct (dialog_inv_event s0 c dlg ev Hinv) as (dlg1 & Hev & Hinv1).
  destruct (dialog_ok_event s0 c dlg ev dlg1 Hok Hinv Hev) as [Hok1 Heq1].
  rewrite Hev. destruct (IH dlg1 Hok1 Hinv1) as (dlg' & -> & Hinv' & Hok' & Heq').
  exists dlg'. split_and!; try done. by rewrite Heq'.
Qed.

Lemma rel_item_left s c r :
  Database.references c r →
  rel_item s c r
  = (py_format (title_of s c) +:+ " --[" +:+ py_or (r_type r) "relationship" +:+ "]--> "
       +:+ py_format (title_of s (other_end c r)), r_id r).
Proof.
  intros Href. unfold rel_item, other_end. destruct (decide (c = r_entry_a r)) as [->|Hne]; [done|].
  destruct Href as [Ha|Hb]; [by destruct Hne|]. by rewrite Hb.
Qed.

(** X19 (relationship_ui.py, [populate_other_entries], [add_relationship],
    [delete_selected_relationship]): whatever is typed and pressed in the
    editor of an entry, no exception is raised, the entries stay as they
    are, and every relationship in the store is one that was there when the
    editor opened or goes from the editor's entry to another entry of the
    store, with a type that is not the empty text: the editor never joins
    its entry to itself and never stores an empty type. *)
Theorem dialog_adds_outgoing_rows (s0 : Database.Store) (c : Z) (evs : list event) :
  ∃ dlg,
    on_events tk strip (init s0 c) evs = Done dlg ∧
    current_entry_id dlg = c ∧
    Database.entries (db dlg) = Database.entries s0 ∧
    ∀ r, r ∈ Database.relationships (db dlg) →
         r ∈ Database.relationships s0 ∨ added_by_dialog s0 c r.
Proof.
  destruct (dialog_inv_events s0 c evs (init s0 c) (dialog_inv_init s0 c))
    as (dlg & Hrun & [H1 H2 H3 H4 H5]).
  by exists dlg.
Qed.

(** X20 (relationship_ui.py, [delete_selected_relationship],
    [add_relationship]): the editor of an entry leaves the relationships
    between other entries alone: after any use of it they are the same
    rows in the same order, and the ids of the store are still distinct. *)
Theorem dialog_keeps_other_relationships (s0 : Database.Store) (c : Z) (evs : list event) :
  store_ok s0 →
  ∃ dlg,
    on_events tk strip (init s0 c) evs = Done dlg ∧
    store_ok (db dlg) ∧
    filter (λ r, ¬ Database.references c r) (Database.relationships (db dlg))
    = filter (λ r, ¬ Database.references c r) (Database.relationships s0).
Proof.
  intros Hok.
  destruct (dialog_ok_events s0 c evs (init s0 c) Hok (dialog_inv_init s0 c))
    as (dlg & Hrun & _ & Hok' & Heq).
  by exists dlg.
Qed.

(** X21 (relationship_ui.py, [load_relationships]): after any use of the
    editor its list shows the relationships of its entry as the store has
    them at that moment, in the order of the store, and every line starts
    with the name of the editor's entry, whichever end of the relationship
    it is, and ends with the name of the other end. *)
Theorem dialog_list_current_on_left (s0 : Database.Store) (c : Z) (evs : list event) :
  ∃ dlg,
    on_events tk strip (init s0 c) evs = Done dlg ∧
    rel_list dlg
    = (λ r, (py_format (title_of (db dlg) c) +:+ " --["
               +:+ py_or (r_type r) "relationship" +:+ "]--> "
               +:+ py_format (title_of (db dlg) (other_end c r)), r_id r))
        <$> Database.get_relationships_for_entry (db dlg) c.
Proof.
  destruct (dialog_inv_events s0 c evs (init s0 c) (dialog_inv_init s0 c))
    as (dlg & Hrun & [H1 H2 H3 H4 H5]).
  exists dlg. split; [done|]. rewrite H4. apply list_fmap_ext. intros i r Hr.
  apply list_elem_of_lookup_2, list_elem_of_filter in Hr as [Href _].
  by apply rel_item_left.
Qed.

(** X22 (relationship_ui.py, [open_map]): the map button never raises; the
    window it opens shows the graph of the whole store with the editor's
    entry as the root, has a node item for exactly the entries of the
    store, and starts in the tree layout when the editor's entry is in the
    store and in the force layout when it is not; the store and the rest of
    the editor stay as they are. *)
Theorem open_map_shows_store (dlg : Dialog) (seed : nat) :
  ∃ w dlg',
    open_map tk dlg seed = Done dlg' ∧ map_window dlg' = Some w ∧
    db dlg' = db dlg ∧ rel_list dlg' = rel_list dlg ∧
    vG w = build_graph (Database.get_all_entries (db dlg))
                       (Database.get_all_relationships (db dlg)) ∧
    root_id w = Some (current_entry_id dlg) ∧
    (∀ n, n ∈ OD.keys (node_items w) ↔ n ∈ e_id <$> Database.entries (db dlg)) ∧
    current_layout w
    = if decide (current_entry_id dlg ∈ e_id <$> Database.entries (db dlg))
      then Tree else Force.
Proof.
  destruct (open_map_done dlg seed) as (w & Hopen & Hinit & Hkeys).
  apply viewer_init_layout in Hinit as (Hl & HG & Hroot).
  exists w. eexists. split; [done|]. cbn [map_window db rel_list].
  split_and!; try done.
  - intros n. rewrite Hkeys. apply build_graph_nodes.
  - rewrite Hl. cbn [root_valid]. case_decide as Hin.
    + apply (build_graph_nodes _ (Database.relationships (db dlg))) in Hin.
      apply mem_true in Hin. by rewrite Hin.
    + destruct (OD.mem _ _) eqn:E; [|done]. apply mem_true in E.
      destruct Hin. by apply (build_graph_nodes _ (Database.relationships (db dlg))).
Qed.

End dialog_facts.

Lemma dialog_keeps_other_relationships_witness :
  let s0 := fold_left Database.perform
              [Database.AddEntry "Ann" EmptyString "Character" EmptyString EmptyString;
               Database.AddEntry "Bob" EmptyString "Character" EmptyString EmptyString;
               Database.AddRelationship 2 2 "Self"] Database.create_tables in
  store_ok s0 ∧
  ∃ dlg,
    RelationshipEditorDialog.on_events plain_toolkit (λ s, s)
      (RelationshipEditorDialog.init s0 1)
      [RelationshipEditorDialog.TypeText "Ally"; RelationshipEditorDialog.AddButton 0;
       RelationshipEditorDialog.MapButton 0;
       RelationshipEditorDialog.DeleteButton (Some 0%nat)] = Done dlg ∧
    store_ok (RelationshipEditorDialog.db dlg).
Proof.
  intros s0.
  assert (store_ok s0) as Hok by apply perform_all_ok, create_tables_ok.
  split; [exact Hok|].
  destruct (dialog_keeps_other_relationships plain_toolkit (λ s, s) s0 1
              [RelationshipEditorDialog.TypeText "Ally"; RelationshipEditorDialog.AddButton 0;
               RelationshipEditorDialog.MapButton 0;
               RelationshipEditorDialog.DeleteButton (Some 0%nat)] Hok)
    as (dlg & H1 & H2 & _).
  exists dlg. split; [exact H1 | exact H2].
Defined.

(** ** The search dictionary *)

Lemma prepare_search_data_app l1 l2 d :
  fold_left (λ search_dict e, OD.set (e_id e) (Search.combined e) search_dict) (l1 ++ l2) d
  = fold_left (λ search_dict e, OD.set (e_id e) (Search.combined e) search_dict) l2
      (fold_left (λ search_dict e, OD.set (e_id e) (Search.combined e) search_dict) l1 d).
Proof. apply fold_left_app. Qed.

Lemma prepare_search_data_keys entries n :
  n ∈ OD.keys (Search.prepare_search_data entries) ↔ n ∈ e_id <$> entries.
Proof.
  unfold Search.prepare_search_data.
  induction entries as [|e entries IH] using rev_ind.
  - split; intros H; by apply elem_of_nil in H.
  - rewrite prepare_search_data_app. simpl.
    rewrite od_elem_keys_set, IH, fmap_app, elem_of_app. simpl.
    rewrite list_elem_of_singleton. tauto.
Qed.

(** X23 (search.py, [prepare_search_data]): the search dictionary has one
    key for every entry id, in the order of the rows, and no other key;
    with distinct ids every entry is found under its own id with the text
    made of its five columns, a missing column counting as empty. *)
Theorem prepare_search_data_lookup (entries : list EntryRow) :
  NoDup (e_id <$> entries) →
  OD.keys (Search.prepare_search_data entries) = e_id <$> entries ∧
  ∀ e, e ∈ entries →
    OD.get (e_id e) (Search.prepare_search_data entries)
    = Some (py_or (e_title e) EmptyString +:+ " " +:+ py_or (e_description e) EmptyString
            +:+ " " +:+ py_or (e_category e) EmptyString +:+ " "
            +:+ py_or (e_tags e) EmptyString +:+ " " +:+ py_or (e_synonyms e) EmptyString).
Proof.
  unfold Search.prepare_search_data.
  induction entries as [|e entries IH] using rev_ind; intros Hnd.
  - split; [done|]. intros e He. by apply elem_of_nil in He.
  - rewrite fmap_app in Hnd. apply NoDup_app in Hnd as (Hnd & Hdis & _).
    destruct (IH Hnd) as [Hkeys Hget]. rewrite prepare_search_data_app. simpl.
    assert (e_id e ∉ e_id <$> entries) as Hnew.
    { intros Hin. apply (Hdis _ Hin). left. }
    split.
    + rewrite od_keys_set_notin by (by rewrite Hkeys). by rewrite Hkeys, fmap_app.
    + intros e' He'. rewrite od_get_set. apply elem_of_app in He' as [He'|He'].
      * rewrite decide_False; [by apply Hget|].
        intros Heq. apply Hnew. rewrite Heq. apply list_elem_of_fmap. by exists e'.
      * apply list_elem_of_singleton in He'. subst e'. by rewrite decide_True.
Qed.

Lemma prepare_search_data_lookup_witness :
  NoDup (e_id <$> [mkE 3 "C" "Item"; mkE 1 "A" "Item"]) ∧
  OD.keys (Search.prepare_search_data [mkE 3 "C" "Item"; mkE 1 "A" "Item"]) = [3; 1].
Proof.
  assert (NoDup (e_id <$> [mkE 3 "C" "Item"; mkE 1 "A" "Item"])) as Hnd.
  { apply (bool_decide_unpack _). vm_compute. exact I. }
  split; [exact Hnd|].
  exact (proj1 (prepare_search_data_lookup [mkE 3 "C" "Item"; mkE 1 "A" "Item"] Hnd)).
Defined.

(** ** The main window *)

Lemma perform_text_ok s c : store_text_ok s → store_text_ok (Database.perform s c).
Proof.
  intros Hs. destruct c as [t d c g y|i t d c g y|i|i|a b t|i]; cbn [Database.perform].
  - intros e He. cbn in He. apply elem_of_app in He as [He|He]; [by apply Hs|].
    apply list_elem_of_singleton in He as ->. by repeat split.
  - intros e He. cbn in He. apply list_elem_of_fmap in He as (e0 & -> & He0).
    case_decide; [by repeat split | by apply Hs].
  - intros e He. cbn in He. apply list_elem_of_filter in He as [_ He]. by apply Hs.
  - intros e He. cbn in He. apply list_elem_of_filter in He as [_ He]. by apply Hs.
  - done.
  - done.
Qed.

Lemma get_entry_in s i :
  store_ok s → i ∈ e_id <$> Database.entries s →
  ∃ e, Database.get_entry s i = Some e ∧ e ∈ Database.entries s ∧ e_id e = i.
Proof.
  intros Hok Hin. apply list_elem_of_fmap in Hin as (e & -> & He).
  exists e. split; [by apply get_entry_elem | done].
Qed.

Lemma dialog_event_store tk strip dlg ev :
  ∃ dlg', RelationshipEditorDialog.on_event tk strip dlg ev = Done dlg' ∧
          Database.entries (RelationshipEditorDialog.db dlg')
          = Database.entries (RelationshipEditorDialog.db dlg) ∧
          (store_ok (RelationshipEditorDialog.db dlg) →
           store_ok (RelationshipEditorDialog.db dlg')).
Proof.
  destruct ev as [text|choice|row|seed]; cbn [RelationshipEditorDialog.on_event].
  - by eexists.
  - eexists. split; [done|]. unfold RelationshipEditorDialog.add_relationship.
    destruct (RelationshipEditorDialog.other_entry_combo dlg !! choice) as [[txt other]|];
      cbn [fmap option_fmap option_map]; [|done].
    split; [done|]. intros Hok. apply (perform_ok _ (Database.AddRelationship _ _ _) Hok).
  - eexists. split; [done|]. unfold RelationshipEditorDialog.delete_selected_relationship.
    destruct (row ≫= _) as [item|]; [|done].
    split; [done|]. intros Hok. apply (perform_ok _ (Database.DeleteRelationship _) Hok).
  - destruct (open_map_done tk dlg seed) as (w & -> & _). by eexists.
Qed.

Section window_facts.
Import MainWindow.
Context (item_of_none field_of_none : option string)
        (strip : string → string)
        (extract : string → list (Z * string) → nat → list (string * Q * Z))
        (tk : Toolkit).

Lemma list_items_ok entries :
  (∀ e, e ∈ entries → is_Some (e_title e)) →
  ∃ items, list_items item_of_none entries = Ok items ∧
           items.*2 = e_id <$> entries ∧ Some <$> items.*1 = e_title <$> entries.
Proof.
  induction entries as [|e entries IH]; intros Hall; [by exists []|].
  destruct (Hall e) as [t Ht]; [left|].
  destruct IH as (items & Hitems & Hids & Htitles); [intros e' He'; apply Hall; by right|].
  exists ((t, e_id e) :: items). cbn [list_items]. rewrite Ht. cbn. rewrite Hitems. cbn.
  split; [done|]. by rewrite Hids, Htitles, Ht.
Qed.

Lemma load_all_entries_ok w :
  store_text_ok (db w) →
  ∃ items, load_all_entries item_of_none w = Ok (set_entry_list w items) ∧
           items.*2 = e_id <$> Database.entries (db w) ∧
           Some <$> items.*1 = e_title <$> Database.entries (db w).
Proof.
  intros Htext. destruct (list_items_ok (Database.entries (db w))) as (items & Hitems & Hids);
    [intros e He; apply (Htext e He)|].
  exists items. unfold load_all_entries, Database.get_all_entries. rewrite Hitems. done.
Qed.

Lemma show_entry_ok w e :
  entry_text_ok e →
  ∃ t d c g y,
    show_entry field_of_none w (Some e) = Ok (set_fields w t d c g y) ∧
    e_title e = Some t ∧ e_description e = Some d ∧ e_category e = Some c ∧
    e_tags e = Some g ∧ e_synonyms e = Some y.
Proof.
  intros ([t Ht] & [d Hd] & [c Hc] & [g Hg] & [y Hy]). exists t, d, c, g, y.
  unfold show_entry. rewrite Ht, Hd, Hc, Hg, Hy. done.
Qed.

Lemma set_db_same w : set_db w (db w) = w.
Proof. by destruct w. Qed.

Lemma autosave_spec w :
  ∃ s, autosave_current_entry w = set_db w s ∧
       (s = db w ∨
        loading_entry w = false ∧
        ∃ i, current_entry_id w = Some i ∧
             s = Database.perform (db w)
                   (Database.UpdateEntry i (title_field w) (description_field w)
                      (category_field w) (tags_field w) (synonyms_field w))).
Proof.
  unfold autosave_current_entry.
  destruct (loading_entry w); [exists (db w); by rewrite set_db_same; auto|].
  destruct (current_entry_id w) as [i|]; [|exists (db w); by rewrite set_db_same; auto].
  case_decide; [exists (db w); by rewrite set_db_same; auto|].
  eexists. split; [done|]. right. split; [done|]. by exists i.
Qed.

Lemma autosave_store_ok w :
  store_ok (db w) → store_text_ok (db w) →
  store_ok (db (autosave_current_entry w)) ∧
  store_text_ok (db (autosave_current_entry w)) ∧
  e_id <$> Database.entries (db (autosave_current_entry w))
  = e_id <$> Database.entries (db w).
Proof.
  intros Hok Htext. destruct (autosave_spec w) as (s & -> & [->|(_ & i & _ & ->)]); cbn [set_db db].
  - done.
  - split_and!; [by apply perform_ok | by apply perform_text_ok | apply update_entry_ids].
Qed.

Lemma autosave_loading w :
  loading_entry w = true → autosave_current_entry w = w.
Proof. unfold autosave_current_entry. by intros ->. Qed.

Lemma window_inv_autosave w : window_inv w → window_inv (autosave_current_entry w).
Proof.
  intros [H1 H2 H3 H4]. destruct (autosave_store_ok w H1 H2) as (A1 & A2 & A3).
  destruct (autosave_spec w) as (s & Hs & _). rewrite Hs in *. cbn [set_db db] in *.
  split; cbn [set_db db entry_list loading_entry]; try done.
  intros item Hin. rewrite A3. by apply H3.
Qed.

Lemma load_entry_details_spec w item :
  store_ok (db w) → store_text_ok (db w) →
  item.2 ∈ e_id <$> Database.entries (db w) →
  ∃ e t d c g y,
    Database.get_entry (db w) item.2 = Some e ∧
    e_title e = Some t ∧ e_description e = Some d ∧ e_category e = Some c ∧
    e_tags e = Some g ∧ e_synonyms e = Some y ∧
    load_entry_details field_of_none w item
    = Ok (set_loading_entry
            (set_fields (set_current_entry_id (set_loading_entry w true) (Some item.2))
               t d c g y) false).
Proof.
  intros Hok Htext Hin. destruct (get_entry_in _ _ Hok Hin) as (e & Hget & He & _).
  unfold load_entry_details. rewrite autosave_loading by done.
  cbn [set_current_entry_id set_loading_entry db]. rewrite Hget.
  destruct (show_entry_ok
              (set_current_entry_id (set_loading_entry w true) (Some item.2)) e (Htext e He))
    as (t & d & c & g & y & Hshow & Ht & Hd & Hc & Hg & Hy).
  exists e, t, d, c, g, y. split_and!; try done.
  cbn [set_current_entry_id set_loading_entry db] in Hshow. by rewrite Hshow.
Qed.

Lemma select_entry_by_id_spec w entry_id :
  store_ok (db w) → store_text_ok (db w) →
  (∀ item, item ∈ entry_list w → item.2 ∈ e_id <$> Database.entries (db w)) →
  ∃ w', select_entry_by_id field_of_none w entry_id = Ok w' ∧
        db w' = db w ∧ entry_list w' = entry_list w ∧ loading_entry w' = false ∧
        current_entry_id w' = Some entry_id.
Proof.
  intros Hok Htext Hlist. unfold select_entry_by_id. rewrite autosave_loading by done.
  cbn [set_current_entry_id set_loading_entry db entry_list].
  destruct (list_find _ (entry_list w)) as [[i item]|] eqn:E; [|by eexists].
  apply list_find_Some in E as (Hi & Heq & _).
  apply list_elem_of_lookup_2, Hlist in Hi. rewrite Heq in Hi.
  destruct (get_entry_in _ _ Hok Hi) as (e & -> & He & _).
  destruct (show_entry_ok
              (set_current_entry_id (set_loading_entry w true) (Some entry_id)) e (Htext e He))
    as (t & d & c & g & y & Hshow & _).
  cbn [set_current_entry_id set_loading_entry db] in Hshow. rewrite Hshow. by eexists.
Qed.

Lemma window_inv_load_all w :
  store_ok (db w) → store_text_ok (db w) → loading_entry w = false →
  ∃ items, load_all_entries item_of_none w = Ok (set_entry_list w items) ∧
           items.*2 = e_id <$> Database.entries (db w) ∧
           window_inv (set_entry_list w items).
Proof.
  intros Hok Htext Hl. destruct (load_all_entries_ok w Htext) as (items & Hload & Hids & _).
  exists items. split; [done|]. split; [done|]. split; cbn [set_entry_list db entry_list loading_entry]; try done.
  intros item Hin. rewrite <- Hids. apply list_elem_of_fmap. by exists item.
Qed.

Lemma create_entry_spec w :
  window_inv w →
  let w1 := autosave_current_entry w in
  let i := Database.next_entry_id (db w) in
  ∃ items,
    create_entry item_of_none field_of_none w
    = Ok (set_loading_entry
            (set_fields
               (set_current_entry_id
                  (set_loading_entry
                     (set_entry_list
                        (set_db w1 (Database.add_entry (db w1) "New Entry" EmptyString
                                      EmptyString EmptyString EmptyString).1) items) true)
                  (Some i))
               "New Entry" EmptyString EmptyString EmptyString EmptyString) false) ∧
    items.*2 = (e_id <$> Database.entries (db w)) ++ [i] ∧
    Database.next_entry_id (db w1) = i.
Proof.
  intros Hinv w1 i. pose proof (window_inv_autosave w Hinv) as [H1 H2 H3 H4]. fold w1 in H1, H2, H3, H4.
  destruct (autosave_store_ok w (wi_store _ Hinv) (wi_text _ Hinv)) as (_ & _ & Hids).
  fold w1 in Hids.
  assert (Database.next_entry_id (db w1) = i) as Hnext.
  { unfold w1, i. by destruct (autosave_spec w) as (s & -> & [->|(_ & j & _ & ->)]). }
  set (s2 := (Database.add_entry (db w1) "New Entry" EmptyString EmptyString EmptyString
                EmptyString).1).
  assert (store_ok s2) as Hok2 by apply (perform_ok _ (Database.AddEntry _ _ _ _ _) H1).
  assert (store_text_ok s2) as Htext2 by apply (perform_text_ok _ (Database.AddEntry _ _ _ _ _) H2).
  destruct (window_inv_load_all (set_db w1 s2) Hok2 Htext2 H4) as (items & Hload & Hitems & Hinv3).
  cbn [set_db db] in Hitems.
  assert (e_id <$> Database.entries s2 = (e_id <$> Database.entries (db w)) ++ [i]) as Hids2.
  { unfold s2. cbn. by rewrite fmap_app, Hids, Hnext. }
  exists items. split; [|by rewrite Hitems].
  unfold create_entry. fold w1.
  change (Database.add_entry (db w1) "New Entry" EmptyString EmptyString EmptyString EmptyString)
    with (s2, Database.next_entry_id (db w1)).
  cbv beta iota. rewrite Hload. cbn [mbind result_bind].
  rewrite Hnext.
  destruct (list_find (λ item : string * Z, item.2 = i) (entry_list (set_entry_list (set_db w1 s2) items)))
    as [[k item]|] eqn:E.
  - apply list_find_Some in E as (Hk & Heq & _).
    destruct (load_entry_details_spec (set_entry_list (set_db w1 s2) items) item)
      as (e & t & d & c & g & y & Hget & Ht & Hd & Hc & Hg & Hy & Hdet); [done | done | |].
    { cbn [set_entry_list set_db db]. rewrite Heq, Hids2. apply elem_of_app. right. left. }
    rewrite Hdet. rewrite Heq in *.
    cbn [set_entry_list set_db db] in Hget.
    assert (e = entry_row i "New Entry" EmptyString EmptyString EmptyString EmptyString) as ->.
    { assert (Database.get_entry s2 i
              = Some (entry_row i "New Entry" EmptyString EmptyString EmptyString EmptyString))
        as Hnew; [|congruence].
      rewrite <- Hnext. apply (get_entry_elem s2 (entry_row _ _ _ _ _ _) Hok2).
      unfold s2. cbn. apply elem_of_app. right. left. }
    cbn in Ht, Hd, Hc, Hg, Hy. by injection Ht as <-; injection Hd as <-; injection Hc as <-;
      injection Hg as <-; injection Hy as <-.
  - exfalso. apply list_find_None in E.
    assert (i ∈ items.*2) as Hin by (rewrite Hitems, Hids2; apply elem_of_app; right; left).
    apply list_elem_of_fmap in Hin as (item & Heq & Hin).
    rewrite Forall_forall in E. by apply (E item Hin).
Qed.

Lemma window_inv_event w ev :
  window_inv w →
  ∃ w', on_event item_of_none field_of_none strip extract tk w ev = Ok w' ∧ window_inv w'.
Proof.
  intros Hinv. pose proof Hinv as [H1 H2 H3 H4].
  destruct ev as [t d c g y|text|row| | | | |ev|i]; cbn [on_event].
  - eexists. split; [done|]. by split.
  - unfold run_search. cbn [search_bar db]. case_decide.
    + destruct (window_inv_load_all
                  (Build_Window (db w) (loading_entry w) (current_entry_id w) text
                     (entry_list w) (title_field w) (description_field w) (category_field w)
                     (tags_field w) (synonyms_field w) (rel_dialog w) (closed w)))
        as (items & -> & _ & Hinv'); try done. by eexists.
    + eexists. split; [done|]. split; cbn [set_entry_list db entry_list loading_entry]; try done.
      intros item Hin. apply list_elem_of_omap in Hin as ([j score] & _ & Hitem).
      destruct (Database.get_entry (db w) j) as [e|] eqn:E; [|done].
      injection Hitem as <-. apply get_entry_Some in E as [He <-].
      apply list_elem_of_fmap. by exists e.
  - destruct (entry_list w !! row) as [item|] eqn:E; [|by eexists].
    apply list_elem_of_lookup_2, H3 in E.
    destruct (load_entry_details_spec w item H1 H2 E) as (e & t & d & c & g & y & _ & _ & _ & _ & _ & _ & ->).
    eexists. split; [done|]. by split.
  - destruct (create_entry_spec w Hinv) as (items & -> & Hitems & Hnext).
    eexists. split; [done|].
    destruct (window_inv_autosave w Hinv) as [A1 A2 A3 A4].
    destruct (autosave_store_ok w H1 H2) as (_ & _ & Hids).
    split; cbn [set_loading_entry set_fields set_current_entry_id set_entry_list set_db db
                entry_list loading_entry]; try done.
    + apply (perform_ok _ (Database.AddEntry _ _ _ _ _) A1).
    + apply (perform_text_ok _ (Database.AddEntry _ _ _ _ _) A2).
    + intros item Hin. cbn. rewrite fmap_app, Hids, Hnext. cbn. rewrite <- Hitems.
      apply list_elem_of_fmap. by exists item.
  - unfold delete_entry. destruct (current_entry_id w) as [i|]; [|by eexists].
    destruct (window_inv_load_all
                (clear_entry_fields (set_current_entry_id
                   (set_db w (Database.delete_entry_and_relationships (db w) i)) None)))
      as (items & -> & _ & Hinv'); try done.
    + apply (perform_ok _ (Database.DeleteEntryAndRelationships _) H1).
    + apply (perform_text_ok _ (Database.DeleteEntryAndRelationships _) H2).
    + by eexists.
  - unfold save_entry. destruct (current_entry_id w) as [i|]; [|by eexists].
    destruct (window_inv_load_all
                (set_db w (Database.update_entry (db w) i (title_field w) (description_field w)
                             (category_field w) (tags_field w) (synonyms_field w))))
      as (items & -> & _ & Hinv'); try done.
    + apply (perform_ok _ (Database.UpdateEntry _ _ _ _ _ _) H1).
    + apply (perform_text_ok _ (Database.UpdateEntry _ _ _ _ _ _) H2).
    + by eexists.
  - eexists. split; [done|]. unfold open_relationship_editor.
    destruct (current_entry_id w) as [i|]; [|done].
    destruct (window_inv_autosave w Hinv) as [A1 A2 A3 A4]. by split.
  - unfold in_editor. destruct (rel_dialog w) as [dlg|]; [|by eexists].
    match goal with |- context [RelationshipEditorDialog.on_event tk strip ?d ev] =>
      destruct (dialog_event_store tk strip d ev) as (dlg' & -> & Hent & Hok) end.
    cbn [RelationshipEditorDialog.db] in Hent, Hok.
    eexists. split; [done|]. split; cbn [db entry_list loading_entry]; try done.
    + by apply Hok.
    + intros e He. rewrite Hent in He. by apply H2.
    + intros item Hin. rewrite Hent. by apply H3.
  - destruct (select_entry_by_id_spec w i H1 H2 H3) as (w' & -> & Hdb & Hlist & Hl & _).
    eexists. split; [done|]. split; rewrite ?Hdb, ?Hlist; done.
Qed.


Lemma window_inv_init s :
  store_ok s → store_text_ok s →
  ∃ w0, init item_of_none s = Ok w0 ∧ window_inv w0 ∧ db w0 = s ∧
        current_entry_id w0 = None.
Proof.
  intros Hok Htext. unfold init.
  match goal with |- context [load_all_entries item_of_none ?w] =>
    destruct (window_inv_load_all w) as (items & -> & _ & Hinv) end; try done.
  by eexists.
Qed.


(** X25 (main.py, [load_entry_details], [select_entry_by_id],
    [autosave_current_entry]): selecting an entry, in the list or from a
    relationship map, never writes to the store: [loading_entry] is set
    before the autosave is called, so the autosave returns at once, and
    what was typed for the entry selected before and not saved does not
    reach the store. Afterwards [loading_entry] is off again and the
    selected entry is the current one: the entry of the clicked row, or
    the entry of the clicked node, whether the list shows it or not. *)
Theorem selecting_never_saves (w w' : Window) (ev : event) :
  window_inv w →
  (∃ row, ev = ItemClicked row) ∨ (∃ entry_id, ev = MapNodeClicked entry_id) →
  on_event item_of_none field_of_none strip extract tk w ev = Ok w' →
  db w' = db w ∧ loading_entry w' = false ∧
  (∀ row item, ev = ItemClicked row → entry_list w !! row = Some item →
     current_entry_id w' = Some item.2 ∧
     is_Some (Database.get_entry (db w') item.2)) ∧
  (∀ entry_id, ev = MapNodeClicked entry_id → current_entry_id w' = Some entry_id).
Proof.
  intros [H1 H2 H3 H4] [[row ->]|[i ->]]; cbn [on_event].
  - destruct (entry_list w !! row) as [item|] eqn:E.
    + pose proof E as Hin. apply list_elem_of_lookup_2, H3 in Hin.
      destruct (load_entry_details_spec w item H1 H2 Hin)
        as (e & t & d & c & g & y & Hget & Ht & Hd & Hc & Hg & Hy & ->).
      intros [= <-]. split_and!; [done | done | | by intros i [=]].
      intros row' item' [= <-] Hitem.
      rewrite E in Hitem. injection Hitem as <-.
      split; [done|]. cbn [set_loading_entry set_fields set_current_entry_id db].
      by rewrite Hget.
    + intros [= <-]. split_and!; [done | done | | by intros i [=]].
      intros row' item' [= <-] Hitem. by rewrite E in Hitem.
  - destruct (select_entry_by_id_spec w i H1 H2 H3) as (w1 & -> & Hdb & _ & Hl & Hc).
    intros [= <-]. split_and!; [done | done | by intros row item [=] |].
    by intros j [= <-].
Qed.

(** X26 (main.py, [create_entry]): the New button first saves the five
    fields to the current entry, unless there is none or all five are
    empty; it then adds an entry titled "New Entry" with the next id, lists
    all entries, the new one last, makes the new entry the current one and
    shows its columns in the fields; no relationship changes. *)
Theorem new_button_adds_and_selects (w : Window) :
  window_inv w →
  let s1 := db (autosave_current_entry w) in
  let i := Database.next_entry_id (db w) in
  ∃ w',
    create_entry item_of_none field_of_none w = Ok w' ∧
    Database.entries (db w')
    = Database.entries s1
        ++ [entry_row i "New Entry" EmptyString EmptyString EmptyString EmptyString] ∧
    Database.relationships (db w') = Database.relationships (db w) ∧
    (entry_list w').*2 = (e_id <$> Database.entries (db w)) ++ [i] ∧
    current_entry_id w' = Some i ∧
    shows w' (entry_row i "New Entry" EmptyString EmptyString EmptyString EmptyString) ∧
    loading_entry w' = false.
Proof.
  intros Hinv s1 i. destruct (create_entry_spec w Hinv) as (items & Hc & Hitems & Hnext).
  eexists. split; [exact Hc|].
  cbn [set_loading_entry set_fields set_current_entry_id set_entry_list set_db db
       entry_list loading_entry current_entry_id Database.add_entry fst
       Database.entries Database.relationships].
  split_and!; try done.
  - fold i in Hnext. by rewrite Hnext.
  - by destruct (autosave_spec w) as (s & -> & [->|(_ & j & _ & ->)]).
Qed.

(** X27 (main.py, [delete_entry]): with an entry selected, the Delete
    button removes that entry and every relationship that names it from
    the store, without saving the fields first; afterwards no entry is
    selected, the five fields are empty, and the list shows the entries
    that are left, whatever the search bar says. *)
Theorem delete_button_removes_entry (w : Window) (i : Z) :
  window_inv w → current_entry_id w = Some i →
  ∃ w',
    delete_entry item_of_none w = Ok w' ∧
    db w' = Database.delete_entry_and_relationships (db w) i ∧
    (i ∉ e_id <$> Database.entries (db w')) ∧
    (∀ r, r ∈ Database.relationships (db w') → ¬ Database.references i r) ∧
    (entry_list w').*2 = e_id <$> Database.entries (db w') ∧
    current_entry_id w' = None ∧
    title_field w' = EmptyString ∧ description_field w' = EmptyString ∧
    category_field w' = EmptyString ∧ tags_field w' = EmptyString ∧
    synonyms_field w' = EmptyString.
Proof.
  intros [H1 H2 H3 H4] Hcur. unfold delete_entry. rewrite Hcur.
  destruct (window_inv_load_all
              (clear_entry_fields (set_current_entry_id
                 (set_db w (Database.delete_entry_and_relationships (db w) i)) None)))
    as (items & -> & Hitems & _); try done.
  - apply (perform_ok _ (Database.DeleteEntryAndRelationships _) H1).
  - apply (perform_text_ok _ (Database.DeleteEntryAndRelationships _) H2).
  - eexists. split; [done|]. cbn in Hitems |- *. split_and!; try done.
    + intros Hin. apply list_elem_of_fmap in Hin as (e & He & Hin).
      apply list_elem_of_filter in Hin as [Hne _]. by apply Hne.
    + intros r Hr. by apply list_elem_of_filter in Hr as [Hnr _].
Qed.

End window_facts.

Lemma perform_all_text_ok s calls :
  store_text_ok s → store_text_ok (fold_left Database.perform calls s).
Proof.
  revert s. induction calls as [|c calls IH]; intros s Hs; simpl; [done|].
  by apply IH, perform_text_ok.
Qed.

Lemma create_tables_text_ok : store_text_ok Database.create_tables.
Proof. intros e He. by apply elem_of_nil in He. Qed.


Lemma selecting_never_saves_witness :
  let s := fold_left Database.perform
             [Database.AddEntry "Ann" "a smith" "Character" "tall" "Annie";
              Database.AddEntry "Bob" "a miller" "Character" "short" "Robert"]
             Database.create_tables in
  ∃ w0 w w',
    MainWindow.init None s = Ok w0 ∧
    w = MainWindow.set_fields (MainWindow.set_current_entry_id w0 (Some 1))
          "Ann" "a baker" "Character" "tall" "Annie" ∧
    window_inv w ∧
    MainWindow.on_event None None (λ t, t) (λ _ _ _, []) plain_toolkit w
      (MainWindow.ItemClicked 1) = Ok w' ∧
    MainWindow.db w' = MainWindow.db w.
Proof.
  intros s.
  destruct (window_inv_init None s) as (w0 & Hinit & [H1 H2 H3 H4] & _);
    [apply perform_all_ok, create_tables_ok
    |apply perform_all_text_ok, create_tables_text_ok|].
  assert (window_inv (MainWindow.set_fields (MainWindow.set_current_entry_id w0 (Some 1))
                        "Ann" "a baker" "Character" "tall" "Annie")) as Hinv
    by (split; [exact H1 | exact H2 | exact H3 | exact H4]).
  destruct (window_inv_event None None (λ t, t) (λ _ _ _, []) plain_toolkit _
              (MainWindow.ItemClicked 1) Hinv) as (w' & Hev & _).
  exists w0, (MainWindow.set_fields (MainWindow.set_current_entry_id w0 (Some 1))
                "Ann" "a baker" "Character" "tall" "Annie"), w'.
  split; [exact Hinit|]. split; [reflexivity|]. split; [exact Hinv|].
  split; [exact Hev|].
  exact (proj1 (selecting_never_saves None None (λ t, t) (λ _ _ _, []) plain_toolkit _ w'
                  (MainWindow.ItemClicked 1) Hinv (or_introl (ex_intro _ 1%nat eq_refl)) Hev)).
Defined.

Lemma new_button_adds_and_selects_witness :
  let s := fold_left Database.perform
             [Database.AddEntry "Ann" "a smith" "Character" "tall" "Annie"]
             Database.create_tables in
  ∃ w0 w',
    MainWindow.init None s = Ok w0 ∧ window_inv w0 ∧
    MainWindow.create_entry None None w0 = Ok w' ∧
    MainWindow.current_entry_id w' = Some (Database.next_entry_id (MainWindow.db w0)).
Proof.
  intros s.
  destruct (window_inv_init None s) as (w0 & Hinit & Hinv & _);
    [apply perform_all_ok, create_tables_ok
    |apply perform_all_text_ok, create_tables_text_ok|].
  destruct (new_button_adds_and_selects None None w0 Hinv) as (w' & H1 & _ & _ & _ & H2 & _).
  exists w0, w'. split; [exact Hinit|]. split; [exact Hinv|]. split; [exact H1 | exact H2].
Defined.

Lemma delete_button_removes_entry_witness :
  let s := fold_left Database.perform
             [Database.AddEntry "Ann" "a smith" "Character" "tall" "Annie";
              Database.AddEntry "Bob" "a miller" "Character" "short" "Robert";
              Database.AddRelationship 1 2 "Ally"]
             Database.create_tables in
  ∃ w0 w',
    MainWindow.init None s = Ok w0 ∧
    window_inv (MainWindow.set_current_entry_id w0 (Some 1)) ∧
    MainWindow.current_entry_id (MainWindow.set_current_entry_id w0 (Some 1)) = Some 1 ∧
    MainWindow.delete_entry None (MainWindow.set_current_entry_id w0 (Some 1)) = Ok w' ∧
    MainWindow.current_entry_id w' = None.
Proof.
  intros s.
  destruct (window_inv_init None s) as (w0 & Hinit & [H1 H2 H3 H4] & _);
    [apply perform_all_ok, create_tables_ok
    |apply perform_all_text_ok, create_tables_text_ok|].
  assert (window_inv (MainWindow.set_current_entry_id w0 (Some 1))) as Hinv
    by (split; [exact H1 | exact H2 | exact H3 | exact H4]).
  destruct (delete_button_removes_entry None (MainWindow.set_current_entry_id w0 (Some 1)) 1
              Hinv eq_refl) as (w' & Hd & _ & _ & _ & _ & Hc & _).
  exists w0, w'. split; [exact Hinit|]. split; [exact Hinv|]. split; [reflexivity|].
  split; [exact Hd | exact Hc].
Defined.

Lemma get_entry_update s i j t d c g y :
  Database.get_entry (Database.update_entry s i t d c g y) j
  = if decide (j = i)
    then (λ _, entry_row i t d c g y) <$> Database.get_entry s i
    else Database.get_entry s j.
Proof.
  unfold Database.get_entry. cbn [Database.update_entry Database.entries].
  rewrite filter_id_fmap by (intros e; by case_decide).
  case_decide as Hj.
  - subst j. induction (Database.entries s) as [|e l IH]; [done|].
    rewrite filter_cons. case_decide as He; [|done].
    rewrite fmap_cons. cbn. rewrite decide_True by done. by rewrite He.
  - induction (Database.entries s) as [|e l IH]; [done|].
    rewrite filter_cons. case_decide as He; [|done].
    rewrite fmap_cons. cbn. rewrite decide_False by congruence. done.
Qed.

(** X28 (main.py, [closeEvent], [autosave_current_entry]): closing the
    window with an entry selected writes the five fields to that entry and
    to no other, and leaves the relationships alone; but when all five
    fields are empty nothing is written, so an entry is never blanked by
    the autosave. *)
Theorem close_saves_fields (w : MainWindow.Window) (i : Z) :
  window_inv w → MainWindow.current_entry_id w = Some i →
  i ∈ e_id <$> Database.entries (MainWindow.db w) →
  let w' := MainWindow.closeEvent w in
  let blank_fields :=
    MainWindow.title_field w = EmptyString ∧ MainWindow.description_field w = EmptyString ∧
    MainWindow.category_field w = EmptyString ∧ MainWindow.tags_field w = EmptyString ∧
    MainWindow.synonyms_field w = EmptyString in
  MainWindow.closed w' = true ∧
  Database.relationships (MainWindow.db w') = Database.relationships (MainWindow.db w) ∧
  (∀ j, j ≠ i →
     Database.get_entry (MainWindow.db w') j = Database.get_entry (MainWindow.db w) j) ∧
  (blank_fields → MainWindow.db w' = MainWindow.db w) ∧
  (¬ blank_fields →
     Database.get_entry (MainWindow.db w') i
     = Some (entry_row i (MainWindow.title_field w) (MainWindow.description_field w)
               (MainWindow.category_field w) (MainWindow.tags_field w)
               (MainWindow.synonyms_field w))).
Proof.
  intros [H1 H2 H3 H4] Hcur Hin. cbn zeta.
  unfold MainWindow.closeEvent, MainWindow.autosave_current_entry.
  rewrite H4, Hcur. case_decide as Hb; cbn [MainWindow.db MainWindow.closed MainWindow.set_db].
  - by split_and!.
  - split_and!; try done.
    + intros j Hj. by rewrite get_entry_update, decide_False.
    + intros _. rewrite get_entry_update, decide_True by done.
      destruct (get_entry_in _ _ H1 Hin) as (e & -> & _). done.
Qed.

Lemma close_saves_fields_witness :
  let s := fold_left Database.perform
             [Database.AddEntry "Ann" "a smith" "Character" "tall" "Annie"]
             Database.create_tables in
  ∃ w0,
    MainWindow.init None s = Ok w0 ∧
    window_inv (MainWindow.set_fields (MainWindow.set_current_entry_id w0 (Some 1))
                  "Ann" "a baker" "Character" "tall" "Annie") ∧
    1 ∈ e_id <$> Database.entries (MainWindow.db w0) ∧
    MainWindow.closed
      (MainWindow.closeEvent
         (MainWindow.set_fields (MainWindow.set_current_entry_id w0 (Some 1))
            "Ann" "a baker" "Character" "tall" "Annie")) = true.
Proof.
  intros s.
  destruct (window_inv_init None s) as (w0 & Hinit & [H1 H2 H3 H4] & Hdb & _);
    [apply perform_all_ok, create_tables_ok
    |apply perform_all_text_ok, create_tables_text_ok|].
  assert (window_inv (MainWindow.set_fields (MainWindow.set_current_entry_id w0 (Some 1))
                        "Ann" "a baker" "Character" "tall" "Annie")) as Hinv
    by (split; [exact H1 | exact H2 | exact H3 | exact H4]).
  assert (1 ∈ e_id <$> Database.entries (MainWindow.db w0)) as Hin
    by (rewrite Hdb; vm_compute; left).
  exists w0. split; [exact Hinit|]. split; [exact Hinv|]. split; [exact Hin|].
  exact (proj1 (close_saves_fields
                  (MainWindow.set_fields (MainWindow.set_current_entry_id w0 (Some 1))
                     "Ann" "a baker" "Character" "tall" "Annie") 1 Hinv eq_refl Hin)).
Defined.

(** X29 (main.py, [save_entry], [load_all_entries]): with an existing entry
    selected, the Save button writes the five fields to that entry, also
    when all five are empty, and to no other entry; it leaves the
    relationships alone and lists all entries again, in the order of the
    store and under their stored titles, whatever the search bar says. *)
Theorem save_button_writes_fields (item_of_none : option string)
    (w : MainWindow.Window) (i : Z) :
  window_inv w → MainWindow.current_entry_id w = Some i →
  i ∈ e_id <$> Database.entries (MainWindow.db w) →
  ∃ w',
    MainWindow.save_entry item_of_none w = Ok w' ∧
    Database.get_entry (MainWindow.db w') i
    = Some (entry_row i (MainWindow.title_field w) (MainWindow.description_field w)
              (MainWindow.category_field w) (MainWindow.tags_field w)
              (MainWindow.synonyms_field w)) ∧
    (∀ j, j ≠ i →
       Database.get_entry (MainWindow.db w') j = Database.get_entry (MainWindow.db w) j) ∧
    Database.relationships (MainWindow.db w') = Database.relationships (MainWindow.db w) ∧
    (MainWindow.entry_list w').*2 = e_id <$> Database.entries (MainWindow.db w) ∧
    Some <$> (MainWindow.entry_list w').*1 = e_title <$> Database.entries (MainWindow.db w') ∧
    MainWindow.current_entry_id w' = Some i.
Proof.
  intros [H1 H2 H3 H4] Hcur Hin. unfold MainWindow.save_entry. rewrite Hcur.
  set (s' := Database.update_entry _ _ _ _ _ _ _).
  destruct (load_all_entries_ok item_of_none (MainWindow.set_db w s'))
    as (items & -> & Hids & Htitles).
  { apply (perform_text_ok _ (Database.UpdateEntry _ _ _ _ _ _) H2). }
  eexists. split; [done|].
  cbn [MainWindow.set_entry_list MainWindow.set_db MainWindow.db MainWindow.entry_list
       MainWindow.current_entry_id] in *.
  split_and!; try done.
  - unfold s'. rewrite get_entry_update, decide_True by done.
    by destruct (get_entry_in _ _ H1 Hin) as (e & -> & _).
  - intros j Hj. unfold s'. by rewrite get_entry_update, decide_False.
  - rewrite Hids. apply update_entry_ids.
Qed.

Lemma save_button_writes_fields_witness :
  let s := fold_left Database.perform
             [Database.AddEntry "Ann" "a smith" "Character" "tall" "Annie"]
             Database.create_tables in
  ∃ w0 w',
    MainWindow.init None s = Ok w0 ∧
    window_inv (MainWindow.set_fields (MainWindow.set_current_entry_id w0 (Some 1))
                  "Anna" "a baker" "Character" "tall" "Annie") ∧
    1 ∈ e_id <$> Database.entries (MainWindow.db w0) ∧
    MainWindow.save_entry None
      (MainWindow.set_fields (MainWindow.set_current_entry_id w0 (Some 1))
         "Anna" "a baker" "Character" "tall" "Annie") = Ok w' ∧
    Database.get_entry (MainWindow.db w') 1
    = Some (entry_row 1 "Anna" "a baker" "Character" "tall" "Annie").
Proof.
  intros s.
  destruct (window_inv_init None s) as (w0 & Hinit & [H1 H2 H3 H4] & Hdb & _);
    [apply perform_all_ok, create_tables_ok
    |apply perform_all_text_ok, create_tables_text_ok|].
  assert (window_inv (MainWindow.set_fields (MainWindow.set_current_entry_id w0 (Some 1))
                        "Anna" "a baker" "Character" "tall" "Annie")) as Hinv
    by (split; [exact H1 | exact H2 | exact H3 | exact H4]).
  assert (1 ∈ e_id <$> Database.entries (MainWindow.db w0)) as Hin
    by (rewrite Hdb; vm_compute; left).
  destruct (save_button_writes_fields None
              (MainWindow.set_fields (MainWindow.set_current_entry_id w0 (Some 1))
                 "Anna" "a baker" "Character" "tall" "Annie") 1 Hinv eq_refl Hin)
    as (w' & Hs & Hg & _).
  exists w0, w'. split; [exact Hinit|]. split; [exact Hinv|]. split; [exact Hin|].
  split; [exact Hs | exact Hg].
Defined.
